(** * Animated PlantUML: parser, flow graph and animation engine

    A shallow embedding of [plantuml-parser.js] and [animation-system.js].

    Conventions of the embedding.
    - A JavaScript string is a [string]; each [ascii] stands for the UTF-16
      code unit of the same number, so the development covers the strings
      whose code units are below 256.
    - A JavaScript number is a rational [Q] where the source computes with
      fractions (positions, sizes, durations) and a [nat] where it counts.
      Arithmetic is exact: IEEE rounding is not part of the model.
    - The parser's [objects] Map is an insertion-ordered association list
      (its values are read back in insertion order), the engine's
      [flowGraph] Map, which is only read by key, is a [gmap], and a
      JavaScript [Set] is a [gset].
    - An [async] function is a resumable task: it runs up to its next timer
      and hands the rest of its body over as a continuation, which is fed
      the engine state found when the timer fires. *)

From Stdlib Require Import Ascii String QArith Qminmax Lqa.
From stdpp Require Import gmap strings list fin_maps pretty.

Local Open Scope string_scope.
Local Open Scope list_scope.
Local Open Scope nat_scope.

(** ** Characters and strings *)

Module Js.

Definition code (a : ascii) : nat := nat_of_ascii a.

(** [\s]: tab, line feed, vertical tab, form feed, carriage return, space
    and the no-break space (the members of the class below 256). *)
Definition is_space (a : ascii) : bool :=
  let n := code a in
  ((9 <=? n) && (n <=? 13)) || (n =? 32) || (n =? 160).

(** [\w]: ASCII letters, digits and the underscore. *)
Definition is_word (a : ascii) : bool :=
  let n := code a in
  ((48 <=? n) && (n <=? 57)) || ((65 <=? n) && (n <=? 90))
  || ((97 <=? n) && (n <=? 122)) || (n =? 95).

(** [.]: anything but a line terminator. *)
Definition is_dot (a : ascii) : bool :=
  let n := code a in negb ((n =? 10) || (n =? 13)).

Fixpoint trimStart (s : string) : string :=
  match s with
  | String a s' => if is_space a then trimStart s' else s
  | EmptyString => EmptyString
  end.

(** [trimEnd] keeps a character when it is not white space or when
    something is kept after it. *)
Fixpoint trimEnd (s : string) : string :=
  match s with
  | String a s' =>
      match trimEnd s' with
      | EmptyString => if is_space a then EmptyString else String a EmptyString
      | t => String a t
      end
  | EmptyString => EmptyString
  end.

Definition trim (s : string) : string := trimEnd (trimStart s).

Definition startsWith (s : string) (p : string) : bool := String.prefix p s.

(** [s.split('\n')]: the pieces between line feeds, always at least one. *)
Fixpoint splitLines (s : string) : list string :=
  match s with
  | EmptyString => [EmptyString]
  | String a s' =>
      if (code a =? 10) then EmptyString :: splitLines s'
      else match splitLines s' with
           | l :: ls => String a l :: ls
           | [] => [String a EmptyString]
           end
  end.

(** The values the code stores where a string is expected: a string,
    [undefined] (a group that took no part in a match, a missing
    argument) or [null] (the endpoints of a command marker). *)
Inductive value : Type :=
| undefined
| null
| str (s : string).

#[global] Instance value_eq_dec : EqDecision value.
Proof. solve_decision. Defined.

Definition value_enc (v : value) : option (option string) :=
  match v with
  | undefined => None
  | null => Some None
  | str s => Some (Some s)
  end.

Definition value_dec (o : option (option string)) : value :=
  match o with
  | None => undefined
  | Some None => null
  | Some (Some s) => str s
  end.

#[global] Instance value_countable : Countable value.
Proof. apply (inj_countable' value_enc value_dec). by intros []. Defined.

(** [a && ...] and [a || ...] test this: a non-empty string. *)
Definition truthy (v : value) : bool :=
  match v with
  | str (String _ _) => true
  | _ => false
  end.

(** [a || b] *)
Definition or (a b : value) : value := if truthy a then a else b.

(** [(a || '')], a string whatever [a] is. *)
Definition or_empty (a : value) : string :=
  match a with
  | str s => s
  | _ => EmptyString
  end.

(** A default parameter [p = d]: [d] replaces [undefined] only. *)
Definition default_param (v : value) (d : string) : value :=
  match v with
  | undefined => str d
  | _ => v
  end.

(** [`${v}`] *)
Definition to_string (v : value) : string :=
  match v with
  | undefined => "undefined"
  | null => "null"
  | str s => s
  end.

(** The outcome of a call: a value, or a thrown [TypeError]. *)
Inductive completion (A : Type) : Type :=
| Normal (a : A)
| TypeError.
Arguments Normal {A} a.
Arguments TypeError {A}.

#[global] Instance completion_ret : MRet completion := @Normal.

#[global] Instance completion_bind : MBind completion :=
  λ A B f c,
    match c with
    | Normal a => f a
    | TypeError => TypeError
    end.

(** [v.length]; reading a property of [undefined] or [null] throws. *)
Definition get_length (v : value) : completion nat :=
  match v with
  | str s => Normal (String.length s)
  | _ => TypeError
  end.

End Js.

(** ** Regular expressions

    The fragment of the JavaScript pattern language the parser uses:
    literals, greedy [*], [+] and [?] over one character class,
    sequencing, ordered alternation, numbered capture groups, and the
    anchors [^] and [$].  Matching is the backtracking search of the
    language: alternatives are tried left to right, quantifiers take as
    much as they can and give back one character at a time, and
    [String.prototype.match] tries the start positions from the left. *)

Module Regex.

Inductive cls : Type :=
| CWord                (* \w *)
| CSpace               (* \s *)
| CNonSpace            (* \S *)
| CDot                 (* . *)
| CNot (a : ascii)     (* [^a] *)
| CChar (a : ascii).   (* a *)

Definition cls_match (c : cls) (a : ascii) : bool :=
  match c with
  | CWord => Js.is_word a
  | CSpace => Js.is_space a
  | CNonSpace => negb (Js.is_space a)
  | CDot => Js.is_dot a
  | CNot b => negb (Ascii.eqb a b)
  | CChar b => Ascii.eqb a b
  end.

Inductive re : Type :=
| Lit (s : string)
| Star (c : cls)
| Plus (c : cls)
| Opt (c : cls)
| Seq (r1 r2 : re)
| Alt (r1 r2 : re)
| Group (n : nat) (r : re)
| Bol
| Eol.

(** Captures: group number to captured text, latest binding first. *)
Definition captures : Type := list (nat * string).

Fixpoint cap (n : nat) (cs : captures) : option string :=
  match cs with
  | [] => None
  | (m, t) :: cs' => if m =? n then Some t else cap n cs'
  end.

Section Matcher.
Context {A : Type}.

Fixpoint lit (l s : string) (k : string → option A) : option A :=
  match l, s with
  | EmptyString, _ => k s
  | String a l', String b s' => if Ascii.eqb a b then lit l' s' k else None
  | String _ _, EmptyString => None
  end.

Fixpoint star (c : cls) (s : string) (k : string → option A) : option A :=
  match s with
  | String a s' =>
      if cls_match c a then
        match star c s' k with
        | Some r => Some r
        | None => k s
        end
      else k s
  | EmptyString => k s
  end.

Definition plus (c : cls) (s : string) (k : string → option A) : option A :=
  match s with
  | String a s' => if cls_match c a then star c s' k else None
  | EmptyString => None
  end.

Definition opt (c : cls) (s : string) (k : string → option A) : option A :=
  match s with
  | String a s' =>
      if cls_match c a then
        match k s' with
        | Some r => Some r
        | None => k s
        end
      else k s
  | EmptyString => k s
  end.
End Matcher.

(** The text between two positions of the line, each given by the rest
    of the line from there on. *)
Definition consumed (s s' : string) : string :=
  String.substring 0 (String.length s - String.length s') s.

(** [run total r s cs k]: match [r] at the position where [s] is what
    is left of a line of [total] characters, then go on with [k]. *)
Fixpoint run {A : Type} (total : nat) (r : re) (s : string) (cs : captures)
    (k : string → captures → option A) : option A :=
  match r with
  | Lit l => lit l s (λ s', k s' cs)
  | Star c => star c s (λ s', k s' cs)
  | Plus c => plus c s (λ s', k s' cs)
  | Opt c => opt c s (λ s', k s' cs)
  | Seq r1 r2 => run total r1 s cs (λ s1 cs1, run total r2 s1 cs1 k)
  | Alt r1 r2 =>
      match run total r1 s cs k with
      | Some x => Some x
      | None => run total r2 s cs k
      end
  | Group n r1 =>
      run total r1 s cs (λ s1 cs1, k s1 ((n, consumed s s1) :: cs1))
  | Bol => if String.length s =? total then k s cs else None
  | Eol => match s with EmptyString => k s cs | _ => None end
  end.

Fixpoint search (total : nat) (r : re) (s : string) : option captures :=
  match run total r s [] (λ _ cs, Some cs) with
  | Some cs => Some cs
  | None =>
      match s with
      | String _ s' => search total r s'
      | EmptyString => None
      end
  end.

(** [line.match(r)] for a pattern without the global flag: [None] is
    JavaScript's [null], otherwise the groups of the leftmost match. *)
Definition jsmatch (r : re) (line : string) : option captures :=
  search (String.length line) r line.

Fixpoint seq (rs : list re) : re :=
  match rs with
  | [] => Lit ""
  | [r] => r
  | r :: rs' => Seq r (seq rs')
  end.

Fixpoint alt (r : re) (rs : list re) : re :=
  match rs with
  | [] => r
  | r' :: rs' => Alt r (alt r' rs')
  end.

(** Whether every match of [r] takes at least one character. *)
Fixpoint consuming (r : re) : bool :=
  match r with
  | Lit (String _ _) => true
  | Plus _ => true
  | Seq r1 r2 => consuming r1 || consuming r2
  | Alt r1 r2 => consuming r1 && consuming r2
  | Group _ r1 => consuming r1
  | _ => false
  end.

(** What a match of [r] adds to the captures [cs]: each group on the
    way binds its number, to a text that is not empty when the group
    has to take a character. *)
Fixpoint binds (r : re) (cs cs' : captures) : Prop :=
  match r with
  | Seq r1 r2 => ∃ cs1, binds r1 cs cs1 ∧ binds r2 cs1 cs'
  | Alt r1 r2 => binds r1 cs cs' ∨ binds r2 cs cs'
  | Group n r1 =>
      ∃ cs1 t, binds r1 cs cs1 ∧ cs' = (n, t) :: cs1
               ∧ (consuming r1 = true → t ≠ "")
  | _ => cs' = cs
  end.

End Regex.

(** ** The parser ([plantuml-parser.js]) *)

Module Parser.
Import Js Regex.

(** [this.objectTypes], with the two kinds written as literals. *)
Inductive ObjectType : Type :=
| actor | entity | boundary | control | database | participant
| collections | queue.

#[global] Instance ObjectType_eq_dec : EqDecision ObjectType.
Proof. solve_decision. Defined.

Record UmlObject : Type := {
  id : value;
  name : value;
  type : ObjectType;
  x : Q;
  y : Q;
  width : Q;
  height : Q
}.

Inductive ConnectionType : Type :=
| solid | dashed | reverse_solid | reverse_dashed | double | reverse_double
| dotted | reverse_dotted | dotted_line | break | parallel
| circle_start | circle_end.

#[global] Instance ConnectionType_eq_dec : EqDecision ConnectionType.
Proof. solve_decision. Defined.

Record Style : Type := {
  strokeWidth : Q;
  strokeDasharray : string
}.

(** A message between two objects. *)
Record Message : Type := {
  m_id : string;
  from : value;
  to : value;
  label : string;
  arrowType : value;
  connectionType : ConnectionType;
  style : Style
}.

(** An [activate]/[deactivate] marker: [type] and [arrowType] are
    ['command'], [from] and [to] are [null]. *)
Record Marker : Type := {
  c_id : string;
  command : value;
  target : value;
  c_label : string;
  c_style : Style
}.

Inductive Connection : Type :=
| Msg (m : Message)
| Cmd (c : Marker).

Definition conn_id (c : Connection) : string :=
  match c with Msg m => m_id m | Cmd k => c_id k end.
Definition conn_from (c : Connection) : value :=
  match c with Msg m => from m | Cmd _ => null end.
Definition conn_to (c : Connection) : value :=
  match c with Msg m => to m | Cmd _ => null end.
Definition conn_label (c : Connection) : string :=
  match c with Msg m => label m | Cmd k => c_label k end.
Definition is_command (c : Connection) : bool :=
  match c with Msg _ => false | Cmd _ => true end.

(** The [objects] Map, in insertion order. *)
Definition ObjectMap : Type := list (value * UmlObject).

Fixpoint get (k : value) (m : ObjectMap) : option UmlObject :=
  match m with
  | [] => None
  | (k', o) :: m' => if decide (k' = k) then Some o else get k m'
  end.

Definition has (k : value) (m : ObjectMap) : bool :=
  match get k m with Some _ => true | None => false end.

(** [set] keeps the position of a key that is present and appends a
    new one. *)
Fixpoint set (k : value) (o : UmlObject) (m : ObjectMap) : ObjectMap :=
  match m with
  | [] => [(k, o)]
  | (k', o') :: m' =>
      if decide (k' = k) then (k', o) :: m' else (k', o') :: set k o m'
  end.

Definition values (m : ObjectMap) : list UmlObject := snd <$> m.

Record Parser : Type := {
  objects : ObjectMap;
  connections : list Connection
}.

Definition reset (p : Parser) : Parser :=
  {| objects := []; connections := [] |}.

(** [addObject(id, name, type)] *)
Definition addObject (id : value) (name : value) (type : ObjectType)
    (p : Parser) : completion Parser :=
  if has id (objects p) then Normal p
  else
    len ← get_length name;
    Normal {| objects :=
                set id {| id := id;
                          name := Js.or name id;
                          type := type;
                          x := 0;
                          y := 0;
                          width := Qmax (inject_Z (Z.of_nat (len * 8 + 40))) 120;
                          height := 60 |} (objects p);
              connections := connections p |}.

(** [getArrowStyle(arrowType, connectionType)] *)
Definition getArrowStyle (arrowType : value) (connectionType : ConnectionType)
  : Style :=
  let base := {| strokeWidth := 2; strokeDasharray := "none" |} in
  let arrow (t : string) := bool_decide (arrowType = str t) in
  let base :=
    if arrow "-->" || arrow "<--" then
      {| strokeWidth := strokeWidth base; strokeDasharray := "5,5" |}
    else if arrow "->>" || arrow "<<-" then
      {| strokeWidth := 3; strokeDasharray := strokeDasharray base |}
    else if arrow "..>" || arrow "<.." then
      {| strokeWidth := 15 # 10; strokeDasharray := "2,3" |}
    else if arrow "..." then
      {| strokeWidth := 1; strokeDasharray := "1,2" |}
    else if arrow "\\" then
      {| strokeWidth := 25 # 10; strokeDasharray := "10,5" |}
    else if arrow "||" then
      {| strokeWidth := 4; strokeDasharray := strokeDasharray base |}
    else base in
  match connectionType with
  | dashed =>
      {| strokeWidth := strokeWidth base; strokeDasharray := "5,5" |}
  | dotted =>
      {| strokeWidth := Qmax (strokeWidth base * (8 # 10)) 1;
         strokeDasharray := "2,3" |}
  | dotted_line =>
      {| strokeWidth := Qmax (strokeWidth base * (6 # 10)) 1;
         strokeDasharray := "1,2" |}
  | double =>
      {| strokeWidth := Qmax (strokeWidth base * (15 # 10)) 3;
         strokeDasharray := strokeDasharray base |}
  | break =>
      {| strokeWidth := Qmax (strokeWidth base * (12 # 10)) (25 # 10);
         strokeDasharray := "10,5" |}
  | parallel =>
      {| strokeWidth := Qmax (strokeWidth base * 2) 4;
         strokeDasharray := strokeDasharray base |}
  | _ => base
  end.

(** [addConnection(fromId, toId, label, arrowType, connectionType)];
    for [arrowType] the default ['->'] stands in for [undefined]. *)
Definition addConnection (fromId toId : value) (label : string)
    (arrow : value) (connectionType : ConnectionType) (p : Parser)
  : completion Parser :=
  let arrowType := default_param arrow "->" in
  p ← addObject fromId fromId participant p ;
  p ← addObject toId toId participant p ;
  Normal {| objects := objects p;
            connections :=
              connections p ++
              [Msg {| m_id := to_string fromId +:+ "-" +:+ to_string toId
                               +:+ "-" +:+ pretty (List.length (connections p));
                      from := fromId;
                      to := toId;
                      label := label;
                      arrowType := arrowType;
                      connectionType := connectionType;
                      style := getArrowStyle arrowType connectionType |}] |}.

(** *** Patterns *)

Definition quote : ascii := ascii_of_nat 34.

(** [(\w+|\S+)] as group [n] *)
Definition token (n : nat) : re := Group n (Alt (Plus CWord) (Plus CNonSpace)).

(** [/^kw\s+Q?([^Q]+)Q?\s+as\s+(\w+)|^kw\s+(\w+)/], where [Q] is the
    double quote character. *)
Definition declaration (kw : string) : re :=
  Alt (seq [Bol; Lit kw; Plus CSpace; Opt (CChar quote);
            Group 1 (Plus (CNot quote)); Opt (CChar quote);
            Plus CSpace; Lit "as"; Plus CSpace; Group 2 (Plus CWord)])
      (seq [Bol; Lit kw; Plus CSpace; Group 3 (Plus CWord)]).

Definition declarationPatterns : list (re * ObjectType) :=
  [ (declaration "actor", actor);
    (declaration "participant", participant);
    (declaration "entity", entity);
    (declaration "database", database);
    (declaration "boundary", boundary);
    (declaration "control", control);
    (declaration "collections", collections);
    (declaration "queue", queue) ].

(** [/(\w+|\S+)\s*(a)\s*(\w+|\S+)\s*:\s*(R)/], where [a] is the
    alternation of the arrows and [R] is the dot under a star. *)
Definition labelled (a : re) : re :=
  seq [token 1; Star CSpace; Group 2 a; Star CSpace; token 3;
       Star CSpace; Lit ":"; Star CSpace; Group 4 (Star CDot)].

(** [/(\w+|\S+)\s*(a)\s*(\w+|\S+)$/] *)
Definition unlabelled (a : re) : re :=
  seq [token 1; Star CSpace; Group 2 a; Star CSpace; token 3; Eol].

(** The four patterns of the first pass that pick objects out of
    connection and activation lines. *)
Definition referencePatterns : list re :=
  [ labelled (alt (Lit "->")
                [Lit "-->"; Lit "<-"; Lit "<--"; Lit "->>"; Lit "<<-";
                 Lit "..>"; Lit ".."; Lit "<.."; Lit "..."; Lit "<...";
                 Lit "\\"; Lit "|"; Lit "o|"; Lit "|"; Lit "o"]);
    unlabelled (alt (Lit "->")
                  [Lit "-->"; Lit "<-"; Lit "<--"; Lit "->>"; Lit "<<-"]);
    seq [Bol; Lit "activate"; Plus CSpace; Group 1 (Plus CWord)];
    seq [Bol; Lit "deactivate"; Plus CSpace; Group 1 (Plus CWord)] ].

(** [/^note\s+(left|right|over)\s+(\w+)\s*:\s*(R)|^note\s+(left|right)\s*:\s*(R)/] *)
Definition notePattern : re :=
  Alt (seq [Bol; Lit "note"; Plus CSpace;
            Group 1 (alt (Lit "left") [Lit "right"; Lit "over"]);
            Plus CSpace; Group 2 (Plus CWord); Star CSpace; Lit ":";
            Star CSpace; Group 3 (Star CDot)])
      (seq [Bol; Lit "note"; Plus CSpace;
            Group 4 (alt (Lit "left") [Lit "right"]);
            Star CSpace; Lit ":"; Star CSpace; Group 5 (Star CDot)]).

Record ConnectionPattern : Type := {
  regex : re;
  p_type : ConnectionType;
  reverse : bool;
  p_label : value
}.

Definition withLabel (a : string) (t : ConnectionType) (rev : bool)
  : ConnectionPattern :=
  {| regex := labelled (Lit a); p_type := t; reverse := rev;
     p_label := undefined |}.

Definition withoutLabel (a : string) (t : ConnectionType) (rev : bool)
  : ConnectionPattern :=
  {| regex := unlabelled (Lit a); p_type := t; reverse := rev;
     p_label := str "" |}.

Definition connectionPatterns : list ConnectionPattern :=
  [ withLabel "->" solid false;
    withLabel "-->" dashed false;
    withLabel "<-" reverse_solid true;
    withLabel "<--" reverse_dashed true;
    withLabel "->>" double false;
    withLabel "<<-" reverse_double true;
    withLabel "..>" dotted false;
    withLabel "<.." reverse_dotted true;
    withLabel "..." dotted_line false;
    withLabel "\\" break false;
    withLabel "||" parallel false;
    withLabel "o|" circle_start false;
    withLabel "|o" circle_end false;
    withoutLabel "->" solid false;
    withoutLabel "-->" dashed false;
    withoutLabel "<-" reverse_solid true;
    withoutLabel "<--" reverse_dashed true ].

(** [/^(activate|deactivate)\s+(\w+)/] *)
Definition activatePattern : re :=
  seq [Bol; Group 1 (Alt (Lit "activate") (Lit "deactivate"));
       Plus CSpace; Group 2 (Plus CWord)].

(** [match[n]] *)
Definition group (n : nat) (m : captures) : value :=
  match cap n m with
  | Some t => str t
  | None => undefined
  end.

(** *** The two passes *)

(** The loop over the declaration patterns; [None] when it falls
    through, otherwise the outcome of the [return]ing branch. *)
Fixpoint declarationLoop (ps : list (re * ObjectType)) (line : string)
    (p : Parser) : option (completion Parser) :=
  match ps with
  | [] => None
  | (r, t) :: ps' =>
      match jsmatch r line with
      | Some m =>
          let name := Js.or (group 1 m) (group 3 m) in
          let id := Js.or (group 2 m) (group 3 m) in
          Some (addObject id name t p)
      | None => declarationLoop ps' line p
      end
  end.

Fixpoint referenceLoop (ps : list re) (line : string) (p : Parser)
  : option (completion Parser) :=
  match ps with
  | [] => None
  | r :: ps' =>
      match jsmatch r line with
      | Some m =>
          if truthy (group 1 m) && truthy (group 3 m) then
            Some (p ← addObject (group 1 m) (group 1 m) participant p;
                  addObject (group 3 m) (group 3 m) participant p)
          else if truthy (group 1 m) && negb (truthy (group 3 m)) then
            Some (addObject (group 1 m) (group 1 m) participant p)
          else referenceLoop ps' line p
      | None => referenceLoop ps' line p
      end
  end.

(** [parseObjectDefinition(line)] *)
Definition parseObjectDefinition (line : string) (p : Parser)
  : completion Parser :=
  match declarationLoop declarationPatterns line p with
  | Some r => r
  | None =>
      match referenceLoop referencePatterns line p with
      | Some r => r
      | None =>
          match jsmatch notePattern line with
          | Some m =>
              if truthy (group 2 m)
              then addObject (group 2 m) (group 2 m) participant p
              else Normal p
          | None => Normal p
          end
      end
  end.

Fixpoint connectionLoop (ps : list ConnectionPattern) (line : string)
    (p : Parser) : option (completion Parser) :=
  match ps with
  | [] => None
  | pat :: ps' =>
      match jsmatch (regex pat) line with
      | Some m =>
          let fromId := group 1 m in
          let arrow := group 2 m in
          let toId := group 3 m in
          let label := group 4 m in
          let actualFrom := if reverse pat then toId else fromId in
          let actualTo := if reverse pat then fromId else toId in
          Some (addConnection actualFrom actualTo
                  (trim (or_empty (Js.or label (p_label pat))))
                  arrow (p_type pat) p)
      | None => connectionLoop ps' line p
      end
  end.

(** [parseConnection(line)] *)
Definition parseConnection (line : string) (p : Parser)
  : completion Parser :=
  match connectionLoop connectionPatterns line p with
  | Some r => r
  | None =>
      match jsmatch activatePattern line with
      | Some m =>
          Normal
            {| objects := objects p;
               connections :=
                 connections p ++
                 [Cmd {| c_id := "command-" +:+ pretty (List.length (connections p));
                         command := group 1 m;
                         target := group 2 m;
                         c_label := to_string (group 1 m) +:+ " "
                                    +:+ to_string (group 2 m);
                         c_style := {| strokeWidth := 1;
                                       strokeDasharray := "none" |} |}] |}
      | None => Normal p
      end
  end.

(** [lines.forEach(f)] with a callback that may throw. *)
Fixpoint forEach (f : string → Parser → completion Parser)
    (lines : list string) (p : Parser) : completion Parser :=
  match lines with
  | [] => Normal p
  | l :: ls => p ← f l p; forEach f ls p
  end.

Definition keep (line : string) : bool :=
  negb (bool_decide (line = "")) && negb (startsWith line "@")
  && negb (startsWith line "'").

Definition lines (text : string) : list string :=
  List.filter keep (trim <$> splitLines text).

Record DiagramModel : Type := {
  d_objects : list UmlObject;
  d_connections : list Connection
}.

(** [parse(plantumlText)]; the argument is a string, [null] or
    [undefined], and [split] is read off it after the reset. *)
Definition parse (plantumlText : value) (p : Parser)
  : completion DiagramModel :=
  let p := reset p in
  match plantumlText with
  | str text =>
      let ls := lines text in
      p ← forEach parseObjectDefinition ls p;
      p ← forEach parseConnection ls p;
      Normal {| d_objects := values (objects p);
                d_connections := connections p |}
  | _ => TypeError
  end.

Definition new : Parser := {| objects := []; connections := [] |}.

(** One step of a parse: a call of [addObject], or a line taken by
    one of the two passes. *)
Inductive step : Parser → Parser → Prop :=
| step_addObject id name type p p' :
    addObject id name type p = Normal p' → step p p'
| step_definition line p p' :
    parseObjectDefinition line p = Normal p' → step p p'
| step_connection line p p' :
    parseConnection line p = Normal p' → step p p'.

(** Each object is stored under its own id, and under no other key. *)
Definition keyed (m : ObjectMap) : Prop :=
  NoDup m.*1 ∧ Forall (λ kv, id kv.2 = kv.1) m.

(** What a later state owes an earlier one: the objects it had, as they
    were, and the keying. *)
Definition extends (p p' : Parser) : Prop :=
  (∀ k o, get k (objects p) = Some o → get k (objects p') = Some o)
  ∧ (keyed (objects p) → keyed (objects p')).

(** *** Layout *)

(** [Math.ceil(Math.sqrt(n))] *)
Definition ceil_sqrt (n : nat) : nat :=
  let r := Nat.sqrt n in if r * r =? n then r else S r.

(** [Math.ceil(n / d)] for a positive [d] *)
Definition ceil_div (n d : nat) : nat := (n + d - 1) / d.

Definition ofnat (n : nat) : Q := inject_Z (Z.of_nat n).

Definition padding : Q := 50.

(** The body of the [forEach] callback of [autoLayout]. *)
Definition place (canvasWidth canvasHeight cellWidth cellHeight : Q)
    (cols : nat) (index : nat) (obj : UmlObject) : UmlObject :=
  let col := index mod cols in
  let row := index / cols in
  let x0 := (padding + ofnat col * cellWidth + cellWidth / 2 - width obj / 2)%Q in
  let y0 := (padding + ofnat row * cellHeight + cellHeight / 2 - height obj / 2)%Q in
  {| id := id obj;
     name := name obj;
     type := type obj;
     x := Qmax padding (Qmin x0 (canvasWidth - width obj - padding));
     y := Qmax padding (Qmin y0 (canvasHeight - height obj - padding));
     width := width obj;
     height := height obj |}.

(** [autoLayout(objects, canvasWidth, canvasHeight)] *)
Definition autoLayout (objs : list UmlObject) (canvasWidth canvasHeight : Q)
  : list UmlObject :=
  let usableWidth := (canvasWidth - padding * 2)%Q in
  let usableHeight := (canvasHeight - padding * 2)%Q in
  if List.length objs =? 0 then objs
  else
    let cols := ceil_sqrt (List.length objs) in
    let rows := ceil_div (List.length objs) cols in
    let cellWidth := (usableWidth / ofnat cols)%Q in
    let cellHeight := (usableHeight / ofnat rows)%Q in
    imap (place canvasWidth canvasHeight cellWidth cellHeight cols) objs.

End Parser.

(** ** The canvas ([canvas-engine.js])

    The rendering surface as the engine sees it: which elements were
    rendered, which of them carry the [highlighted] and the [active]
    class, and the commands received so far.  The engine passes no other
    class name.  The inline styles a flowing effect writes to a line, and
    the timers that take them back, stay inside the canvas: the command
    is recorded. *)

Module Canvas.
Import Js.

Inductive Command : Type :=
| HighlightObject (id : value)
| HighlightConnection (id : string)
| RemoveConnectionHighlight (id : string)
| ClearAllHighlights
| FlowingEffect (id : string)
| ClearTransitions.

#[global] Instance Command_eq_dec : EqDecision Command.
Proof. solve_decision. Defined.

(** Elements are found by their [data-id] attribute, which holds the
    id as a string. *)
Record CanvasEngine : Type := {
  objectElements : gset string;
  connectionElements : gset string;
  highlighted : gset string;
  active : gset string;
  commands : list Command
}.

Definition blank : CanvasEngine :=
  {| objectElements := ∅; connectionElements := ∅; highlighted := ∅;
     active := ∅; commands := [] |}.

Definition record (c : Command) (cv : CanvasEngine) : list Command :=
  commands cv ++ [c].

(** [highlightObject(objectId, 'highlighted')] *)
Definition highlightObject (objectId : value) (cv : CanvasEngine)
  : CanvasEngine :=
  {| objectElements := objectElements cv;
     connectionElements := connectionElements cv;
     highlighted :=
       if decide (to_string objectId ∈ objectElements cv)
       then {[to_string objectId]} ∪ highlighted cv else highlighted cv;
     active := active cv;
     commands := record (HighlightObject objectId) cv |}.

(** [highlightConnection(connectionId, 'active')] *)
Definition highlightConnection (connectionId : string) (cv : CanvasEngine)
  : CanvasEngine :=
  {| objectElements := objectElements cv;
     connectionElements := connectionElements cv;
     highlighted := highlighted cv;
     active :=
       if decide (connectionId ∈ connectionElements cv)
       then {[connectionId]} ∪ active cv else active cv;
     commands := record (HighlightConnection connectionId) cv |}.

(** [removeConnectionHighlight(connectionId, 'active')] *)
Definition removeConnectionHighlight (connectionId : string)
    (cv : CanvasEngine) : CanvasEngine :=
  {| objectElements := objectElements cv;
     connectionElements := connectionElements cv;
     highlighted := highlighted cv;
     active := active cv ∖ {[connectionId]};
     commands := record (RemoveConnectionHighlight connectionId) cv |}.

(** [clearAllHighlights()] *)
Definition clearAllHighlights (cv : CanvasEngine) : CanvasEngine :=
  {| objectElements := objectElements cv;
     connectionElements := connectionElements cv;
     highlighted := ∅;
     active := ∅;
     commands := record ClearAllHighlights cv |}.

(** What the engine does to the lines of the canvas when it starts a
    flowing effect and when it stops. *)
Definition flowingEffect (connectionId : string) (cv : CanvasEngine)
  : CanvasEngine :=
  {| objectElements := objectElements cv;
     connectionElements := connectionElements cv;
     highlighted := highlighted cv;
     active := active cv;
     commands :=
       if decide (connectionId ∈ connectionElements cv)
       then record (FlowingEffect connectionId) cv else commands cv |}.

Definition clearTransitions (cv : CanvasEngine) : CanvasEngine :=
  {| objectElements := objectElements cv;
     connectionElements := connectionElements cv;
     highlighted := highlighted cv;
     active := active cv;
     commands := record ClearTransitions cv |}.

(** [render(diagramData)], as far as the elements go: the old ones are
    removed, and there is a new one per object and one per connection
    whose two ends are objects. *)
Definition render (d : Parser.DiagramModel) (cv : CanvasEngine)
  : CanvasEngine :=
  let ids : gset value := list_to_set (Parser.id <$> Parser.d_objects d) in
  {| objectElements :=
       list_to_set (to_string <$> (Parser.id <$> Parser.d_objects d));
     connectionElements :=
       list_to_set
         (Parser.conn_id <$>
            List.filter
              (λ c, bool_decide (Parser.conn_from c ∈ ids)
                    && bool_decide (Parser.conn_to c ∈ ids))
              (Parser.d_connections d));
     highlighted := ∅;
     active := ∅;
     commands := commands cv |}.

End Canvas.

(** ** The animation system ([animation-system.js]) *)

Module Animation.
Import Js Canvas.

(** An entry of an adjacency list of the flow graph. *)
Record Edge : Type := {
  to : value;
  connectionId : string;
  label : string
}.

Record AnimationSystem : Type := {
  canvas : CanvasEngine;
  animationQueue : list value;
  isAnimating : bool;
  animationSpeed : Q;
  connections : list Parser.Connection;
  flowGraph : gmap value (list Edge)
}.

(** [new AnimationSystem(canvasEngine)] *)
Definition new (cv : CanvasEngine) : AnimationSystem :=
  {| canvas := cv; animationQueue := []; isAnimating := false;
     animationSpeed := 1; connections := []; flowGraph := ∅ |}.

Definition with_canvas (cv : CanvasEngine) (a : AnimationSystem)
  : AnimationSystem :=
  {| canvas := cv; animationQueue := animationQueue a;
     isAnimating := isAnimating a; animationSpeed := animationSpeed a;
     connections := connections a; flowGraph := flowGraph a |}.

Definition with_isAnimating (b : bool) (a : AnimationSystem)
  : AnimationSystem :=
  {| canvas := canvas a; animationQueue := animationQueue a;
     isAnimating := b; animationSpeed := animationSpeed a;
     connections := connections a; flowGraph := flowGraph a |}.

(** [this.flowGraph.get(id) || []] *)
Definition adj (g : gmap value (list Edge)) (id : value) : list Edge :=
  default [] (g !! id).

(** The body of the [forEach] callback of [buildFlowGraph]. *)
Definition addEdge (g : gmap value (list Edge)) (conn : Parser.Connection)
  : gmap value (list Edge) :=
  let from := Parser.conn_from conn in
  let g := if decide (is_Some (g !! from)) then g else <[from := []]> g in
  <[from := adj g from ++ [{| to := Parser.conn_to conn;
                              connectionId := Parser.conn_id conn;
                              label := Parser.conn_label conn |}]]> g.

(** [buildFlowGraph()] *)
Definition buildFlowGraph (a : AnimationSystem) : AnimationSystem :=
  {| canvas := canvas a; animationQueue := animationQueue a;
     isAnimating := isAnimating a; animationSpeed := animationSpeed a;
     connections := connections a;
     flowGraph := fold_left addEdge (connections a) ∅ |}.

(** [initialize(connections)] *)
Definition initialize (conns : list Parser.Connection) (a : AnimationSystem)
  : AnimationSystem :=
  buildFlowGraph
    {| canvas := canvas a; animationQueue := animationQueue a;
       isAnimating := isAnimating a; animationSpeed := animationSpeed a;
       connections := conns; flowGraph := flowGraph a |}.

(** [setSpeed(speed)] *)
Definition setSpeed (speed : Q) (a : AnimationSystem) : AnimationSystem :=
  {| canvas := canvas a; animationQueue := animationQueue a;
     isAnimating := isAnimating a;
     animationSpeed := Qmax (1 # 10) (Qmin 5 speed);
     connections := connections a; flowGraph := flowGraph a |}.

(** [stopAnimation()] *)
Definition stopAnimation (a : AnimationSystem) : AnimationSystem :=
  {| canvas := clearTransitions (clearAllHighlights (canvas a));
     animationQueue := [];
     isAnimating := false;
     animationSpeed := animationSpeed a;
     connections := connections a;
     flowGraph := flowGraph a |}.

(** Sum of the lengths of the adjacency lists. *)
Definition edgeCount (g : gmap value (list Edge)) : nat :=
  map_fold (λ _ (es : list Edge) n, length es + n) 0 g.

(** Every id the graph mentions, as a key or as a target. *)
Definition nodes (g : gmap value (list Edge)) : gset value :=
  list_to_set (map_to_list g ≫= λ kv, kv.1 :: (to <$> kv.2)).

(** A connection leads from [u] to [v]. *)
Definition arc (g : gmap value (list Edge)) (u v : value) : Prop :=
  ∃ e, e ∈ adj g u ∧ to e = v.

(** Every two neighbours of the list are joined by a connection. *)
Fixpoint walk (g : gmap value (list Edge)) (p : list value) : Prop :=
  match p with
  | u :: p' =>
      match p' with
      | v :: _ => arc g u v ∧ walk g p'
      | [] => True
      end
  | [] => True
  end.

(** What a traversal from [roots] makes of the shared set and list of
    [previewPath]: the roots are now visited, what was added is listed
    once, in the order of the visits, and can be reached from a root,
    and every connection of an added id leads to a visited id. *)
Definition grown (g : gmap value (list Edge)) (roots : list value)
    (st st' : gset value * list value) : Prop :=
  st.1 ⊆ st'.1
  ∧ (∀ r, r ∈ roots → r ∈ st'.1)
  ∧ (∀ u w, u ∈ st'.1 → u ∉ st.1 → arc g u w → w ∈ st'.1)
  ∧ ∃ added, st'.2 = st.2 ++ added
             ∧ NoDup added
             ∧ (∀ v, v ∈ added ↔ v ∈ st'.1 ∧ v ∉ st.1)
             ∧ (∀ v, v ∈ added → ∃ r, r ∈ roots ∧ rtc (arc g) r v).

(** The ids passed when, from [x] on, the connections with the given
    numbers in their adjacency lists are taken one after the other. *)
Fixpoint follow (g : gmap value (list Edge)) (x : value) (ns : list nat)
  : option (list value) :=
  match ns with
  | [] => Some [x]
  | n :: ns' =>
      match adj g x !! n with
      | Some e => (x ::.) <$> follow g (to e) ns'
      | None => None
      end
  end.

(** Lists of connection numbers of one length, compared from the left;
    all lists, the shorter first.  A path found earlier by a search
    that takes the adjacency lists in order has the smaller list. *)
Fixpoint lexlt (I J : list nat) : Prop :=
  match I, J with
  | i :: I', j :: J' => i < j ∨ (i = j ∧ lexlt I' J')
  | _, _ => False
  end.

Definition slt (I J : list nat) : Prop :=
  length I < length J ∨ (length I = length J ∧ lexlt I J).

Definition sle (I J : list nat) : Prop := slt I J ∨ I = J.

(** Each of the lists comes before all that follow it. *)
Fixpoint ascending (l : list (list nat)) : Prop :=
  match l with
  | [] => True
  | K :: l' => Forall (slt K) l' ∧ ascending l'
  end.

(** A queue entry and the numbers of its walk from [x]. *)
Definition entry_of (g : gmap value (list Edge)) (x : value)
    (e : value * list value) (K : list nat) : Prop :=
  follow g x K = Some e.2 ∧ last e.2 = Some e.1.

(** The state of the search for [y] from [x]: [V] is the visited set,
    [Q] the queue, [id] the id taken off the queue last and [i] the
    number of its connections looked at so far.  [Qc] numbers the walks
    of the queue and [T] those by which the visited ids were reached. *)
Record searching (g : gmap value (list Edge)) (x y : value)
    (V : gset value) (Q : list (value * list value))
    (T : value → list nat) (Qc : list (list nat))
    (id : value) (i : nat) : Prop := {
  s_queue : Forall2 (entry_of g x) Q Qc;
  s_ascending : ascending Qc;
  s_tree :
    ∀ v, v ∈ V →
      (∃ p, follow g x (T v) = Some p ∧ last p = Some v)
      ∧ (∀ J q, follow g x J = Some q → last q = Some v → sle (T v) J)
      ∧ Forall (slt (T v)) Qc;
  s_children :
    ∀ u j e, u ∈ V → adj g u !! j = Some e → (u = id → j < i) →
      to e ≠ y ∧ (to e ∈ V ∨ T u ++ [j] ∈ Qc);
  s_origin :
    ∀ K, K ∈ Qc →
      K = [] ∨ ∃ u j, u ∈ V ∧ K = T u ++ [j] ∧ (u = id → j < i);
  s_root : x ∈ V ∨ [] ∈ Qc;
  s_target : (y ∉ V) ∧ Forall (λ e, e.1 ≠ y) Q;
  s_current : ∀ u, u ∈ V → u ≠ id → id ∈ V → slt (T u) (T id)
}.

(** The connections of the ids outside [V] together. *)
Definition unvisited (g : gmap value (list Edge)) (V : gset value) : nat :=
  map_fold (λ k (es : list Edge) n, if decide (k ∈ V) then n else length es + n)
    0 g.

(** *** Asynchronous functions

    A task is what is left of an [async] call: nothing, or a timer and
    the code to run when it fires.  The third case marks a run that
    used up the recursion depth it was given. *)
#[warnings="-register-all"]
Inductive Task : Type :=
| Finished
| Timer (ms : Q) (k : AnimationSystem → AnimationSystem * Task)
| OutOfFuel.

Definition Cont : Type := AnimationSystem → AnimationSystem * Task.

(** [await this.delay(ms)] followed by [k] *)
Definition delay (ms : Q) (k : Cont) : Cont := λ a, (a, Timer ms k).

(** [await this.animateConnection(connectionId)] followed by [k] *)
Definition animateConnection (connectionId : string) (k : Cont) : Cont :=
  λ a,
    if negb (isAnimating a) then k a
    else
      let a := with_canvas (highlightConnection connectionId (canvas a)) a in
      let a := with_canvas (flowingEffect connectionId (canvas a)) a in
      delay (600 / animationSpeed a) (λ a,
        delay (100 / animationSpeed a) (λ a,
          let a := if isAnimating a
                   then with_canvas
                          (removeConnectionHighlight connectionId (canvas a)) a
                   else a in
          k a) a) a.

(** The [for] loop of [animateFlow] over [outgoingConnections], of
    which [n] is the length and [cs] what is left; [flow] is the
    recursive call and [k] what follows the loop. *)
Fixpoint branches (flow : value → gset value → Cont → Cont) (n : nat)
    (visitedObjects : gset value) (k : Cont) (cs : list Edge)
    (a : AnimationSystem) : AnimationSystem * Task :=
  match cs with
  | [] => k a
  | connection :: cs' =>
      if negb (isAnimating a) then k a
      else
        animateConnection (connectionId connection) (λ a,
          if negb (isAnimating a) then k a
          else
            flow (to connection) visitedObjects (λ a,
              if 1 <? n
              then delay (200 / animationSpeed a)
                     (branches flow n visitedObjects k cs') a
              else branches flow n visitedObjects k cs' a) a) a
  end.

(** [await this.animateFlow(objectId, visitedObjects)] followed by [k].
    The set is the caller's fresh copy, so adding to it is local to
    this call; [fuel] bounds the depth of the recursion. *)
Fixpoint animateFlow (fuel : nat) (objectId : value)
    (visitedObjects : gset value) (k : Cont) (a : AnimationSystem)
    {struct fuel} : AnimationSystem * Task :=
  match fuel with
  | 0 => (a, OutOfFuel)
  | S fuel' =>
      if negb (isAnimating a) || bool_decide (objectId ∈ visitedObjects)
      then k a
      else
        let visitedObjects := {[objectId]} ∪ visitedObjects in
        let a := with_canvas (highlightObject objectId (canvas a)) a in
        delay (300 / animationSpeed a) (λ a,
          if negb (isAnimating a) then k a
          else
            let outgoingConnections := adj (flowGraph a) objectId in
            if length outgoingConnections =? 0
            then delay (500 / animationSpeed a) k a
            else branches (animateFlow fuel') (length outgoingConnections)
                   visitedObjects k outgoingConnections a) a
  end.

(** A depth no path of the graph reaches: a path holds each id once. *)
Definition depth (g : gmap value (list Edge)) : nat := size (nodes g) + 2.

(** [startFlowAnimation(startObjectId)]; the canvas and the timers
    throw nothing here, so [finally] is what follows the walk. *)
Definition startFlowAnimation (startObjectId : value) (a : AnimationSystem)
  : AnimationSystem * Task :=
  let a := if isAnimating a then stopAnimation a else a in
  let a := with_isAnimating true a in
  let a := with_canvas (clearAllHighlights (canvas a)) a in
  animateFlow (depth (flowGraph a)) startObjectId ∅
    (λ a, (with_isAnimating false a, Finished)) a.

(** *** Path finding *)

Inductive Found : Type :=
| Path (p : list value)
| NoPath
| Exhausted.

(** The [for] loop of [findPath] over the connections of the node
    taken off the queue: [inl] is the [return] inside the loop. *)
Fixpoint scan (toId : value) (visited : gset value) (path : list value)
    (conns : list Edge) (queue : list (value * list value))
  : list value + list (value * list value) :=
  match conns with
  | [] => inr queue
  | conn :: conns' =>
      if decide (to conn = toId) then inl (path ++ [toId])
      else
        scan toId visited path conns'
          (if decide (to conn ∈ visited) then queue
           else queue ++ [(to conn, path ++ [to conn])])
  end.

(** The [while] loop of [findPath]; [fuel] bounds its iterations. *)
Fixpoint search (fuel : nat) (g : gmap value (list Edge)) (toId : value)
    (visited : gset value) (queue : list (value * list value)) : Found :=
  match fuel with
  | 0 => Exhausted
  | S fuel' =>
      match queue with
      | [] => NoPath
      | (id, path) :: queue' =>
          if decide (id ∈ visited) then search fuel' g toId visited queue'
          else
            let visited := {[id]} ∪ visited in
            match scan toId visited path (adj g id) queue' with
            | inl p => Path p
            | inr queue'' => search fuel' g toId visited queue''
            end
      end
  end.

(** [findPath(fromId, toId)]: every iteration takes an entry off the
    queue and every connection puts at most one on it. *)
Definition findPath (a : AnimationSystem) (fromId toId : value) : Found :=
  if decide (fromId = toId) then Path [fromId]
  else search (edgeCount (flowGraph a) + 2) (flowGraph a) toId ∅
         [(fromId, [fromId])].

(** *** Preview *)

(** [connections.forEach(conn => traverse(conn.to))] on the shared
    [visited] and [path]. *)
Fixpoint forEach (f : value → gset value * list value
                      → option (gset value * list value))
    (cs : list Edge) (st : gset value * list value)
  : option (gset value * list value) :=
  match cs with
  | [] => Some st
  | conn :: cs' =>
      match f (to conn) st with
      | Some st' => forEach f cs' st'
      | None => None
      end
  end.

(** [traverse(id)] of [previewPath]; [None] when [fuel], the depth
    allowed, is used up. *)
Fixpoint traverse (fuel : nat) (g : gmap value (list Edge)) (id : value)
    (st : gset value * list value) : option (gset value * list value) :=
  match fuel with
  | 0 => None
  | S fuel' =>
      if decide (id ∈ st.1) then Some st
      else forEach (traverse fuel' g) (adj g id) ({[id]} ∪ st.1, st.2 ++ [id])
  end.

(** [previewPath(objectId)] *)
Definition previewPath (a : AnimationSystem) (objectId : value)
  : option (list value) :=
  snd <$> traverse (depth (flowGraph a)) (flowGraph a) objectId (∅, []).

(** The entry [buildFlowGraph] makes for a connection. *)
Definition edgeOf (conn : Parser.Connection) : Edge :=
  {| to := Parser.conn_to conn;
     connectionId := Parser.conn_id conn;
     label := Parser.conn_label conn |}.

(** *** All flows *)

(** [set.add(x)] on a [Set] kept in insertion order. *)
Definition add (x : value) (s : list value) : list value :=
  if decide (x ∈ s) then s else s ++ [x].

(** The two sets [animateAllFlows] collects from the connections. *)
Definition allObjectIds (conns : list Parser.Connection) : list value :=
  fold_left (λ s c, add (Parser.conn_to c) (add (Parser.conn_from c) s)) conns [].

Definition objectsWithIncoming (conns : list Parser.Connection) : list value :=
  fold_left (λ s c, add (Parser.conn_to c) s) conns [].

(** [startingPoints] of [animateAllFlows]: the ids without an incoming
    connection, or else the first id there is. *)
Definition startingPoints (conns : list Parser.Connection) : list value :=
  let ids := allObjectIds conns in
  let incoming := objectsWithIncoming conns in
  let points := List.filter (λ id, negb (bool_decide (id ∈ incoming))) ids in
  if (length points =? 0) && (0 <? length ids)
  then match ids with
       | first :: _ => points ++ [first]
       | [] => points
       end
  else points.



(** *** Highlighting a path *)




(** *** Statistics *)

Record Stats : Type := {
  stat_isAnimating : bool;
  speed : Q;
  queueLength : nat;
  connectionCount : nat;
  nodeCount : nat
}.

(** [getStats()] *)
Definition getStats (a : AnimationSystem) : Stats :=
  {| stat_isAnimating := isAnimating a;
     speed := animationSpeed a;
     queueLength := length (animationQueue a);
     connectionCount := length (connections a);
     nodeCount := size (flowGraph a) |}.

End Animation.

(** ** The event loop

    Timers fire one at a time, the earliest first and, among timers due
    at the same time, the one set first.  What a timer runs goes on
    until it sets the next timer or ends; calls from outside (a click)
    come in between. *)

Module EventLoop.
Import Animation.

Record Loop : Type := {
  system : AnimationSystem;
  now : Q;
  timers : list (Q * Cont)
}.

(** Store the state a piece of code left behind and set the timer it
    asked for. *)
Definition settle (r : AnimationSystem * Task) (l : Loop) : Loop :=
  match r with
  | (a, Timer ms k) =>
      {| system := a; now := now l; timers := timers l ++ [(now l + ms, k)%Q] |}
  | (a, _) => {| system := a; now := now l; timers := timers l |}
  end.

(** A call from outside at the current time. *)
Definition call (f : Cont) (l : Loop) : Loop := settle (f (system l)) l.

(** Let the clock reach [t]. *)
Definition at_time (t : Q) (l : Loop) : Loop :=
  {| system := system l; now := Qmax (now l) t; timers := timers l |}.

(** Take the timer that fires next out of the list. *)
Fixpoint next (ts : list (Q * Cont)) : option ((Q * Cont) * list (Q * Cont)) :=
  match ts with
  | [] => None
  | t :: ts' =>
      match next ts' with
      | None => Some (t, [])
      | Some (m, rest) =>
          if Qle_bool (fst t) (fst m) then Some (t, ts') else Some (m, t :: rest)
      end
  end.

(** Fire the next timer, if there is one. *)
Definition fire (l : Loop) : Loop :=
  match next (timers l) with
  | None => l
  | Some ((due, k), rest) =>
      settle (k (system l))
        {| system := system l; now := Qmax (now l) due; timers := rest |}
  end.

(** The tasks that are still to resume. *)
Definition pending (l : Loop) : nat := length (timers l).

End EventLoop.

(** ** Running the pieces together *)

Module Scenario.
Import Js Parser Canvas Animation EventLoop.

Definition nl : string := String (ascii_of_nat 10) "".

(** The lines of a text, joined by line feeds. *)
Fixpoint text (ls : list string) : string :=
  match ls with
  | [] => ""
  | [l] => l
  | l :: ls' => l +:+ nl +:+ text ls'
  end.

(** [generateDiagram] of [main.js], as far as the animator goes: an
    empty input or a model without objects leaves everything as it is;
    otherwise the objects are laid out, the canvas renders the model and
    the animator is initialized with all the connections of the model. *)
Definition generateDiagram (input : string) (a : AnimationSystem)
  : completion AnimationSystem :=
  let input := trim input in
  if bool_decide (input = "") then Normal a
  else
    d ← parse (str input) Parser.new;
    if length (d_objects d) =? 0 then Normal a
    else
      let d := {| d_objects := autoLayout (d_objects d) 800 600;
                  d_connections := d_connections d |} in
      Normal (initialize (d_connections d)
                (with_canvas (render d (canvas a)) a)).

(** The application after its start and one [generateDiagram]. *)
Definition boot (input : string) : AnimationSystem :=
  match generateDiagram input (Animation.new blank) with
  | Normal a => a
  | TypeError => Animation.new blank
  end.

(** A task alone on the event loop: fire its timer [n] times. *)
Fixpoint drive (n : nat) (r : AnimationSystem * Task)
  : AnimationSystem * Task :=
  match n, r with
  | S n', (a, Timer _ k) => drive n' (k a)
  | _, _ => r
  end.

(** The objects a canvas was asked to highlight, in order. *)
Definition visits (cs : list Command) : list value :=
  omap (λ c, match c with HighlightObject id => Some id | _ => None end) cs.

Definition idle (a : AnimationSystem) : Loop :=
  {| system := a; now := 0; timers := [] |}.


(** The objects of a text, as [parse] gives them. *)
Definition objectsOf (t : string) : list UmlObject :=
  match parse (str t) Parser.new with
  | Normal d => d_objects d
  | TypeError => []
  end.

(** [r] comes to [r'] when [n] timers have fired. *)
Definition goes (r : AnimationSystem * Task) (n : nat)
    (r' : AnimationSystem * Task) : Prop :=
  ∀ m, drive (n + m) r = drive m r'.

(** From [a] to [a'] the canvas received [evs], and the graph, the
    running flag and the speed were left alone. *)
Definition ran (a a' : AnimationSystem) (evs : list Command) : Prop :=
  flowGraph a' = flowGraph a
  ∧ isAnimating a' = isAnimating a
  ∧ animationSpeed a' = animationSpeed a
  ∧ commands (canvas a') = commands (canvas a) ++ evs.

(** What a call [flow id V k] does on a running engine whose graph is
    [g] when no one interferes, given that [V] leaves fewer than [n]
    of the ids of [U] unvisited: it comes to [k] after finitely many
    timers; the objects it highlighted on the way were not in [V] and
    can be reached from [id]; [id] itself, if it was not in [V], was
    highlighted first and never again; and if it was in [V], nothing
    was done. *)
Definition flows (g : gmap value (list Edge)) (U : gset value)
    (flow : value → gset value → Cont → Cont) (n : nat) : Prop :=
  ∀ id V k a,
    flowGraph a = g → isAnimating a = true → id ∈ U → size (U ∖ V) < n →
    ∃ steps a' evs,
      goes (flow id V k a) steps (k a')
      ∧ ran a a' evs
      ∧ (∀ v, v ∈ visits evs → (v ∉ V) ∧ rtc (arc g) id v)
      ∧ (id ∉ V → ∃ rest, visits evs = id :: rest ∧ id ∉ rest)
      ∧ (id ∈ V → evs = []).

(** The box of an object lies within a canvas of the given size. *)
Definition inside (canvasWidth canvasHeight : Q) (o : UmlObject) : Prop :=
  (0 <= x o ∧ x o + width o <= canvasWidth
   ∧ 0 <= y o ∧ y o + height o <= canvasHeight)%Q.

End Scenario.

(** ** The application *)

Module App.
Import Js Parser Canvas Animation Scenario.

(** [adjustAnimationSpeed(delta)] of [main.js], as far as the animator
    goes; [currentSpeed] is the value the slider shows, and the first
    component of the result the value it is given. *)
Definition adjustAnimationSpeed (delta currentSpeed : Q) (a : AnimationSystem)
  : Q * AnimationSystem :=
  let newSpeed := Qmax (5 # 10) (Qmin 3 (currentSpeed + delta)) in
  (newSpeed, setSpeed newSpeed a).

End App.

(** ** What a parse leaves behind *)

Module Invariant.
Import Js Regex Parser Canvas Animation EventLoop Scenario.

(** An object as [addObject] makes it of an id and a name that are
    strings of at least one character: at the origin, 60 high, and as
    wide as its name asks, 120 at least. *)
Definition boxed (o : UmlObject) : Prop :=
  ∃ i n, id o = str i ∧ i ≠ "" ∧ name o = str n ∧ n ≠ ""
         ∧ x o = 0%Q ∧ y o = 0%Q
         ∧ width o = Qmax (ofnat (String.length n * 8 + 40)) 120
         ∧ height o = 60%Q.

(** The participant that [addObject] makes of a name that is also
    its id. *)
Definition participantOf (n : string) : UmlObject :=
  {| id := str n; name := str n; type := participant;
     x := 0; y := 0;
     width := Qmax (ofnat (String.length n * 8 + 40)) 120;
     height := 60 |}.

(** The id that [addConnection] or [parseConnection] gives the
    connection it stores at place [i]. *)
Definition idAt (i : nat) (c : Connection) : string :=
  match c with
  | Msg m => to_string (from m) +:+ "-" +:+ to_string (Parser.to m)
             +:+ "-" +:+ pretty i
  | Cmd _ => "command-" +:+ pretty i
  end.

(** A parser state in which the objects are boxed and stored under
    their ids, both ends of every message are stored objects, and every
    connection carries the id of its place. *)
Definition sound (p : Parser) : Prop :=
  Forall (λ kv, boxed kv.2 ∧ id kv.2 = kv.1) (objects p)
  ∧ (∀ m, Msg m ∈ Parser.connections p →
          has (from m) (objects p) = true
          ∧ has (Parser.to m) (objects p) = true)
  ∧ (∀ i c, Parser.connections p !! i = Some c → conn_id c = idAt i c).

(** Whether a character occurs in a string. *)
Fixpoint occurs (a : ascii) (s : string) : bool :=
  match s with
  | EmptyString => false
  | String b s' => Ascii.eqb a b || occurs a s'
  end.

Definition dash : ascii := ascii_of_nat 45.

(** The string an object type is in the source, which is also the
    keyword that declares an object of the type. *)
Definition keyword (t : ObjectType) : string :=
  match t with
  | actor => "actor"
  | entity => "entity"
  | boundary => "boundary"
  | control => "control"
  | database => "database"
  | participant => "participant"
  | collections => "collections"
  | queue => "queue"
  end.
Definition colon : ascii := ascii_of_nat 58.
Definition lf : ascii := ascii_of_nat 10.
Definition greater : ascii := ascii_of_nat 62.

(** Whether every character of a string is of a class. *)
Fixpoint all_of (c : cls) (s : string) : bool :=
  match s with
  | EmptyString => true
  | String a s' => cls_match c a && all_of c s'
  end.

(** Whether a greedy run of a class ends where a string begins. *)
Definition stops (c : cls) (s : string) : bool :=
  match s with
  | EmptyString => true
  | String a _ => negb (cls_match c a)
  end.

(** Whether every match of [r] takes a text in which the character [c]
    occurs. *)
Fixpoint needs (c : ascii) (r : re) : bool :=
  match r with
  | Lit l => occurs c l
  | Seq r1 r2 => needs c r1 || needs c r2
  | Alt r1 r2 => needs c r1 && needs c r2
  | Group _ r1 => needs c r1
  | _ => false
  end.



(** A continuation that, resumed on an engine whose running flag is
    down, comes to its end after finitely many timers and leaves the
    engine as it found it. *)
Definition quiet (k : Cont) : Prop :=
  ∀ b, isAnimating b = false → ∃ n, goes (k b) n (b, Finished).

(** Every timer a task ever waits on resumes a quiet continuation. *)
Definition calm (r : AnimationSystem * Task) : Prop :=
  ∀ j a ms k, drive j r = (a, Timer ms k) → quiet k.

(** A continuation that is quiet and is calm wherever it is resumed. *)
Definition steady (k : Cont) : Prop := quiet k ∧ ∀ a, calm (k a).




End Invariant.

(** * Properties *)

Import Js Regex Parser Canvas Animation EventLoop Scenario.

(** ** The flow graph *)

Section FlowGraph.
Implicit Types (g : gmap value (list Edge)) (k : value) (es : list Edge).

Lemma edgeCount_empty : edgeCount ∅ = 0.
Proof. unfold edgeCount. by rewrite map_fold_empty. Qed.

Lemma edgeCount_insert_fresh g k es :
  g !! k = None → edgeCount (<[k := es]> g) = length es + edgeCount g.
Proof.
  intros Hk. unfold edgeCount. rewrite map_fold_insert_L; [done | | done].
  intros. lia.
Qed.

Lemma edgeCount_delete g k es :
  g !! k = Some es → edgeCount g = length es + edgeCount (delete k g).
Proof.
  intros Hk. unfold edgeCount.
  rewrite (map_fold_delete_L _ _ k es g); [done | | done].
  intros. lia.
Qed.

Lemma edgeCount_insert g k es :
  edgeCount (<[k := es]> g) + length (adj g k) = length es + edgeCount g.
Proof.
  unfold adj. destruct (g !! k) as [es'|] eqn:Hk; simpl.
  - rewrite <- insert_delete_eq.
    rewrite edgeCount_insert_fresh by apply lookup_delete_eq.
    rewrite (edgeCount_delete g k es') by done. lia.
  - rewrite edgeCount_insert_fresh by done. lia.
Qed.

Lemma edgeCount_addEdge g conn : edgeCount (addEdge g conn) = S (edgeCount g).
Proof.
  unfold addEdge. set (from := conn_from conn).
  destruct (decide (is_Some (g !! from))) as [Hs|Hn].
  - pose proof (edgeCount_insert g from
      (adj g from ++ [{| to := conn_to conn; connectionId := conn_id conn;
                         label := conn_label conn |}])) as H.
    rewrite length_app in H. simpl in H. lia.
  - assert (g !! from = None) as Hk.
    { destruct (g !! from) eqn:E; [|done]. exfalso. apply Hn. eauto. }
    pose proof (edgeCount_insert (<[from := []]> g) from
      (adj (<[from := []]> g) from
         ++ [{| to := conn_to conn; connectionId := conn_id conn;
                label := conn_label conn |}])) as H.
    rewrite length_app in H. simpl in H.
    rewrite (edgeCount_insert_fresh g from []) in H by done. simpl in H. lia.
Qed.

Lemma edgeCount_fold conns g :
  edgeCount (fold_left addEdge conns g) = edgeCount g + length conns.
Proof.
  revert g. induction conns as [|c conns IH]; intros g; simpl; [lia|].
  rewrite IH, edgeCount_addEdge. lia.
Qed.

(** The graph has one entry per stored connection, command markers
    included. *)
Lemma edgeCount_initialize conns a :
  edgeCount (flowGraph (initialize conns a)) = length conns.
Proof.
  unfold initialize, buildFlowGraph. simpl.
  rewrite edgeCount_fold, edgeCount_empty. lia.
Qed.

End FlowGraph.

(** C3. The flow graph is built from every stored connection: its
    adjacency lists hold as many entries as there are connections,
    command markers among them.  On the one-line diagram [activate A]
    there is no message, yet the marker makes an entry under the key
    [null], so the sum of the lengths is 1 and the number of
    connections that are not commands is 0. *)
Theorem flow_graph_counts_command_markers :
  (∀ conns a, edgeCount (flowGraph (initialize conns a)) = length conns)
  ∧ (let a := boot "activate A" in
     length (List.filter (λ c, negb (is_command c)) (connections a)) = 0
     ∧ edgeCount (flowGraph a) = 1
     ∧ to <$> adj (flowGraph a) null = [null]).
Proof.
  split; [apply edgeCount_initialize|].
  vm_compute. done.
Qed.

(** C10. Stopping leaves the flow graph, the stored connections and the
    speed as they were, and so does the start of the run that follows,
    which walks the same graph at the same speed. *)
Theorem stopAnimation_frame (a : AnimationSystem) :
  flowGraph (stopAnimation a) = flowGraph a
  ∧ connections (stopAnimation a) = connections a
  ∧ animationSpeed (stopAnimation a) = animationSpeed a
  ∧ isAnimating (stopAnimation a) = false
  ∧ animationQueue (stopAnimation a) = []
  ∧ objectElements (canvas (stopAnimation a)) = objectElements (canvas a)
  ∧ connectionElements (canvas (stopAnimation a)) = connectionElements (canvas a)
  ∧ ∀ id, let a' := (startFlowAnimation id (stopAnimation a)).1 in
          flowGraph a' = flowGraph a
          ∧ connections a' = connections a
          ∧ animationSpeed a' = animationSpeed a.
Proof.
  repeat split; try reflexivity.
  all: unfold startFlowAnimation, depth; simpl.
  all: rewrite Nat.add_comm; simpl.
  all: reflexivity.
Qed.

(** ** Parsing a dashed arrow *)

(** C2. On the two lines [A -> B: hi] and [B --> A: ok] the second line
    is taken by the first pattern of the connection pass, the one for
    the plain arrow: the pattern is not anchored, its first group settles
    for the first dash of the dashed arrow and the plain arrow is found
    in what is left of it.  The model ends with three objects, the third
    named by a dash, and the second connection goes from that object to
    [A] as a solid one. *)
Theorem dashed_arrow_is_read_as_solid :
  jsmatch (regex (withLabel "->" solid false)) "B --> A: ok"
    = Some [(4, "ok"); (3, "A"); (2, "->"); (1, "-")]
  ∧ parse (str (text ["A -> B: hi"; "B --> A: ok"])) Parser.new
    = Normal
        {| d_objects :=
             [ {| id := str "A"; name := str "A"; type := participant;
                  x := 0; y := 0; width := 120; height := 60 |};
               {| id := str "B"; name := str "B"; type := participant;
                  x := 0; y := 0; width := 120; height := 60 |};
               {| id := str "-"; name := str "-"; type := participant;
                  x := 0; y := 0; width := 120; height := 60 |} ];
           d_connections :=
             [ Msg {| m_id := "A-B-0"; from := str "A"; Parser.to := str "B";
                      Parser.label := "hi"; arrowType := str "->";
                      connectionType := solid;
                      style := {| strokeWidth := 2;
                                  strokeDasharray := "none" |} |};
               Msg {| m_id := "--A-1"; from := str "-"; Parser.to := str "A";
                      Parser.label := "ok"; arrowType := str "->";
                      connectionType := solid;
                      style := {| strokeWidth := 2;
                                  strokeDasharray := "none" |} |} ] |}.
Proof. split; vm_compute; reflexivity. Qed.

(** ** Two runs at once *)

(** C4. On the diagram [A -> B: x], [C -> D: y] a run is started at [A],
    and 100 ms later, before its first timer is due, a run is started at
    [C].  The second start stops, clears, and raises the running flag
    again at once; when the first run resumes at 300 ms it finds the
    flag raised and goes on: it highlights its connection, later [B],
    and both runs stay on the event loop side by side. *)
Theorem second_start_leaves_first_run_alive :
  let l1 := call (startFlowAnimation (str "A"))
              (idle (boot (text ["A -> B: x"; "C -> D: y"]))) in
  let l2 := call (startFlowAnimation (str "C")) (at_time 100 l1) in
  let l3 := fire l2 in
  (pending l1 = 1
   ∧ commands (canvas (system l1)) = [ClearAllHighlights; HighlightObject (str "A")])
  ∧ (pending l2 = 2
     ∧ isAnimating (system l2) = true
     ∧ fst <$> timers l2 = [300%Q; 400%Q]
     ∧ elements (highlighted (canvas (system l2))) = ["C"]
     ∧ commands (canvas (system l2))
       = [ClearAllHighlights; HighlightObject (str "A");
          ClearAllHighlights; ClearTransitions; ClearAllHighlights;
          HighlightObject (str "C")])
  ∧ (pending l3 = 2
     ∧ now l3 = 300%Q
     ∧ elements (active (canvas (system l3))) = ["A-B-0"]
     ∧ commands (canvas (system l3))
       = commands (canvas (system l2))
         ++ [HighlightConnection "A-B-0"; FlowingEffect "A-B-0"])
  ∧ visits (commands (canvas (system (Nat.iter 12 fire l3))))
    = [str "A"; str "C"; str "B"; str "D"].
Proof. vm_compute. repeat split; reflexivity. Qed.

(** ** Layout *)

Section Layout.



Lemma clamp_lower (lo v hi : Q) : (lo <= Qmax lo (Qmin v hi))%Q.
Proof. apply Q.le_max_l. Qed.

Lemma clamp_upper (lo v hi : Q) :
  (lo <= hi)%Q → (Qmax lo (Qmin v hi) <= hi)%Q.
Proof. intros H. apply Q.max_lub; [done | apply Q.le_min_r]. Qed.


End Layout.




(** ** What a match captures *)

Section Captures.
Context {A : Type}.
Implicit Types (s l : string) (k : string → option A) (x : A).

Lemma lit_inv l s k x :
  lit l s k = Some x →
  ∃ s', k s' = Some x ∧ String.length s = String.length l + String.length s'.
Proof.
  revert s. induction l as [|a l IH]; intros s H; simpl in H.
  - exists s. by destruct s.
  - destruct s as [|b s]; [done|].
    destruct (Ascii.eqb a b); [|done].
    destruct (IH _ H) as (s' & Hk & Hlen). exists s'. simpl. split; [done|lia].
Qed.

Lemma star_inv c s k x :
  star c s k = Some x →
  ∃ s', k s' = Some x ∧ String.length s' ≤ String.length s.
Proof.
  induction s as [|a s IH]; simpl; intros H.
  - exists "". by split.
  - destruct (cls_match c a); [|by exists (String a s)].
    destruct (star c s k) as [y|] eqn:E.
    + injection H as ->. destruct (IH eq_refl) as (s' & Hk & Hlen).
      exists s'. split; [done|]. simpl. lia.
    + by exists (String a s).
Qed.

Lemma plus_inv c s k x :
  plus c s k = Some x →
  ∃ s', k s' = Some x ∧ String.length s' < String.length s.
Proof.
  destruct s as [|a s]; simpl; [done|].
  destruct (cls_match c a); [|done]. intros H.
  destruct (star_inv _ _ _ _ H) as (s' & Hk & Hlen).
  exists s'. split; [done|]. simpl. lia.
Qed.

Lemma opt_inv c s k x :
  opt c s k = Some x →
  ∃ s', k s' = Some x ∧ String.length s' ≤ String.length s.
Proof.
  destruct s as [|a s]; simpl; intros H.
  - by exists "".
  - destruct (cls_match c a); [|by exists (String a s)].
    destruct (k s) as [y|] eqn:E.
    + injection H as ->. exists s. split; [done|]. simpl. lia.
    + by exists (String a s).
Qed.

End Captures.

Lemma consumed_nonempty (s s' : string) :
  String.length s' < String.length s → consumed s s' ≠ "".
Proof.
  unfold consumed. intros H.
  destruct (String.length s - String.length s') as [|n] eqn:E; [lia|].
  destruct s as [|a s]; simpl in *; [lia|done].
Qed.

Lemma run_inv {A : Type} (total : nat) (r : re) :
  ∀ (s : string) (cs : captures) (k : string → captures → option A) (x : A),
    run total r s cs k = Some x →
    ∃ s' cs', k s' cs' = Some x
              ∧ String.length s' ≤ String.length s
              ∧ (consuming r = true → String.length s' < String.length s)
              ∧ binds r cs cs'.
Proof.
  induction r as [l|c|c|c|r1 IH1 r2 IH2|r1 IH1 r2 IH2|n r1 IH1| |];
    intros s cs k x H; simpl in H.
  - destruct (lit_inv _ _ _ _ H) as (s' & Hk & Hlen).
    exists s', cs. repeat split; [done|lia|].
    destruct l; simpl in *; [done|lia].
  - destruct (star_inv _ _ _ _ H) as (s' & Hk & Hlen).
    exists s', cs. by repeat split.
  - destruct (plus_inv _ _ _ _ H) as (s' & Hk & Hlen).
    exists s', cs. repeat split; [done|lia|done].
  - destruct (opt_inv _ _ _ _ H) as (s' & Hk & Hlen).
    exists s', cs. by repeat split.
  - destruct (IH1 _ _ _ _ H) as (s1 & cs1 & H1 & Hle1 & Hlt1 & Hb1).
    destruct (IH2 _ _ _ _ H1) as (s2 & cs2 & H2 & Hle2 & Hlt2 & Hb2).
    exists s2, cs2. split; [done|]. split; [lia|]. split.
    + simpl. intros [?|?]%orb_true_iff; [specialize (Hlt1 H0)|specialize (Hlt2 H0)]; lia.
    + simpl. eauto.
  - destruct (run total r1 s cs k) as [y|] eqn:E.
    + injection H as ->.
      destruct (IH1 _ _ _ _ E) as (s1 & cs1 & H1 & Hle1 & Hlt1 & Hb1).
      exists s1, cs1. split; [done|]. split; [done|]. split.
      * simpl. intros [? _]%andb_true_iff. auto.
      * simpl. by left.
    + destruct (IH2 _ _ _ _ H) as (s2 & cs2 & H2 & Hle2 & Hlt2 & Hb2).
      exists s2, cs2. split; [done|]. split; [done|]. split.
      * simpl. intros [_ ?]%andb_true_iff. auto.
      * simpl. by right.
  - destruct (IH1 _ _ _ _ H) as (s1 & cs1 & H1 & Hle1 & Hlt1 & Hb1).
    exists s1, ((n, consumed s s1) :: cs1).
    split; [done|]. split; [done|]. split; [done|].
    simpl. exists cs1, (consumed s s1). split; [done|]. split; [done|].
    intros Hc. apply consumed_nonempty. auto.
  - destruct (String.length s =? total); [|done].
    exists s, cs. by repeat split.
  - destruct s; [|done]. exists "", cs. by repeat split.
Qed.

Lemma search_inv (total : nat) (r : re) (s : string) (m : captures) :
  Regex.search total r s = Some m →
  ∃ s0, run total r s0 [] (λ _ cs, Some cs) = Some m.
Proof.
  induction s as [|a s IH]; simpl.
  - destruct (run total r "" [] (λ _ cs, Some cs)) as [y|] eqn:E; [|done].
    intros [= <-]. eauto.
  - destruct (run total r (String a s) [] (λ _ cs, Some cs)) as [y|] eqn:E.
    + intros [= <-]. eauto.
    + apply IH.
Qed.

(** The groups of a successful [match] are those of one way through the
    pattern. *)
Lemma jsmatch_binds (r : re) (line : string) (m : captures) :
  jsmatch r line = Some m → binds r [] m.
Proof.
  intros H. apply search_inv in H as (s0 & H).
  apply run_inv in H as (s' & cs' & [= ->] & _ & _ & Hb). done.
Qed.

Lemma truthy_str (v : value) : truthy v = true → ∃ t, v = str t.
Proof. destruct v as [| |t]; simpl; try done. eauto. Qed.

(** Take a [binds] fact apart into its groups. *)
Ltac open_binds :=
  repeat match goal with
    | H : ∃ _, _ |- _ => destruct H
    | H : _ ∧ _ |- _ => destruct H
    | H : _ ∨ _ |- _ => destruct H
    | H : @eq captures _ _ |- _ => progress subst
    end.

(** A declaration that matches names its object. *)
Lemma declaration_name (kw line : string) (m : captures) :
  jsmatch (declaration kw) line = Some m →
  ∃ t, Js.or (group 1 m) (group 3 m) = str t.
Proof.
  intros H. apply jsmatch_binds in H. unfold declaration in H.
  cbn [seq binds consuming] in H. open_binds.
  - match goal with
    | H : true = true → ?t ≠ "" |- context [(1, ?t)] =>
        exists t; destruct t; [by destruct H|done]
    end.
  - eexists. unfold group, Js.or; simpl. done.
Qed.

(** A connection pattern that matches has both of its ends. *)
Lemma labelled_ends (a line : string) (m : captures) :
  jsmatch (labelled (Lit a)) line = Some m →
  ∃ t1 t3, group 1 m = str t1 ∧ group 3 m = str t3.
Proof.
  intros H. apply jsmatch_binds in H. unfold labelled, token in H.
  cbn [seq binds] in H. open_binds; by eexists _, _.
Qed.

Lemma unlabelled_ends (a line : string) (m : captures) :
  jsmatch (unlabelled (Lit a)) line = Some m →
  ∃ t1 t3, group 1 m = str t1 ∧ group 3 m = str t3.
Proof.
  intros H. apply jsmatch_binds in H. unfold unlabelled, token in H.
  cbn [seq binds] in H. open_binds; by eexists _, _.
Qed.

(** ** The parser does not throw *)

Section Total.
Implicit Types (p : Parser) (line : string).

Lemma addObject_named id t type p : ∃ p', addObject id (str t) type p = Normal p'.
Proof. unfold addObject. destruct (has id (objects p)); simpl; eauto. Qed.

Lemma addConnection_ends t1 t3 lbl arrow ctype p :
  ∃ p', addConnection (str t1) (str t3) lbl arrow ctype p = Normal p'.
Proof.
  unfold addConnection.
  destruct (addObject_named (str t1) t1 participant p) as (p1 & ->). simpl.
  destruct (addObject_named (str t3) t3 participant p1) as (p2 & ->). simpl.
  eauto.
Qed.

Lemma declarationLoop_total ps line p r :
  Forall (λ pt, ∃ kw, pt.1 = declaration kw) ps →
  declarationLoop ps line p = Some r → ∃ p', r = Normal p'.
Proof.
  induction 1 as [|[re ty] ps (kw & Hkw) _ IH]; simpl; [done|].
  simpl in Hkw. subst re.
  destruct (jsmatch (declaration kw) line) as [m|] eqn:E; [|done].
  intros [= <-]. destruct (declaration_name _ _ _ E) as (t & ->).
  apply addObject_named.
Qed.

Lemma referenceLoop_total ps line p r :
  referenceLoop ps line p = Some r → ∃ p', r = Normal p'.
Proof.
  induction ps as [|re ps IH]; simpl; [done|].
  destruct (jsmatch re line) as [m|]; [|done].
  destruct (truthy (group 1 m)) eqn:E1; simpl; [|done].
  apply truthy_str in E1 as (t1 & ->).
  destruct (truthy (group 3 m)) eqn:E3; simpl; intros [= <-].
  - apply truthy_str in E3 as (t3 & ->).
    destruct (addObject_named (str t1) t1 participant p) as (p1 & ->). simpl.
    apply addObject_named.
  - apply addObject_named.
Qed.

Lemma parseObjectDefinition_total line p :
  ∃ p', parseObjectDefinition line p = Normal p'.
Proof.
  unfold parseObjectDefinition.
  destruct (declarationLoop declarationPatterns line p) as [r|] eqn:E1.
  { eapply declarationLoop_total; [|done].
    unfold declarationPatterns. repeat constructor; simpl; eauto. }
  destruct (referenceLoop referencePatterns line p) as [r|] eqn:E2.
  { by eapply referenceLoop_total. }
  destruct (jsmatch notePattern line) as [m|]; [|eauto].
  destruct (truthy (group 2 m)) eqn:E; [|eauto].
  apply truthy_str in E as (t & ->). apply addObject_named.
Qed.

Lemma connectionLoop_total ps line p r :
  Forall (λ pat, ∃ a, regex pat = labelled (Lit a)
                      ∨ regex pat = unlabelled (Lit a)) ps →
  connectionLoop ps line p = Some r → ∃ p', r = Normal p'.
Proof.
  induction 1 as [|pat ps (a & Hpat) _ IH]; simpl; [done|].
  destruct (jsmatch (regex pat) line) as [m|] eqn:E; [|done].
  intros [= <-].
  assert (∃ t1 t3, group 1 m = str t1 ∧ group 3 m = str t3)
    as (t1 & t3 & -> & ->).
  { destruct Hpat as [Hp|Hp]; rewrite Hp in E;
      eauto using labelled_ends, unlabelled_ends. }
  destruct (reverse pat); apply addConnection_ends.
Qed.

Lemma parseConnection_total line p : ∃ p', parseConnection line p = Normal p'.
Proof.
  unfold parseConnection.
  destruct (connectionLoop connectionPatterns line p) as [r|] eqn:E.
  { eapply connectionLoop_total; [|done].
    unfold connectionPatterns. repeat constructor; simpl; eauto. }
  destruct (jsmatch activatePattern line); eauto.
Qed.

Lemma forEach_total (f : string → Parser → completion Parser) ls p :
  (∀ line q, ∃ q', f line q = Normal q') →
  ∃ p', Parser.forEach f ls p = Normal p'.
Proof.
  intros Hf. revert p. induction ls as [|l ls IH]; intros p; simpl; [eauto|].
  destruct (Hf l p) as (q & ->). simpl. apply IH.
Qed.

Lemma parse_total text p : ∃ d, parse (str text) p = Normal d.
Proof.
  unfold parse.
  destruct (forEach_total parseObjectDefinition (lines text) (reset p)
              parseObjectDefinition_total) as (p1 & ->). simpl.
  destruct (forEach_total parseConnection (lines text) p1
              parseConnection_total) as (p2 & ->). simpl.
  eauto.
Qed.

End Total.

(** C7. [parse] throws exactly when its argument is [null] or
    [undefined].  On every string it returns a model: every [name] whose
    length [addObject] reads is a string, because a pattern that matched
    captured it.  A text none of whose lines is recognized gives the
    empty model, which is a result like any other. *)
Theorem parse_throws_only_without_text :
  (∀ (v : value) (p : Parser),
     parse v p = TypeError ↔ v = null ∨ v = undefined)
  ∧ (∀ (text : string) (p : Parser), ∃ d, parse (str text) p = Normal d)
  ∧ parse (str (Scenario.text ["hello world"; "a = b + c"; "loop 3 times"; "note"]))
      Parser.new
    = Normal {| d_objects := []; d_connections := [] |}
  ∧ parse (str "") Parser.new = Normal {| d_objects := []; d_connections := [] |}.
Proof.
  split; [|split; [apply parse_total|split; vm_compute; reflexivity]].
  intros v p. split.
  - destruct v as [| |t]; [auto..|].
    destruct (parse_total t p) as (d & ->). done.
  - by intros [-> | ->].
Qed.

(** ** The first object under an id stays *)

Section FirstWins.
Implicit Types (p : Parser) (m : ObjectMap) (k : value) (o : UmlObject).

Lemma get_None m k : get k m = None ↔ k ∉ m.*1.
Proof.
  induction m as [|[k' o'] m IH]; simpl.
  - split; [intros _; apply not_elem_of_nil | done].
  - destruct (decide (k' = k)) as [->|Hne].
    + split; [done|]. intros []. apply list_elem_of_here.
    + rewrite IH, not_elem_of_cons.
      split; [intros ?; split; [congruence|done] | by intros [_ ?]].
Qed.

Lemma get_Some_elem m k o : get k m = Some o → (k, o) ∈ m.
Proof.
  induction m as [|[k' o'] m IH]; simpl; [done|].
  destruct (decide (k' = k)) as [->|Hne].
  - intros [= ->]. apply list_elem_of_here.
  - intros H. apply list_elem_of_further. auto.
Qed.

Lemma set_fresh m k o : get k m = None → Parser.set k o m = m ++ [(k, o)].
Proof.
  induction m as [|[k' o'] m IH]; simpl; [done|].
  destruct (decide (k' = k)); [done|]. intros H. by rewrite IH.
Qed.

Lemma get_app_l m m' k o : get k m = Some o → get k (m ++ m') = Some o.
Proof.
  induction m as [|[k' o'] m IH]; simpl; [done|].
  destruct (decide (k' = k)); auto.
Qed.

Lemma extends_refl p : extends p p.
Proof. by split. Qed.

Lemma extends_trans p1 p2 p3 : extends p1 p2 → extends p2 p3 → extends p1 p3.
Proof. intros [H1 K1] [H2 K2]. split; auto. Qed.

Lemma addObject_extends id name type p p' :
  addObject id name type p = Normal p' → extends p p'.
Proof.
  unfold addObject, has.
  destruct (get id (objects p)) as [o0|] eqn:E.
  { intros [= <-]. apply extends_refl. }
  destruct (get_length name) as [len|]; simpl; [|done].
  intros [= <-]. unfold extends. cbn [objects].
  rewrite set_fresh by done. split.
  - intros k o. apply get_app_l.
  - intros [Hnd Hid]. split.
    + rewrite fmap_app. simpl. apply NoDup_app. split; [done|].
      split; [|apply NoDup_singleton].
      intros k Hk ->%list_elem_of_singleton. by apply get_None in E.
    + apply Forall_app. split; [done|]. by repeat constructor.
Qed.

Lemma same_objects_extends p p' : objects p' = objects p → extends p p'.
Proof. intros H. unfold extends. rewrite H. by split. Qed.

Lemma declarationLoop_extends ps line p p' :
  declarationLoop ps line p = Some (Normal p') → extends p p'.
Proof.
  induction ps as [|[re ty] ps IH]; simpl; [done|].
  destruct (jsmatch re line); [|done].
  intros [= H]. by eapply addObject_extends.
Qed.

Lemma referenceLoop_extends ps line p p' :
  referenceLoop ps line p = Some (Normal p') → extends p p'.
Proof.
  induction ps as [|re ps IH]; simpl; [done|].
  destruct (jsmatch re line) as [m|]; [|done].
  destruct (truthy (group 1 m) && truthy (group 3 m)).
  { intros [= H].
    destruct (addObject (group 1 m) (group 1 m) participant p) as [p1|] eqn:E1;
      simpl in H; [|done].
    eapply extends_trans; by eapply addObject_extends. }
  destruct (truthy (group 1 m) && negb (truthy (group 3 m))); [|done].
  intros [= H]. by eapply addObject_extends.
Qed.

Lemma parseObjectDefinition_extends line p p' :
  parseObjectDefinition line p = Normal p' → extends p p'.
Proof.
  unfold parseObjectDefinition.
  destruct (declarationLoop declarationPatterns line p) as [r|] eqn:E1.
  { intros ->. by eapply declarationLoop_extends. }
  destruct (referenceLoop referencePatterns line p) as [r|] eqn:E2.
  { intros ->. by eapply referenceLoop_extends. }
  destruct (jsmatch notePattern line) as [m|].
  - destruct (truthy (group 2 m)).
    + apply addObject_extends.
    + intros [= <-]. apply extends_refl.
  - intros [= <-]. apply extends_refl.
Qed.

Lemma addConnection_extends fromId toId lbl arrow ctype p p' :
  addConnection fromId toId lbl arrow ctype p = Normal p' → extends p p'.
Proof.
  unfold addConnection.
  destruct (addObject fromId fromId participant p) as [p1|] eqn:E1;
    simpl; [|done].
  destruct (addObject toId toId participant p1) as [p2|] eqn:E2;
    simpl; [|done].
  intros [= <-].
  eapply extends_trans; [by eapply addObject_extends|].
  eapply extends_trans; [by eapply addObject_extends|].
  by apply same_objects_extends.
Qed.

Lemma connectionLoop_extends ps line p p' :
  connectionLoop ps line p = Some (Normal p') → extends p p'.
Proof.
  induction ps as [|pat ps IH]; simpl; [done|].
  destruct (jsmatch (regex pat) line); [|done].
  intros [= H]. by eapply addConnection_extends.
Qed.

Lemma parseConnection_extends line p p' :
  parseConnection line p = Normal p' → extends p p'.
Proof.
  unfold parseConnection.
  destruct (connectionLoop connectionPatterns line p) as [r|] eqn:E.
  { intros ->. by eapply connectionLoop_extends. }
  destruct (jsmatch activatePattern line);
    intros [= <-]; by apply same_objects_extends.
Qed.

Lemma step_extends p p' : step p p' → extends p p'.
Proof.
  destruct 1; eauto using addObject_extends, parseObjectDefinition_extends,
    parseConnection_extends.
Qed.

Lemma steps_extend p p' : rtc step p p' → extends p p'.
Proof.
  induction 1 as [|p1 p2 p3 H _ IH]; [apply extends_refl|].
  eapply extends_trans; [by apply step_extends|done].
Qed.

Lemma keyed_new : keyed (objects Parser.new).
Proof. split; simpl; constructor. Qed.

Lemma keyed_ids m : keyed m → id <$> values m = m.*1.
Proof.
  intros [_ Hid]. unfold values.
  induction m as [|[k o] m IH]; [done|].
  apply Forall_cons in Hid as [Hk Hid]. rewrite !fmap_cons.
  simpl in Hk. cbn [fst snd]. rewrite Hk. f_equal. by apply IH.
Qed.

(** The lines of a pass are steps, and so a parse is a run of steps
    from the empty parser. *)
Lemma forEach_steps (f : string → Parser → completion Parser) ls p p' :
  (∀ line q q', f line q = Normal q' → step q q') →
  Parser.forEach f ls p = Normal p' → rtc step p p'.
Proof.
  intros Hf. revert p. induction ls as [|l ls IH]; intros p; simpl.
  - intros [= <-]. apply rtc_refl.
  - destruct (f l p) as [q|] eqn:E; simpl; [|done].
    intros H. eapply rtc_l; eauto.
Qed.

Lemma parse_by_steps text p d :
  parse (str text) p = Normal d →
  ∃ p1 p2, Parser.forEach parseObjectDefinition (lines text) Parser.new = Normal p1
           ∧ rtc step Parser.new p1 ∧ rtc step p1 p2
           ∧ d_objects d = values (objects p2)
           ∧ d_connections d = Parser.connections p2.
Proof.
  unfold parse, reset. fold Parser.new.
  destruct (Parser.forEach parseObjectDefinition (lines text) Parser.new)
    as [p1|] eqn:E1; simpl; [|done].
  destruct (Parser.forEach parseConnection (lines text) p1)
    as [p2|] eqn:E2; simpl; [|done].
  intros [= <-]. exists p1, p2. simpl.
  split; [done|].
  split; [eapply forEach_steps; [|done]; apply step_definition|].
  split; [eapply forEach_steps; [|done]; apply step_connection|].
  done.
Qed.

End FirstWins.

(** C6. Take any state [p] that a parse reaches from the empty parser
    and any state [p'] it reaches later, by calls of [addObject] and by
    lines of the first and of the second pass.  An object stored in [p]
    under an id is stored in [p'] under the same id and is the same
    record, so its kind, its name and its size are those of the first
    declaration or reference; it carries the id it is stored under; and
    no two objects of [p'] have the same id. *)
Theorem first_write_wins (p p' : Parser) (k : value) (o : UmlObject) :
  rtc step Parser.new p →
  rtc step p p' →
  get k (objects p) = Some o →
  get k (objects p') = Some o
  ∧ id o = k
  ∧ NoDup (id <$> values (objects p')).
Proof.
  intros H0 H1 Hk.
  destruct (steps_extend _ _ H0) as [_ K0].
  destruct (steps_extend _ _ H1) as [G1 K1].
  specialize (K0 keyed_new). specialize (K1 K0).
  split; [by apply G1|]. split.
  - apply get_Some_elem in Hk. destruct K0 as [_ Hid].
    rewrite Forall_forall in Hid. by apply (Hid (k, o)).
  - rewrite keyed_ids by done. apply K1.
Qed.

Lemma first_write_wins_witness :
  let p := {| objects :=
                [(str "A", {| id := str "A"; name := str "A"; type := actor;
                              x := 0; y := 0; width := 120; height := 60 |})];
              Parser.connections := [] |} in
  let p' := {| objects :=
                 [(str "A", {| id := str "A"; name := str "A"; type := actor;
                               x := 0; y := 0; width := 120; height := 60 |});
                  (str "B", {| id := str "B"; name := str "B";
                               type := participant;
                               x := 0; y := 0; width := 120; height := 60 |})];
               Parser.connections := [] |} in
  rtc step Parser.new p
  ∧ rtc step p p'
  ∧ type <$> get (str "A") (objects p') = Some actor.
Proof.
  intros p p'.
  assert (rtc step Parser.new p) as H0.
  { eapply rtc_l; [|apply rtc_refl].
    apply (step_definition "actor A"). vm_compute. reflexivity. }
  assert (rtc step p p') as H1.
  { eapply rtc_l; [apply (step_definition "participant A")|].
    { vm_compute. reflexivity. }
    eapply rtc_l; [apply (step_addObject (str "A") (str "Alice") database)|].
    { vm_compute. reflexivity. }
    eapply rtc_l; [|apply rtc_refl].
    apply (step_definition "B <- A: x"). vm_compute. reflexivity. }
  split; [exact H0|]. split; [exact H1|].
  destruct (first_write_wins p p' (str "A")
              {| id := str "A"; name := str "A"; type := actor;
                 x := 0; y := 0; width := 120; height := 60 |} H0 H1 eq_refl)
    as (-> & _). reflexivity.
Defined.

(** ** Walking the flow graph *)

Section Graph.
Variable g : gmap value (list Edge).
Implicit Types (id u v w : value) (V : gset value) (e : Edge).

Lemma adj_nodes e id : e ∈ adj g id → to e ∈ nodes g.
Proof.
  unfold adj. destruct (g !! id) as [es|] eqn:E; simpl.
  - intros He. unfold nodes. apply elem_of_list_to_set, list_elem_of_bind.
    exists (id, es). split; [|by apply elem_of_map_to_list].
    simpl. apply list_elem_of_further. by apply list_elem_of_fmap_2.
  - by intros ?%elem_of_nil.
Qed.

Lemma arc_nodes u v : arc g u v → v ∈ nodes g.
Proof. intros (e & He & <-). by eapply adj_nodes. Qed.

(** Room left for a walk that has been through [V], inside [U]. *)
Lemma room_shrinks (U V : gset value) id :
  id ∈ U → id ∉ V → size (U ∖ ({[id]} ∪ V)) < size (U ∖ V).
Proof. intros. apply subset_size. set_solver. Qed.

Lemma room_mono (U V V' : gset value) : V ⊆ V' → size (U ∖ V') ≤ size (U ∖ V).
Proof. intros. apply subseteq_size. set_solver. Qed.

Lemma depth_room id : size (({[id]} ∪ nodes g) ∖ (∅ : gset value)) < depth g.
Proof.
  unfold depth. rewrite difference_empty_L, size_union_alt, size_singleton.
  pose proof (subseteq_size (nodes g ∖ {[id]}) (nodes g)) as H.
  lapply H; [lia | set_solver].
Qed.

End Graph.

(** ** Preview *)

Section Preview.
Variable g : gmap value (list Edge).
Implicit Types (id u v w : value) (st : gset value * list value).

Local Abbreviation grown := (Animation.grown g).

Lemma grown_nil st : grown [] st st.
Proof.
  split; [done|]. split; [by intros r ?%elem_of_nil|]. split; [done|].
  exists []. split; [by rewrite app_nil_r|]. split; [constructor|].
  split; [|by intros v ?%elem_of_nil].
  intros v. split; [by intros ?%elem_of_nil | by intros [? ?]].
Qed.

Lemma grown_visited id st : id ∈ st.1 → grown [id] st st.
Proof.
  intros Hid. destruct (grown_nil st) as (H1 & _ & H3 & H4).
  split; [done|]. split; [by intros r ->%list_elem_of_singleton|].
  split; [done|].
  destruct H4 as (added & ? & ? & ? & Hr). exists added.
  repeat (split; [done|]). intros v Hv. by destruct (Hr v Hv) as (? & ?%elem_of_nil & _).
Qed.

Lemma grown_app r1 r2 st st1 st2 :
  grown r1 st st1 → grown r2 st1 st2 → grown (r1 ++ r2) st st2.
Proof.
  intros (S1 & R1 & C1 & a1 & P1 & N1 & M1 & E1)
         (S2 & R2 & C2 & a2 & P2 & N2 & M2 & E2).
  split; [set_solver|]. split.
  { intros r [?|?]%elem_of_app; [apply S2|]; auto. }
  split.
  { intros u w Hu Hn Hw. destruct (decide (u ∈ st1.1)); [apply S2|]; eauto. }
  exists (a1 ++ a2). split; [by rewrite P2, P1, app_assoc|]. split.
  { apply NoDup_app. split; [done|]. split; [|done].
    intros v H1%M1 H2%M2. tauto. }
  split.
  { intros v. rewrite elem_of_app, M1, M2. split.
    - intros [[? ?]|[? ?]]; split; auto.
    - intros [? ?]. destruct (decide (v ∈ st1.1)); auto. }
  intros v [Hv|Hv]%elem_of_app.
  - destruct (E1 v Hv) as (r & ? & ?). exists r. rewrite elem_of_app. auto.
  - destruct (E2 v Hv) as (r & ? & ?). exists r. rewrite elem_of_app. auto.
Qed.

(** Visiting [id] and then what its connections lead to. *)
Lemma grown_node id st st' :
  id ∉ st.1 →
  grown (to <$> adj g id) ({[id]} ∪ st.1, st.2 ++ [id]) st' →
  grown [id] st st' ∧ ∃ rest, st'.2 = st.2 ++ id :: rest.
Proof.
  intros Hid (S1 & R1 & C1 & a1 & P1 & N1 & M1 & E1). simpl in *.
  assert (id ∈ st'.1) as Hin by set_solver.
  split; [|exists a1; by rewrite P1, <- app_assoc].
  split; [set_solver|]. split; [by intros r ->%list_elem_of_singleton|].
  split.
  { intros u w Hu Hn Hw. destruct (decide (u = id)) as [->|Hne].
    - apply R1. destruct Hw as (e & He & <-). by apply list_elem_of_fmap_2.
    - apply (C1 u w); [done|set_solver|done]. }
  exists (id :: a1). split; [by rewrite P1, <- app_assoc|]. split.
  { constructor; [|done]. intros H%M1. set_solver. }
  split.
  { intros v. rewrite elem_of_cons, M1. split.
    - intros [->|[? ?]]; [done|]. split; [done|set_solver].
    - intros [? ?]. destruct (decide (v = id)); [by left|right].
      split; [done|set_solver]. }
  intros v [->|Hv]%elem_of_cons.
  - exists id. split; [apply list_elem_of_here|apply rtc_refl].
  - destruct (E1 v Hv) as (r & Hr & Hrv).
    apply list_elem_of_fmap in Hr as (e & -> & He).
    exists id. split; [apply list_elem_of_here|].
    eapply rtc_l; [|done]. by exists e.
Qed.

Section Fuel.
Variable U : gset value.
Hypothesis nodes_U : nodes g ⊆ U.

Lemma forEach_grows (n : nat)
    (f : value → gset value * list value → option (gset value * list value)) :
  (∀ id st, id ∈ U → size (U ∖ st.1) < n →
            ∃ st', f id st = Some st' ∧ grown [id] st st') →
  ∀ cs st, (∀ c, c ∈ cs → to c ∈ U) → size (U ∖ st.1) < n →
           ∃ st', Animation.forEach f cs st = Some st'
                  ∧ grown (to <$> cs) st st'.
Proof.
  intros Hf. induction cs as [|c cs IH]; intros st Hcs Hn; simpl.
  - exists st. split; [done|apply grown_nil].
  - destruct (Hf (to c) st) as (st1 & -> & G1); [apply Hcs, list_elem_of_here|done|].
    destruct (IH st1) as (st2 & -> & G2).
    { intros c' Hc'. by apply Hcs, list_elem_of_further. }
    { pose proof (room_mono U st.1 st1.1 (proj1 G1)). lia. }
    exists st2. split; [done|]. by apply (grown_app [to c] _ st st1 st2).
Qed.

Lemma traverse_grows (fuel : nat) :
  ∀ id st, id ∈ U → size (U ∖ st.1) < fuel →
           ∃ st', traverse fuel g id st = Some st' ∧ grown [id] st st'.
Proof.
  induction fuel as [|fuel IH]; intros id st Hid Hn; [lia|]. simpl.
  destruct (decide (id ∈ st.1)) as [Hv|Hv].
  { exists st. split; [done|by apply grown_visited]. }
  destruct (forEach_grows fuel (traverse fuel g) IH (adj g id)
              ({[id]} ∪ st.1, st.2 ++ [id])) as (st' & -> & G).
  { intros c Hc. by apply nodes_U, (adj_nodes g c id). }
  { simpl. pose proof (room_shrinks U st.1 id Hid Hv). lia. }
  exists st'. split; [done|]. by apply grown_node.
Qed.


End Fuel.

End Preview.


(** ** The walk of [animateFlow] *)

Section Flow.
Implicit Types (a : AnimationSystem) (r : AnimationSystem * Task).

Lemma goes_refl r : goes r 0 r.
Proof. by intros m. Qed.

Lemma goes_timer a ms k : goes (a, Timer ms k) 1 (k a).
Proof. by intros m. Qed.

Lemma goes_trans r1 n1 r2 n2 r3 :
  goes r1 n1 r2 → goes r2 n2 r3 → goes r1 (n1 + n2) r3.
Proof.
  intros H1 H2 m. rewrite <- Nat.add_assoc, H1. apply H2.
Qed.

Lemma ran_refl a : ran a a [].
Proof. unfold ran. by rewrite app_nil_r. Qed.

Lemma ran_trans a1 a2 a3 e1 e2 :
  ran a1 a2 e1 → ran a2 a3 e2 → ran a1 a3 (e1 ++ e2).
Proof.
  intros (G1 & I1 & S1 & C1) (G2 & I2 & S2 & C2).
  unfold ran. rewrite G2, I2, S2, C2, C1, app_assoc. done.
Qed.

Lemma visits_app e1 e2 : visits (e1 ++ e2) = visits e1 ++ visits e2.
Proof. apply omap_app. Qed.

(** A connection, from its highlight to the end of its hold. *)
Lemma animateConnection_runs cid k a :
  isAnimating a = true →
  ∃ a' evs, goes (animateConnection cid k a) 2 (k a')
            ∧ ran a a' evs ∧ visits evs = [].
Proof.
  intros Hrun.
  set (a1 := with_canvas (highlightConnection cid (canvas a)) a).
  set (a2 := with_canvas (flowingEffect cid (canvas a1)) a1).
  exists (with_canvas (removeConnectionHighlight cid (canvas a2)) a2),
    ([HighlightConnection cid]
     ++ (if decide (cid ∈ connectionElements (canvas a))
         then [FlowingEffect cid] else [])
     ++ [RemoveConnectionHighlight cid]).
  split; [|split].
  - intros m. unfold animateConnection. rewrite Hrun. simpl.
    rewrite Hrun. reflexivity.
  - unfold ran. simpl. repeat (split; [reflexivity|]).
    unfold record. simpl.
    destruct (decide (cid ∈ connectionElements (canvas a)));
      unfold record; simpl; unfold record; by rewrite <- !app_assoc.
  - by destruct (decide (cid ∈ connectionElements (canvas a))).
Qed.

Variable g : gmap value (list Edge).
Variable U : gset value.
Hypothesis nodes_U : nodes g ⊆ U.

(** The loop over the branches, given what the recursive call does. *)
Lemma branches_run flow n len V k :
  flows g U flow n →
  size (U ∖ V) < n →
  ∀ cs a,
    (∀ c, c ∈ cs → to c ∈ U) →
    flowGraph a = g → isAnimating a = true →
    ∃ steps a' evs,
      goes (branches flow len V k cs a) steps (k a')
      ∧ ran a a' evs
      ∧ (∀ v, v ∈ visits evs → (v ∉ V) ∧ ∃ c, c ∈ cs ∧ rtc (arc g) (to c) v).
Proof.
  intros Hflow Hn. induction cs as [|c cs IH]; intros a Hcs Hg Hrun.
  { exists 0, a, []. split; [apply goes_refl|]. split; [apply ran_refl|].
    by intros v ?%elem_of_nil. }
  cbn [branches]. rewrite Hrun. cbn [negb].
  destruct (animateConnection_runs (connectionId c)
              (λ a0, if negb (isAnimating a0) then k a0
                     else flow (to c) V
                            (λ a1, if 1 <? len
                                   then delay (200 / animationSpeed a1)
                                          (branches flow len V k cs) a1
                                   else branches flow len V k cs a1) a0)
              a Hrun) as (a1 & e1 & G1 & R1 & V1).
  cbv beta in G1.
  pose proof R1 as (Rg1 & Ri1 & _).
  rewrite Ri1, Hrun in G1. cbn [negb] in G1.
  destruct (Hflow (to c) V
              (λ a1, if 1 <? len
                     then delay (200 / animationSpeed a1)
                            (branches flow len V k cs) a1
                     else branches flow len V k cs a1) a1)
    as (s2 & a2 & e2 & G2 & R2 & A2 & _); [congruence|congruence| |done|].
  { apply Hcs, list_elem_of_here. }
  cbv beta in G2.
  pose proof R2 as (Rg2 & Ri2 & _).
  destruct (IH a2) as (s3 & a3 & e3 & G3 & R3 & A3); [|congruence|congruence|].
  { intros c' Hc'. by apply Hcs, list_elem_of_further. }
  assert (∃ s, goes (if 1 <? len
                     then delay (200 / animationSpeed a2)
                            (branches flow len V k cs) a2
                     else branches flow len V k cs a2) s (k a3))
    as (s & Gs).
  { destruct (1 <? len).
    - exists (1 + s3). eapply goes_trans; [apply goes_timer|done].
    - by exists s3. }
  exists (2 + s2 + s), a3, (e1 ++ e2 ++ e3).
  split; [eapply goes_trans; [eapply goes_trans|]; eassumption|].
  split; [eapply ran_trans; [|eapply ran_trans]; eassumption|].
  intros v. rewrite !visits_app, V1. simpl. intros [Hv|Hv]%elem_of_app.
  - destruct (A2 v Hv) as (? & ?). split; [done|].
    exists c. split; [apply list_elem_of_here|done].
  - destruct (A3 v Hv) as (? & c' & ? & ?). split; [done|].
    exists c'. split; [by apply list_elem_of_further|done].
Qed.

(** [animateFlow] with enough depth to spare. *)
Lemma animateFlow_flows fuel : flows g U (animateFlow fuel) fuel.
Proof.
  induction fuel as [|fuel IH]; intros id V k a Hg Hrun Hid Hn; [lia|].
  cbn [animateFlow]. rewrite Hrun. cbn [negb orb].
  destruct (bool_decide (id ∈ V)) eqn:Hv.
  { apply bool_decide_eq_true in Hv.
    exists 0, a, []. split; [apply goes_refl|]. split; [apply ran_refl|].
    split; [by intros v ?%elem_of_nil|]. by split. }
  apply bool_decide_eq_false in Hv.
  set (a1 := with_canvas (highlightObject id (canvas a)) a).
  assert (ran a a1 [HighlightObject id]) as R1 by (by unfold ran).
  assert (flowGraph a1 = g) as Hg1 by done.
  assert (isAnimating a1 = true) as Hrun1 by done.
  unfold delay at 1.
  destruct (adj g id) as [|c cs] eqn:Hadj.
  - exists 2, a1, [HighlightObject id].
    split.
    { intros m. simpl. rewrite Hrun, Hg, Hadj. reflexivity. }
    split; [done|]. split.
    { intros v ->%list_elem_of_singleton. split; [done|apply rtc_refl]. }
    split; [|done]. intros _. exists []. split; [done|apply not_elem_of_nil].
  - destruct (branches_run (animateFlow fuel) fuel (length (c :: cs))
                ({[id]} ∪ V) k IH) with (cs := c :: cs) (a := a1)
      as (s2 & a2 & e2 & G2 & R2 & A2); [| |done|done|].
    { pose proof (room_shrinks U V id Hid Hv). lia. }
    { intros c' Hc'. apply nodes_U, (adj_nodes g c' id). by rewrite Hadj. }
    exists (1 + s2), a2, ([HighlightObject id] ++ e2).
    split.
    { eapply goes_trans; [apply goes_timer|]. cbv beta.
      rewrite Hrun1, Hg1, Hadj. exact G2. }
    split; [by eapply ran_trans|].
    assert (∀ v, v ∈ visits e2 → (v ∉ V) ∧ v ≠ id ∧ rtc (arc g) id v) as A2'.
    { intros v Hv2. destruct (A2 v Hv2) as (Hnv & c' & Hc' & Hr).
      split; [set_solver|]. split; [set_solver|].
      eapply rtc_l; [|done]. exists c'. by rewrite Hadj. }
    split.
    { intros v. rewrite visits_app. simpl. intros [->|Hv2]%elem_of_cons.
      - split; [done|apply rtc_refl].
      - destruct (A2' v Hv2) as (? & _ & ?). done. }
    split; [|done]. intros _. exists (visits e2).
    split; [by rewrite visits_app|].
    intros Hin. by destruct (A2' id Hin) as (_ & ? & _).
Qed.

End Flow.

(** A task alone on the event loop is [drive]n on. *)
Lemma fire_alone (n : nat) :
  ∀ (r : AnimationSystem * Task) (l : Loop),
    timers l = [] →
    system (Nat.iter n fire (settle r l)) = (drive n r).1
    ∧ (match (drive n r).2 with
       | Timer _ _ => pending (Nat.iter n fire (settle r l)) = 1
       | _ => timers (Nat.iter n fire (settle r l)) = []
       end).
Proof.
  induction n as [|n IH]; intros [a t] l Hl.
  - simpl. destruct t; simpl; rewrite ?Hl; done.
  - rewrite Nat.iter_succ_r. destruct t as [|ms k|].
    + assert (fire (settle (a, Finished) l) = settle (a, Finished) l) as ->.
      { unfold fire. simpl. by rewrite Hl. }
      destruct (IH (a, Finished) l Hl) as (H1 & H2).
      by destruct n.
    + assert (fire (settle (a, Timer ms k) l)
              = settle (k a) {| system := a;
                                now := Qmax (now l) (now l + ms);
                                timers := [] |}) as ->.
      { unfold fire. simpl. by rewrite Hl. }
      simpl. by apply IH.
    + assert (fire (settle (a, OutOfFuel) l) = settle (a, OutOfFuel) l) as ->.
      { unfold fire. simpl. by rewrite Hl. }
      destruct (IH (a, OutOfFuel) l Hl) as (H1 & H2).
      by destruct n.
Qed.

(** C1. Started on any engine state and any flow graph, cyclic or not,
    and left alone on the event loop, [startFlowAnimation] comes to its
    end after finitely many timers: no timer is left, the running flag
    is down, the start object was highlighted first and only once on
    its own path, and every highlighted object can be reached from it.
    Below the start, every call of [animateFlow] with a visited set [V]
    comes back to its caller, highlights no object of [V], and
    highlights its own object once, before everything under it: a path
    never returns to an object it has been through.  Different paths
    may: in the diamond [A -> B], [A -> C], [B -> D], [C -> D] the
    object [D] is highlighted twice.  On the cycle [A -> B -> C -> A]
    the run highlights [A], [B] and [C] once each and ends after nine
    timers. *)
Theorem startFlowAnimation_terminates (a : AnimationSystem) (start : value) :
  (∃ n evs,
     let l := Nat.iter n fire (call (startFlowAnimation start) (idle a)) in
     timers l = []
     ∧ isAnimating (system l) = false
     ∧ flowGraph (system l) = flowGraph a
     ∧ commands (canvas (system l))
       = commands (canvas a)
         ++ (if isAnimating a then [ClearAllHighlights; ClearTransitions]
             else [])
         ++ ClearAllHighlights :: evs
     ∧ (∃ rest, visits evs = start :: rest ∧ start ∉ rest)
     ∧ (∀ v, v ∈ visits evs → rtc (arc (flowGraph a)) start v))
  ∧ (∀ (U : gset value) (fuel : nat),
       nodes (flowGraph a) ⊆ U →
       flows (flowGraph a) U (animateFlow fuel) fuel)
  ∧ (let l := Nat.iter 9 fire
                (call (startFlowAnimation (str "A"))
                   (idle (boot (text ["A -> B: x"; "B -> C: y"; "C -> A: z"]))))
     in
     timers l = []
     ∧ isAnimating (system l) = false
     ∧ visits (commands (canvas (system l))) = [str "A"; str "B"; str "C"])
  ∧ (let l := Nat.iter 40 fire
                (call (startFlowAnimation (str "A"))
                   (idle (boot (text ["A -> B"; "A -> C"; "B -> D"; "C -> D"]))))
     in
     timers l = []
     ∧ visits (commands (canvas (system l)))
       = [str "A"; str "B"; str "D"; str "C"; str "D"]).
Proof.
  split; [|split; [|split; vm_compute; repeat split; reflexivity]].
  2: { intros U fuel HU. by apply animateFlow_flows. }
  set (g := flowGraph a). set (U := {[start]} ∪ nodes g : gset value).
  set (a0 := if isAnimating a then stopAnimation a else a).
  set (a1 := with_canvas (clearAllHighlights (canvas (with_isAnimating true a0)))
               (with_isAnimating true a0)).
  assert (flowGraph a1 = g) as Hg1 by (subst a1 a0; by destruct (isAnimating a)).
  assert (commands (canvas a1)
          = commands (canvas a)
            ++ (if isAnimating a then [ClearAllHighlights; ClearTransitions]
                else [])
            ++ [ClearAllHighlights]) as Hc1.
  { subst a1 a0. destruct (isAnimating a); simpl;
      repeat (unfold record; simpl); by rewrite <- ?app_assoc. }
  destruct (animateFlow_flows g U ltac:(set_solver) (depth g) start ∅
              (λ a, (with_isAnimating false a, Finished)) a1)
    as (n & a2 & evs & G & (Rg & Ri & Rs & Rc) & A & F & _);
    [done|done|set_solver|apply depth_room|].
  destruct (F ltac:(set_solver)) as (rest & Hrest & Hnot).
  exists n, evs. cbv zeta.
  assert (startFlowAnimation start a = animateFlow (depth g) start ∅
            (λ a, (with_isAnimating false a, Finished)) a1) as Hstart.
  { unfold startFlowAnimation. fold a0. fold a1. by rewrite Hg1. }
  unfold call, idle. cbn [system]. rewrite Hstart.
  destruct (fire_alone n
              (animateFlow (depth g) start ∅
                 (λ a, (with_isAnimating false a, Finished)) a1)
              {| system := a; now := 0; timers := [] |} eq_refl) as (Hs & Ht).
  specialize (G 0). rewrite Nat.add_0_r in G. simpl in G.
  rewrite G in Hs, Ht. simpl in Hs, Ht.
  split; [done|]. rewrite Hs. simpl.
  split; [done|]. split; [by rewrite Rg|]. split.
  { rewrite Rc, Hc1, <- !app_assoc. done. }
  split; [by exists rest|].
  intros v Hv. by apply A.
Qed.

(** ** Order of discovery *)

Section Order.
Implicit Types (A B C I J : list nat) (i j : nat).

Lemma lexlt_trans A B C : lexlt A B → lexlt B C → lexlt A C.
Proof.
  revert B C. induction A as [|a A IH]; intros [|b B] [|c C]; simpl; try done.
  intros [?|[-> ?]] [?|[-> ?]]; [left; lia|by left|by left|right].
  split; [done|]. by eapply IH.
Qed.

Lemma lexlt_app A B X Y :
  length A = length B → lexlt A B → lexlt (A ++ X) (B ++ Y).
Proof.
  revert B. induction A as [|a A IH]; intros [|b B]; simpl; try done.
  intros [= Hlen] [?|[-> ?]]; [by left|right]. split; [done|]. by apply IH.
Qed.

Lemma lexlt_snoc A i j : i < j → lexlt (A ++ [i]) (A ++ [j]).
Proof. intros. induction A as [|a A IH]; simpl; [by left|by right]. Qed.

Lemma slt_trans A B C : slt A B → slt B C → slt A C.
Proof.
  intros [?|[? ?]] [?|[? ?]]; [left; lia..|right].
  split; [congruence|by eapply lexlt_trans].
Qed.

Lemma sle_refl A : sle A A.
Proof. by right. Qed.

Lemma slt_sle A B : slt A B → sle A B.
Proof. by left. Qed.

Lemma sle_trans A B C : sle A B → sle B C → sle A C.
Proof.
  intros [? | ->] [? | ->]; [left; by eapply slt_trans|by left|by left|by right].
Qed.

Lemma slt_sle_trans A B C : slt A B → sle B C → slt A C.
Proof. intros ? [? | ->]; [by eapply slt_trans|done]. Qed.

Lemma sle_slt_trans A B C : sle A B → slt B C → slt A C.
Proof. intros [? | ->] ?; [by eapply slt_trans|done]. Qed.

Lemma sle_length A B : sle A B → length A ≤ length B.
Proof. intros [[?|[? _]] | ->]; lia. Qed.

Lemma sle_prefix A C : sle A (A ++ C).
Proof.
  destruct C as [|c C]; [right; by rewrite app_nil_r|].
  left. left. rewrite length_app. simpl. lia.
Qed.

Lemma slt_snoc_self A i : slt A (A ++ [i]).
Proof. left. rewrite length_app. simpl. lia. Qed.

Lemma slt_nil A i : slt [] (A ++ [i]).
Proof. left. rewrite length_app. simpl. lia. Qed.

Lemma slt_snoc_snoc A B i j : slt A B → slt (A ++ [i]) (B ++ [j]).
Proof.
  intros [?|[? ?]]; [left|right]; rewrite !length_app; simpl; [lia|].
  split; [lia|by apply lexlt_app].
Qed.

Lemma slt_snoc_lt A i j : i < j → slt (A ++ [i]) (A ++ [j]).
Proof.
  intros. right. rewrite !length_app. split; [done|by apply lexlt_snoc].
Qed.

Lemma sle_snoc_le A B i j : sle A B → i ≤ j → sle (A ++ [i]) (B ++ [j]).
Proof.
  intros [? | ->] Hij; [left; by apply slt_snoc_snoc|].
  destruct (decide (i = j)) as [->|?]; [by right|left].
  apply slt_snoc_lt. lia.
Qed.

(** A list below a proper beginning of [J], then one more number. *)
Lemma sle_snoc_inside A B R i :
  slt A B → R ≠ [] → sle (A ++ [i]) (B ++ R).
Proof.
  intros Hlt HR. destruct R as [|r R]; [done|].
  replace (B ++ r :: R) with ((B ++ [r]) ++ R) by (by rewrite <- app_assoc).
  eapply sle_trans; [|apply sle_prefix]. left. by apply slt_snoc_snoc.
Qed.

Lemma ascending_snoc (l : list (list nat)) B :
  ascending l → Forall (λ A, slt A B) l → ascending (l ++ [B]).
Proof.
  induction l as [|A l IH]; simpl; [by intros _ _; split; [constructor|]|].
  intros [HA Hl] HB. apply Forall_cons in HB as [HAB HB].
  split; [|by apply IH]. apply Forall_app. split; [done|]. by constructor.
Qed.

End Order.

(** ** Numbered walks *)

Section Follow.
Variable g : gmap value (list Edge).
Implicit Types (x y u v : value) (I J : list nat) (p q : list value).

Lemma follow_head x I p : follow g x I = Some p → ∃ p', p = x :: p'.
Proof.
  destruct I as [|n I]; simpl; [intros [= <-]; eauto|].
  destruct (adj g x !! n) as [e|]; [|done].
  destruct (follow g (to e) I); simpl; [|done]. intros [= <-]. eauto.
Qed.

Lemma follow_snoc x I n :
  follow g x (I ++ [n])
  = p ← follow g x I; u ← last p; e ← adj g u !! n; Some (p ++ [to e]).
Proof.
  revert x. induction I as [|i I IH]; intros x; simpl.
  - by destruct (adj g x !! n).
  - destruct (adj g x !! i) as [e|]; [|done]. rewrite IH.
    destruct (follow g (to e) I) as [p|] eqn:E; simpl; [|done].
    destruct (follow_head _ _ _ E) as (p' & ->). simpl.
    destruct (last (to e :: p')) as [u|]; simpl; [|done].
    by destruct (adj g u !! n).
Qed.

Lemma follow_snoc_inv x I n q :
  follow g x (I ++ [n]) = Some q →
  ∃ p u e, follow g x I = Some p ∧ last p = Some u ∧ adj g u !! n = Some e
           ∧ q = p ++ [to e].
Proof.
  rewrite follow_snoc.
  destruct (follow g x I) as [p|] eqn:E1; simpl; [|done].
  destruct (last p) as [u|] eqn:E2; simpl; [|done].
  destruct (adj g u !! n) as [e|] eqn:E3; simpl; [|done].
  intros [= <-]. by exists p, u, e.
Qed.

Lemma follow_snoc_intro x I n p u e :
  follow g x I = Some p → last p = Some u → adj g u !! n = Some e →
  follow g x (I ++ [n]) = Some (p ++ [to e]).
Proof. intros H1 H2 H3. rewrite follow_snoc, H1. simpl. by rewrite H2; simpl; rewrite H3. Qed.

Lemma walk_snoc p u v : last p = Some u → walk g p → arc g u v → walk g (p ++ [v]).
Proof.
  induction p as [|a p IH]; [done|].
  destruct p as [|b p]; simpl.
  - intros [= ->] _ ?. done.
  - intros Hl [Hab Hw] Huv. split; [done|]. apply IH; done.
Qed.

Lemma follow_walk x I p :
  follow g x I = Some p → head p = Some x ∧ walk g p ∧ length p = S (length I).
Proof.
  revert p. induction I as [|n I IH] using rev_ind; intros p.
  - intros [= <-]. done.
  - intros (p0 & u & e & H0 & Hu & He & ->)%follow_snoc_inv.
    destruct (IH _ H0) as (Hh & Hw & Hl).
    split; [|split].
    + destruct p0; [done|]. done.
    + eapply walk_snoc; [done..|]. exists e. split; [|done].
      by eapply list_elem_of_lookup_2.
    + rewrite !length_app. simpl. lia.
Qed.

Lemma walk_follow p :
  ∀ x, head p = Some x → walk g p → ∃ I, follow g x I = Some p.
Proof.
  induction p as [|a p IH]; intros x; [done|]. simpl. intros [= ->].
  destruct p as [|b p].
  - intros _. by exists [].
  - intros [(e & He & Hb) Hw]. destruct (IH b eq_refl Hw) as (I & HI).
    apply list_elem_of_lookup in He as (n & Hn).
    exists (n :: I). simpl. rewrite Hn, Hb, HI. done.
Qed.

End Follow.

(** ** Breadth-first search *)

Section Search.
Variable g : gmap value (list Edge).
Variables x y : value.
Hypothesis x_not_y : x ≠ y.
Implicit Types (u v w id : value) (V : gset value) (K J : list nat)
  (p q : list value) (Q : list (value * list value)) (Qc : list (list nat))
  (T : value → list nat).

(** Two numbered walks with the same numbers end at the same id. *)
Lemma same_walk_same_end T u j e p v K pk :
  follow g x (T u) = Some p → last p = Some u → adj g u !! j = Some e →
  follow g x K = Some pk → last pk = Some v →
  T u ++ [j] = K → to e = v.
Proof.
  intros Hp Hu He Hk Hv <-.
  rewrite (follow_snoc_intro g x _ _ _ _ _ Hp Hu He) in Hk.
  injection Hk as <-. rewrite last_snoc in Hv. by injection Hv.
Qed.

(** Where a numbered walk from [x] stands with respect to the search:
    it ends at a visited id, or it passes, at one of its beginnings that
    does not end at [y], a walk waiting in the queue, or it leaves the
    current id by a connection not yet looked at. *)
Lemma frontier V Q T Qc id i :
  searching g x y V Q T Qc id i →
  ∀ J q w, follow g x J = Some q → last q = Some w →
    w ∈ V
    ∨ (∃ K J' R q', K ∈ Qc ∧ J = J' ++ R ∧ sle K J'
                    ∧ follow g x J' = Some q' ∧ last q' ≠ Some y)
    ∨ (∃ J' n R, J = J' ++ n :: R ∧ sle (T id) J' ∧ i ≤ n
                 ∧ is_Some (adj g id !! n)).
Proof.
  intros Hs J. induction J as [|n J0 IH] using rev_ind; intros q w Hq Hw.
  - injection Hq as <-. injection Hw as <-.
    destruct (s_root _ _ _ _ _ _ _ _ _ Hs) as [?|?]; [by left|right; left].
    exists [], [], [], [x]. repeat split; [done|apply sle_refl|].
    intros [= ?]. done.
  - apply follow_snoc_inv in Hq as (p0 & u & e & H0 & Hu & He & ->).
    rewrite last_snoc in Hw. injection Hw as <-.
    destruct (IH p0 u H0 Hu) as [HuV|[HK|HJ]].
    + destruct (s_tree _ _ _ _ _ _ _ _ _ Hs u HuV) as ((pu & Hpu & Hlu) & Hleast & _).
      destruct (decide (u = id ∧ i ≤ n)) as [[-> Hin]|Hcov].
      { right; right. exists J0, n, []. repeat split; eauto. }
      destruct (s_children _ _ _ _ _ _ _ _ _ Hs u n e HuV He) as (Hy & [?|HQ]).
      { intros ->. destruct (decide (i ≤ n)); [|lia]. by destruct Hcov. }
      { by left. }
      right; left. exists (T u ++ [n]), (J0 ++ [n]), [], (p0 ++ [to e]).
      split; [done|]. split; [by rewrite app_nil_r|].
      split; [apply sle_snoc_le; [by eapply Hleast|done]|].
      split; [by eapply follow_snoc_intro|].
      rewrite last_snoc. by intros [= ?].
    + destruct HK as (K & J' & R & q' & ? & -> & ? & ? & ?).
      right; left. exists K, J', (R ++ [n]), q'.
      by rewrite app_assoc.
    + destruct HJ as (J' & m & R & -> & ? & ? & ?).
      right; right. exists J', m, (R ++ [n]).
      by rewrite <- app_assoc.
Qed.

(** The walk at the head of the queue is the first to its id. *)
Lemma least_head V Q T Qc id i v p H :
  searching g x y V ((v, p) :: Q) T (H :: Qc) id i →
  length (adj g id) ≤ i → v ∉ V →
  ∀ J q, follow g x J = Some q → last q = Some v → sle H J.
Proof.
  intros Hs Hfull Hv J q Hq Hl.
  destruct (frontier _ _ _ _ _ _ Hs J q v Hq Hl) as [?|[HK|HJ]]; [done| |].
  - destruct HK as (K & J' & R & q' & HKin & -> & HKJ & _).
    eapply sle_trans; [|apply sle_prefix]. eapply sle_trans; [|done].
    apply elem_of_cons in HKin as [->|HKin]; [apply sle_refl|left].
    destruct (s_ascending _ _ _ _ _ _ _ _ _ Hs) as [Hasc _].
    rewrite Forall_forall in Hasc. by apply Hasc.
  - destruct HJ as (J' & n & R & _ & _ & Hin & Hsome).
    apply lookup_lt_is_Some in Hsome. lia.
Qed.

(** The walk that ends the search is the first to [y]. *)
Lemma least_return V Q T Qc v i e :
  searching g x y V Q T Qc v i →
  v ∈ V → adj g v !! i = Some e → to e = y →
  ∀ J q, follow g x J = Some q → last q = Some y → sle (T v ++ [i]) J.
Proof.
  intros Hs Hv He Hy J q Hq Hl.
  destruct (s_target _ _ _ _ _ _ _ _ _ Hs) as [HyV _].
  destruct (frontier _ _ _ _ _ _ Hs J q y Hq Hl) as [?|[HK|HJ]]; [done| |].
  - destruct HK as (K & J' & R & q' & HKin & -> & HKJ & Hq' & Hl').
    destruct (s_tree _ _ _ _ _ _ _ _ _ Hs v Hv) as (_ & _ & Hbelow).
    rewrite Forall_forall in Hbelow.
    apply sle_snoc_inside; [eapply slt_sle_trans; eauto|].
    intros ->. rewrite app_nil_r in Hq. congruence.
  - destruct HJ as (J' & n & R & -> & Hle & Hin & _).
    replace (J' ++ n :: R) with ((J' ++ [n]) ++ R) by (by rewrite <- app_assoc).
    eapply sle_trans; [|apply sle_prefix]. by apply sle_snoc_le.
Qed.

(** With the queue empty no walk leads to [y]. *)
Lemma no_path V T id i :
  searching g x y V [] T [] id i → length (adj g id) ≤ i →
  ∀ J q, follow g x J = Some q → last q ≠ Some y.
Proof.
  intros Hs Hfull J q Hq Hl.
  destruct (s_target _ _ _ _ _ _ _ _ _ Hs) as [HyV _].
  destruct (frontier _ _ _ _ _ _ Hs J q y Hq Hl) as [?|[HK|HJ]]; [done| |].
  - destruct HK as (K & _ & _ & _ & ?%elem_of_nil & _). done.
  - destruct HJ as (J' & n & R & _ & _ & Hin & Hsome).
    apply lookup_lt_is_Some in Hsome. lia.
Qed.

Lemma searching_start :
  searching g x y ∅ [(x, [x])] (λ _, []) [[]] x (length (adj g x)).
Proof.
  split.
  - repeat constructor.
  - simpl. split; [constructor|done].
  - intros v ?. set_solver.
  - intros u j e ?. set_solver.
  - intros K ->%list_elem_of_singleton. by left.
  - right. apply list_elem_of_here.
  - split; [set_solver|]. by repeat constructor.
  - intros u ?. set_solver.
Qed.

(** An entry whose id has been visited is dropped. *)
Lemma searching_skip V Q T Qc id i v p H :
  searching g x y V ((v, p) :: Q) T (H :: Qc) id i → v ∈ V →
  searching g x y V Q T Qc id i.
Proof.
  intros Hs Hv.
  pose proof (s_queue _ _ _ _ _ _ _ _ _ Hs) as HQ.
  apply Forall2_cons in HQ as ([Hp Hl] & HQ). simpl in Hp, Hl.
  split.
  - done.
  - by destruct (s_ascending _ _ _ _ _ _ _ _ _ Hs).
  - intros u Hu. destruct (s_tree _ _ _ _ _ _ _ _ _ Hs u Hu) as (? & ? & HF).
    by apply Forall_cons in HF as [_ ?].
  - intros u j e Hu He Hc.
    destruct (s_children _ _ _ _ _ _ _ _ _ Hs u j e Hu He Hc) as (? & [?|HK]);
      split; [done|by left|done|].
    apply elem_of_cons in HK as [HK|?]; [left|by right].
    destruct (s_tree _ _ _ _ _ _ _ _ _ Hs u Hu) as ((pu & ? & ?) & _).
    by rewrite (same_walk_same_end T u j e pu v H p).
  - intros K HK. apply (s_origin _ _ _ _ _ _ _ _ _ Hs). by apply list_elem_of_further.
  - destruct (s_root _ _ _ _ _ _ _ _ _ Hs) as [?|HK]; [by left|].
    apply elem_of_cons in HK as [<-|?]; [left|by right].
    injection Hp as <-. by injection Hl as <-.
  - destruct (s_target _ _ _ _ _ _ _ _ _ Hs) as [? HF]. split; [done|].
    by apply Forall_cons in HF as [_ ?].
  - apply (s_current _ _ _ _ _ _ _ _ _ Hs).
Qed.

(** An entry whose id is new makes it the current id. *)
Lemma searching_visit V Q T Qc id i v p H :
  searching g x y V ((v, p) :: Q) T (H :: Qc) id i →
  length (adj g id) ≤ i → v ∉ V →
  searching g x y ({[v]} ∪ V) Q (λ w, if decide (w = v) then H else T w) Qc v 0.
Proof.
  intros Hs Hfull Hv.
  pose proof (s_queue _ _ _ _ _ _ _ _ _ Hs) as HQ.
  apply Forall2_cons in HQ as ([Hp Hl] & HQ). simpl in Hp, Hl.
  destruct (s_ascending _ _ _ _ _ _ _ _ _ Hs) as [HHQ Hasc].
  destruct (s_target _ _ _ _ _ _ _ _ _ Hs) as [HyV HFy].
  apply Forall_cons in HFy as [Hvy HFy]. simpl in Hvy.
  assert (∀ u, u ∈ V → (if decide (u = v) then H else T u) = T u) as HT.
  { intros u Hu. destruct (decide (u = v)) as [->|]; done. }
  split.
  - done.
  - done.
  - intros u [->%elem_of_singleton|Hu]%elem_of_union.
    + rewrite decide_True by done. split; [by exists p|]. split; [|done].
      by eapply least_head.
    + rewrite HT by done.
      destruct (s_tree _ _ _ _ _ _ _ _ _ Hs u Hu) as (? & ? & HF).
      by apply Forall_cons in HF as [_ ?].
  - intros u j e [->%elem_of_singleton|Hu]%elem_of_union He Hc; [specialize (Hc eq_refl); lia|].
    rewrite HT by done.
    destruct (s_children _ _ _ _ _ _ _ _ _ Hs u j e Hu He) as (? & [?|HK]).
    { intros ->. apply lookup_lt_Some in He. lia. }
    { split; [done|left; set_solver]. }
    split; [done|].
    apply elem_of_cons in HK as [HK|?]; [left|by right].
    destruct (s_tree _ _ _ _ _ _ _ _ _ Hs u Hu) as ((pu & ? & ?) & _).
    rewrite (same_walk_same_end T u j e pu v H p) by done. set_solver.
  - intros K HK.
    destruct (s_origin _ _ _ _ _ _ _ _ _ Hs K) as [?|(u & j & Hu & -> & _)];
      [by apply list_elem_of_further|by left|right].
    exists u, j. split; [set_solver|]. rewrite HT by done.
    split; [done|]. intros ->. done.
  - destruct (s_root _ _ _ _ _ _ _ _ _ Hs) as [?|HK]; [left; set_solver|].
    apply elem_of_cons in HK as [<-|?]; [left|by right].
    injection Hp as <-. injection Hl as <-. set_solver.
  - split; [set_solver|done].
  - intros u [->%elem_of_singleton|Hu]%elem_of_union Hne _; [done|].
    rewrite HT by done. rewrite decide_True by done.
    destruct (s_tree _ _ _ _ _ _ _ _ _ Hs u Hu) as (_ & _ & HF).
    by apply Forall_cons in HF as [? _].
Qed.

(** A connection of the current id to an id already visited. *)
Lemma searching_pass V Q T Qc v i e :
  searching g x y V Q T Qc v i →
  adj g v !! i = Some e → to e ≠ y → to e ∈ V →
  searching g x y V Q T Qc v (S i).
Proof.
  intros Hs He Hy Hin. split.
  - apply Hs.
  - apply Hs.
  - apply Hs.
  - intros u j e' Hu He' Hc.
    destruct (decide (u = v ∧ j = i)) as [[-> ->]|Hne].
    { rewrite He in He'. injection He' as <-. split; [done|by left]. }
    apply (s_children _ _ _ _ _ _ _ _ _ Hs u j e' Hu He').
    intros ->. specialize (Hc eq_refl).
    destruct (decide (j = i)); [by destruct Hne|lia].
  - intros K HK.
    destruct (s_origin _ _ _ _ _ _ _ _ _ Hs K HK) as [?|(u & j & ? & ? & Hc)];
      [by left|right].
    exists u, j. repeat split; [done..|]. intros Hu. specialize (Hc Hu). lia.
  - apply Hs.
  - apply Hs.
  - apply Hs.
Qed.

(** A connection of the current id to a new id puts it on the queue. *)
Lemma searching_push V Q T Qc v i e p :
  searching g x y V Q T Qc v i →
  v ∈ V → follow g x (T v) = Some p → last p = Some v →
  adj g v !! i = Some e → to e ≠ y →
  searching g x y V (Q ++ [(to e, p ++ [to e])]) T (Qc ++ [T v ++ [i]]) v (S i).
Proof.
  intros Hs Hv Hp Hl He Hy.
  assert (∀ u, u ∈ V → slt (T u) (T v ++ [i])) as Hbelow.
  { intros u Hu. destruct (decide (u = v)) as [->|Hne]; [apply slt_snoc_self|].
    eapply slt_trans; [|apply slt_snoc_self].
    by apply (s_current _ _ _ _ _ _ _ _ _ Hs). }
  split.
  - apply Forall2_app; [apply Hs|]. repeat constructor; simpl.
    + by eapply follow_snoc_intro.
    + by rewrite last_snoc.
  - apply ascending_snoc; [apply Hs|]. apply Forall_forall. intros K HK.
    destruct (s_origin _ _ _ _ _ _ _ _ _ Hs K HK) as [->|(u & j & Hu & -> & Hc)];
      [apply slt_nil|].
    destruct (decide (u = v)) as [->|Hne].
    + apply slt_snoc_lt. auto.
    + apply slt_snoc_snoc. by apply (s_current _ _ _ _ _ _ _ _ _ Hs).
  - intros u Hu. destruct (s_tree _ _ _ _ _ _ _ _ _ Hs u Hu) as (? & ? & HF).
    split; [done|]. split; [done|]. apply Forall_app. split; [done|].
    apply Forall_singleton. by apply Hbelow.
  - intros u j e' Hu He' Hc.
    destruct (decide (u = v ∧ j = i)) as [[-> ->]|Hne].
    { rewrite He in He'. injection He' as <-. split; [done|right].
      apply elem_of_app. right. apply list_elem_of_here. }
    destruct (s_children _ _ _ _ _ _ _ _ _ Hs u j e' Hu He') as (? & [?|?]).
    { intros ->. specialize (Hc eq_refl).
      destruct (decide (j = i)); [by destruct Hne|lia]. }
    { split; [done|by left]. }
    split; [done|right]. apply elem_of_app. by left.
  - intros K [HK | ->%list_elem_of_singleton]%elem_of_app.
    + destruct (s_origin _ _ _ _ _ _ _ _ _ Hs K HK) as [?|(u & j & ? & ? & Hc)];
        [by left|right].
      exists u, j. repeat split; [done..|]. intros Hu. specialize (Hc Hu). lia.
    + right. exists v, i. repeat split; [done..|]. lia.
  - destruct (s_root _ _ _ _ _ _ _ _ _ Hs) as [?|?]; [by left|right].
    apply elem_of_app. by left.
  - destruct (s_target _ _ _ _ _ _ _ _ _ Hs) as [? HF]. split; [done|].
    apply Forall_app. split; [done|]. by repeat constructor.
  - apply Hs.
Qed.

End Search.

Section Measure.
Implicit Types (g : gmap value (list Edge)) (V : gset value).

Lemma unvisited_insert g V k (es : list Edge) :
  g !! k = None →
  unvisited (<[k := es]> g) V
  = (if decide (k ∈ V) then 0 else length es) + unvisited g V.
Proof.
  intros Hk. unfold unvisited. rewrite map_fold_insert_L; [|..|done].
  - by destruct (decide (k ∈ V)).
  - intros j1 j2 z1 z2 n _ _ _.
    destruct (decide (j1 ∈ V)), (decide (j2 ∈ V)); lia.
Qed.

Lemma unvisited_visit g V id :
  id ∉ V → unvisited g ({[id]} ∪ V) + length (adj g id) = unvisited g V.
Proof.
  intros Hid. induction g as [|k es g Hk IH] using map_ind.
  - unfold unvisited, adj. by rewrite !map_fold_empty, lookup_empty.
  - rewrite !unvisited_insert by done. unfold adj in *.
    destruct (decide (k = id)) as [->|Hne].
    + rewrite lookup_insert_eq. rewrite Hk in IH. simpl in *.
      rewrite decide_True by set_solver. rewrite decide_False by done. lia.
    + rewrite lookup_insert_ne by done.
      destruct (decide (k ∈ V)).
      * rewrite decide_True by set_solver. lia.
      * rewrite decide_False by set_solver. lia.
Qed.

Lemma unvisited_empty g : unvisited g ∅ = edgeCount g.
Proof.
  induction g as [|k es g Hk IH] using map_ind.
  - unfold unvisited, edgeCount. by rewrite !map_fold_empty.
  - rewrite unvisited_insert, edgeCount_insert_fresh by done.
    rewrite decide_False by set_solver. lia.
Qed.

End Measure.

Section Loop.
Variable g : gmap value (list Edge).
Variables x y : value.
Hypothesis x_not_y : x ≠ y.

(** The loop over the connections of the current id. *)
Lemma scan_spec V T v p :
  v ∈ V → follow g x (T v) = Some p → last p = Some v →
  ∀ conns i Q Qc,
    searching g x y V Q T Qc v i → drop i (adj g v) = conns →
    match scan y V p conns Q with
    | inl r =>
        ∃ n e Q' Qc', searching g x y V Q' T Qc' v n
                      ∧ adj g v !! n = Some e ∧ to e = y ∧ r = p ++ [y]
    | inr Q' =>
        ∃ Qc' i', searching g x y V Q' T Qc' v i'
                  ∧ length (adj g v) ≤ i'
                  ∧ length Q' ≤ length Q + length conns
    end.
Proof.
  intros Hv Hp Hl. induction conns as [|c cs IH]; intros i Q Qc Hs Hd; simpl.
  - exists Qc, i. split; [done|]. split; [by apply drop_nil_inv|lia].
  - assert (adj g v !! i = Some c) as Hc.
    { rewrite <- (Nat.add_0_r i), <- lookup_drop, Hd. done. }
    assert (drop (S i) (adj g v) = cs) as Hd'.
    { rewrite (drop_S _ _ _ Hc) in Hd. by injection Hd. }
    destruct (decide (to c = y)) as [Hy|Hy].
    { by exists i, c, Q, Qc. }
    destruct (decide (to c ∈ V)) as [Hin|Hin].
    + specialize (IH (S i) Q Qc (searching_pass g x y V Q T Qc v i c Hs Hc Hy Hin) Hd').
      destruct (scan y V p cs Q) as [r|Q']; [done|].
      destruct IH as (Qc' & i' & ? & ? & ?). exists Qc', i'.
      split; [done|]. split; [done|lia].
    + specialize (IH (S i) _ _
                    (searching_push g x y V Q T Qc v i c p Hs Hv Hp Hl Hc Hy) Hd').
      destruct (scan y V p cs (Q ++ [(to c, p ++ [to c])])) as [r|Q']; [done|].
      destruct IH as (Qc' & i' & ? & ? & Hlen). exists Qc', i'.
      split; [done|]. split; [done|].
      rewrite length_app in Hlen. simpl in Hlen. lia.
Qed.

(** The loop over the queue, with an iteration to spare. *)
Lemma search_spec (fuel : nat) :
  ∀ V Q T Qc id i,
    searching g x y V Q T Qc id i → length (adj g id) ≤ i →
    length Q + unvisited g V < fuel →
    match Animation.search fuel g y V Q with
    | Path r =>
        last r = Some y
        ∧ ∃ K, follow g x K = Some r
               ∧ ∀ J q, follow g x J = Some q → last q = Some y → sle K J
    | NoPath => ∀ J q, follow g x J = Some q → last q ≠ Some y
    | Exhausted => False
    end.
Proof.
  induction fuel as [|fuel IH]; intros V Q T Qc id i Hs Hfull Hm; [lia|].
  simpl. destruct Q as [|[v p] Q].
  { pose proof (s_queue _ _ _ _ _ _ _ _ _ Hs) as ->%Forall2_nil_inv_l.
    by eapply no_path. }
  pose proof (s_queue _ _ _ _ _ _ _ _ _ Hs) as HQ.
  apply Forall2_cons_inv_l in HQ as (H & Qc' & [Hp Hl] & HQ & ->).
  simpl in Hp, Hl, Hm.
  destruct (decide (v ∈ V)) as [Hv|Hv].
  { eapply IH; [by eapply searching_skip|done|lia]. }
  pose proof (searching_visit g x y x_not_y V Q T Qc' id i v p H Hs Hfull Hv) as Hs'.
  set (T' := λ w, if decide (w = v) then H else T w) in *.
  assert (T' v = H) as HT by (unfold T'; by rewrite decide_True).
  pose proof (scan_spec ({[v]} ∪ V) T' v p ltac:(set_solver)
                ltac:(by rewrite HT) Hl (adj g v) 0 Q Qc' Hs' (drop_0 _)) as Hscan.
  destruct (scan y ({[v]} ∪ V) p (adj g v) Q) as [r|Q'].
  - destruct Hscan as (n & e & Q1 & Qc1 & Hs1 & He & Hy & ->).
    split; [apply last_snoc|]. exists (T' v ++ [n]). split.
    + rewrite <- Hy. eapply follow_snoc_intro; [by rewrite HT|done..].
    + eapply least_return; [done..|set_solver|done|done].
  - destruct Hscan as (Qc2 & i2 & Hs2 & Hfull2 & Hlen).
    eapply IH; [done..|].
    pose proof (unvisited_visit g V v Hv). lia.
Qed.

End Loop.

(** C5.  [findPath(x, x)] is the path [x].  For two different ids the
    search ends with a path or with [null], never for want of
    iterations.  A path it returns starts at [x], ends at [y], and joins
    each id to the next by a connection of the flow graph; no path from
    [x] to [y] has fewer ids; and among the paths of that length it is
    the first in the order of the adjacency lists: numbering each step
    by the place of its connection in the list of the id it leaves, the
    numbers of the path returned come before those of every other way
    from [x] to [y], the shorter first and equal lengths compared from
    the left.  [null] is returned only when no path leads from [x] to
    [y].  With [A -> B], [A -> C], [B -> D], [C -> D] the path from [A]
    to [D] goes through [B]; with the first two lines exchanged it goes
    through [C]. *)
Theorem findPath_shortest (a : AnimationSystem) (x y : value) :
  let g := flowGraph a in
  findPath a x x = Path [x]
  ∧ (if decide (x = y) then findPath a x y = Path [x]
     else
       match findPath a x y with
       | Path p =>
           head p = Some x ∧ last p = Some y ∧ walk g p
           ∧ (∀ q, head q = Some x → last q = Some y → walk g q →
                   length p ≤ length q)
           ∧ ∃ K, follow g x K = Some p
                  ∧ ∀ J q, follow g x J = Some q → last q = Some y → sle K J
       | NoPath => ∀ q, head q = Some x → last q = Some y → ¬ walk g q
       | Exhausted => False
       end)
  ∧ findPath (boot (text ["A -> B"; "A -> C"; "B -> D"; "C -> D"]))
      (str "A") (str "D") = Path [str "A"; str "B"; str "D"]
  ∧ findPath (boot (text ["A -> C"; "A -> B"; "B -> D"; "C -> D"]))
      (str "A") (str "D") = Path [str "A"; str "C"; str "D"].
Proof.
  intros g.
  split; [unfold findPath; by rewrite decide_True|].
  split; [|split; vm_compute; reflexivity].
  destruct (decide (x = y)) as [->|Hxy]; [unfold findPath; by rewrite decide_True|].
  unfold findPath. rewrite decide_False by done. fold g.
  pose proof (search_spec g x y Hxy (edgeCount g + 2) ∅ [(x, [x])] (λ _, []) [[]]
                x (length (adj g x)) (searching_start g x y Hxy) (le_n _)) as Hspec.
  lapply Hspec; [clear Hspec; intros Hspec|].
  2: { rewrite unvisited_empty. simpl. lia. }
  destruct (Animation.search (edgeCount g + 2) g y ∅ [(x, [x])]) as [p| |].
  - destruct Hspec as (Hl & K & HK & Hleast).
    destruct (follow_walk g x K p HK) as (Hh & Hw & Hlen).
    split; [done|]. split; [done|]. split; [done|]. split; [|by exists K].
    intros q Hqh Hql Hqw.
    destruct (walk_follow g q x Hqh Hqw) as (J & HJ).
    destruct (follow_walk g x J q HJ) as (_ & _ & HlenJ).
    pose proof (sle_length _ _ (Hleast J q HJ Hql)). lia.
  - intros q Hqh Hql Hqw.
    destruct (walk_follow g q x Hqh Hqw) as (J & HJ).
    by apply (Hspec J q HJ).
  - done.
Qed.

(** * Further properties *)

(** ** What the flow graph holds *)

Section Adjacency.
Implicit Types (g : gmap value (list Edge)) (k : value)
  (conns : list Connection).

Lemma adj_addEdge g c k :
  adj (addEdge g c) k
  = if decide (conn_from c = k) then adj g k ++ [edgeOf c] else adj g k.
Proof.
  unfold addEdge. fold (edgeOf c). set (from := conn_from c).
  destruct (decide (from = k)) as [<-|Hne].
  - destruct (decide (is_Some (g !! from))) as [Hs|Hn].
    + unfold adj at 1. by rewrite lookup_insert_eq.
    + unfold adj at 1. rewrite lookup_insert_eq. simpl.
      unfold adj. rewrite lookup_insert_eq.
      destruct (g !! from) eqn:E; [|done]. exfalso. apply Hn. eauto.
  - unfold adj at 1. rewrite lookup_insert_ne by done.
    destruct (decide (is_Some (g !! from))); [done|].
    by rewrite lookup_insert_ne.
Qed.

Lemma adj_fold conns g k :
  adj (fold_left addEdge conns g) k
  = adj g k ++ (edgeOf <$> filter (λ c, conn_from c = k) conns).
Proof.
  revert g. induction conns as [|c conns IH]; intros g; simpl.
  - by rewrite app_nil_r.
  - rewrite IH, adj_addEdge, filter_cons. cbn beta.
    destruct (decide (conn_from c = k)); [|done].
    simpl. by rewrite <- app_assoc.
Qed.

Lemma key_addEdge g c k :
  is_Some (addEdge g c !! k) ↔ is_Some (g !! k) ∨ conn_from c = k.
Proof.
  unfold addEdge. set (from := conn_from c).
  destruct (decide (from = k)) as [<-|Hne].
  - rewrite lookup_insert_eq. split; [by right|eauto].
  - rewrite lookup_insert_ne by done.
    destruct (decide (is_Some (g !! from))).
    + split; [by left|by intros [?|?]].
    + rewrite lookup_insert_ne by done. split; [by left|by intros [?|?]].
Qed.

Lemma key_fold conns g k :
  is_Some (fold_left addEdge conns g !! k)
  ↔ is_Some (g !! k) ∨ k ∈ conn_from <$> conns.
Proof.
  revert g. induction conns as [|c conns IH]; intros g; simpl.
  - split; [by left|]. intros [?|?%elem_of_nil]; done.
  - rewrite IH, key_addEdge, elem_of_cons. naive_solver.
Qed.

Lemma dom_initialize conns a :
  dom (flowGraph (initialize conns a)) = list_to_set (conn_from <$> conns).
Proof.
  apply set_eq. intros k. rewrite elem_of_dom, elem_of_list_to_set.
  unfold initialize, buildFlowGraph. simpl. rewrite key_fold, lookup_empty.
  split; [intros [[? ?]|?]; done|by right].
Qed.

Lemma size_list_to_set_le (l : list value) :
  size (list_to_set l : gset value) ≤ length l.
Proof.
  induction l as [|v l IH].
  - rewrite list_to_set_nil, size_empty. done.
  - rewrite list_to_set_cons, size_union_alt, size_singleton. simpl.
    pose proof (subseteq_size (list_to_set l ∖ {[v]} : gset value)
                  (list_to_set l)) as H.
    lapply H; [lia|set_solver].
Qed.

End Adjacency.

(** X1. After [initialize], the adjacency list of an id holds one entry
    for each stored connection that leaves the id, in the order of the
    connections and with their targets, ids and labels; an id is a key
    of the graph exactly when a connection leaves it; and building the
    graph once more changes nothing. *)
Theorem flowGraph_keeps_connection_order (conns : list Connection)
    (a : AnimationSystem) (k : value) :
  adj (flowGraph (initialize conns a)) k
  = edgeOf <$> filter (λ c, conn_from c = k) conns
  ∧ (is_Some (flowGraph (initialize conns a) !! k) ↔ k ∈ conn_from <$> conns)
  ∧ connections (initialize conns a) = conns
  ∧ buildFlowGraph (initialize conns a) = initialize conns a.
Proof.
  split; [|split; [|done]].
  - unfold initialize, buildFlowGraph. simpl.
    rewrite adj_fold. unfold adj. by rewrite lookup_empty.
  - rewrite <- elem_of_dom, dom_initialize. apply elem_of_list_to_set.
Qed.

(** X2. After [initialize], [getStats] counts all the connections handed
    over, and as nodes the distinct ids that connections leave: never
    more nodes than connections, and at least one node when there is a
    connection. *)
Theorem getStats_after_initialize (conns : list Connection)
    (a : AnimationSystem) :
  let stats := getStats (initialize conns a) in
  connectionCount stats = length conns
  ∧ nodeCount stats = size (list_to_set (conn_from <$> conns) : gset value)
  ∧ nodeCount stats ≤ connectionCount stats
  ∧ (nodeCount stats = 0 ↔ conns = [])
  ∧ stat_isAnimating stats = isAnimating a
  ∧ speed stats = animationSpeed a.
Proof.
  cbv zeta. unfold getStats. cbn [connectionCount nodeCount stat_isAnimating speed].
  assert (size (flowGraph (initialize conns a))
          = size (list_to_set (conn_from <$> conns) : gset value)) as Hsize.
  { by rewrite <- (dom_initialize conns a), size_dom. }
  rewrite Hsize.
  split; [done|]. split; [done|]. split.
  { pose proof (size_list_to_set_le (conn_from <$> conns)) as H.
    rewrite length_fmap in H. done. }
  split; [|done].
  split.
  - intros H0. apply size_empty_inv in H0.
    destruct conns as [|c conns]; [done|]. exfalso.
    assert (conn_from c ∈ (∅ : gset value)) as Hin; [|set_solver].
    rewrite <- (leibniz_equiv _ _ H0), elem_of_list_to_set, fmap_cons.
    apply list_elem_of_here.
  - intros ->. rewrite fmap_nil, list_to_set_nil. by rewrite size_empty.
Qed.

(** ** Speed *)

(** X3. [setSpeed] keeps the speed between 0.1 and 5 whatever it is
    given, takes a value over exactly when the value lies in that range,
    and touches nothing else; the delays that are scaled by the speed
    are therefore positive and bounded: the 300 ms step lasts between 60
    and 3000 ms. *)
Theorem setSpeed_clamps (v : Q) (a : AnimationSystem) :
  let a' := setSpeed v a in
  (1 # 10 <= animationSpeed a')%Q
  ∧ (animationSpeed a' <= 5)%Q
  ∧ (animationSpeed a' == v ↔ (1 # 10 <= v)%Q ∧ (v <= 5)%Q)
  ∧ (60 <= 300 / animationSpeed a')%Q
  ∧ (300 / animationSpeed a' <= 3000)%Q
  ∧ flowGraph a' = flowGraph a
  ∧ connections a' = connections a
  ∧ isAnimating a' = isAnimating a
  ∧ canvas a' = canvas a.
Proof.
  cbv zeta. unfold setSpeed. cbn [animationSpeed flowGraph connections isAnimating canvas].
  assert (1 # 10 <= Qmax (1 # 10) (Qmin 5 v))%Q as Hlo by apply Q.le_max_l.
  assert (Qmax (1 # 10) (Qmin 5 v) <= 5)%Q as Hhi.
  { apply Q.max_lub; [done|apply Q.le_min_l]. }
  split; [done|]. split; [done|]. split.
  { split.
    - intros <-. done.
    - intros [H1 H2]. rewrite (Q.min_r 5 v) by done. by apply Q.max_r. }
  split.
  { apply Qle_shift_div_l; [lra|lra]. }
  split; [|done].
  apply Qle_shift_div_r; [lra|lra].
Qed.

(** ** What a parse leaves behind *)

Section Sound.
Import Invariant.
Implicit Types (p : Parser) (m : ObjectMap) (k : value) (o : UmlObject).

Lemma set_Forall (P : value * UmlObject → Prop) m k o :
  Forall P m → P (k, o) → Forall P (Parser.set k o m).
Proof.
  intros Hm Ho. induction Hm as [|[k' o'] m Hk' Hm IH]; simpl.
  - by constructor.
  - destruct (decide (k' = k)) as [->|_]; by constructor.
Qed.

Lemma has_set m k o : has k (Parser.set k o m) = true.
Proof.
  unfold has. induction m as [|[k' o'] m IH]; simpl.
  - by rewrite decide_True.
  - destruct (decide (k' = k)) as [->|Hne]; simpl.
    + by rewrite decide_True.
    + by rewrite decide_False.
Qed.

Lemma has_extends p p' k :
  extends p p' → has k (objects p) = true → has k (objects p') = true.
Proof.
  intros [Hget _]. unfold has.
  destruct (get k (objects p)) as [o|] eqn:E; [|done].
  by rewrite (Hget k o E).
Qed.

Lemma sound_new : sound Parser.new.
Proof.
  split; [constructor|]. split.
  - by intros m ?%elem_of_nil.
  - by intros i c.
Qed.

(** [addObject] with an id and a name that are strings with a
    character. *)
Lemma addObject_sound i n type p :
  i ≠ "" → n ≠ "" → sound p →
  ∃ p', addObject (str i) (str n) type p = Normal p'
        ∧ sound p' ∧ extends p p'
        ∧ has (str i) (objects p') = true
        ∧ Parser.connections p' = Parser.connections p.
Proof.
  intros Hi Hn (Hb & Hj & Hid).
  destruct (addObject (str i) (str n) type p) as [p'|] eqn:E.
  2: { unfold addObject in E. by destruct (has (str i) (objects p)). }
  exists p'. split; [done|].
  pose proof (addObject_extends _ _ _ _ _ E) as Hext.
  unfold addObject in E.
  destruct (has (str i) (objects p)) eqn:Hhas.
  { injection E as <-. split; [by split|]. split; [done|]. by split. }
  simpl in E. injection E as <-. cbn [objects Parser.connections].
  split; [|split; [done|split; [apply has_set|done]]].
  split; [|split; [|done]].
  - apply set_Forall; [done|]. cbn [fst snd id]. split; [|done].
    exists i, n. cbn [id name x y width height].
    split; [done|]. split; [done|]. split.
    { unfold Js.or. by destruct n. }
    by repeat split.
  - intros m Hm. destruct (Hj m Hm) as [H1 H2].
    split; eapply (has_extends p); eauto.
Qed.

Lemma declaration_groups (kw line : string) (m : captures) :
  jsmatch (declaration kw) line = Some m →
  ∃ i n, Js.or (group 2 m) (group 3 m) = str i ∧ i ≠ ""
         ∧ Js.or (group 1 m) (group 3 m) = str n ∧ n ≠ "".
Proof.
  intros H. apply jsmatch_binds in H. unfold declaration in H.
  cbn [seq binds consuming] in H. open_binds.
  - match goal with
    | H1 : true = true → ?t1 ≠ "", H2 : true = true → ?t2 ≠ ""
      |- context [[(2, ?t2); (1, ?t1)]] =>
        exists t2, t1; specialize (H1 eq_refl); specialize (H2 eq_refl);
        destruct t1; [done|]; destruct t2; [done|]; done
    end.
  - match goal with
    | H3 : true = true → ?t ≠ "" |- _ =>
        exists t, t; specialize (H3 eq_refl); by destruct t
    end.
Qed.

Lemma declarationLoop_sound ps line p r :
  Forall (λ pt, ∃ kw, pt.1 = declaration kw) ps →
  sound p →
  declarationLoop ps line p = Some r →
  ∃ p', r = Normal p' ∧ sound p' ∧ extends p p'
        ∧ Parser.connections p' = Parser.connections p.
Proof.
  intros Hps Hp. induction Hps as [|[re ty] ps (kw & Hkw) _ IH]; simpl; [done|].
  simpl in Hkw. subst re.
  destruct (jsmatch (declaration kw) line) as [m|] eqn:E; [|done].
  intros [= <-].
  destruct (declaration_groups _ _ _ E) as (i & n & -> & Hi & -> & Hn).
  destruct (addObject_sound i n ty p Hi Hn Hp) as (p' & -> & ? & ? & _ & ?).
  by exists p'.
Qed.

Lemma truthy_nonempty (v : value) :
  truthy v = true → ∃ t, v = str t ∧ t ≠ "".
Proof. destruct v as [| |[|a t]]; simpl; try done. intros _. by eexists. Qed.

Lemma referenceLoop_sound ps line p r :
  sound p →
  referenceLoop ps line p = Some r →
  ∃ p', r = Normal p' ∧ sound p' ∧ extends p p'
        ∧ Parser.connections p' = Parser.connections p.
Proof.
  intros Hp. induction ps as [|re ps IH]; simpl; [done|].
  destruct (jsmatch re line) as [m|]; [|done].
  destruct (truthy (group 1 m)) eqn:E1; simpl; [|done].
  apply truthy_nonempty in E1 as (t1 & -> & H1).
  destruct (addObject_sound t1 t1 participant p H1 H1 Hp)
    as (p1 & Ep1 & Hp1 & X1 & _ & C1).
  destruct (truthy (group 3 m)) eqn:E3; simpl; intros [= <-].
  - apply truthy_nonempty in E3 as (t3 & -> & H3).
    rewrite Ep1. simpl.
    destruct (addObject_sound t3 t3 participant p1 H3 H3 Hp1)
      as (p2 & Ep2 & Hp2 & X2 & _ & C2).
    exists p2. split; [done|]. split; [done|].
    split; [by eapply extends_trans|congruence].
  - by exists p1.
Qed.

Lemma parseObjectDefinition_sound line p :
  sound p →
  ∃ p', parseObjectDefinition line p = Normal p' ∧ sound p' ∧ extends p p'
        ∧ Parser.connections p' = Parser.connections p.
Proof.
  intros Hp. unfold parseObjectDefinition.
  destruct (declarationLoop declarationPatterns line p) as [r|] eqn:E1.
  { eapply declarationLoop_sound; [|done|done].
    unfold declarationPatterns. repeat constructor; simpl; eauto. }
  destruct (referenceLoop referencePatterns line p) as [r|] eqn:E2.
  { by eapply referenceLoop_sound. }
  assert (∃ p', Normal p = Normal p' ∧ sound p' ∧ extends p p'
                ∧ Parser.connections p' = Parser.connections p) as Hsame.
  { exists p. split; [done|]. split; [done|]. split; [apply extends_refl|done]. }
  destruct (jsmatch notePattern line) as [m|]; [|done].
  destruct (truthy (group 2 m)) eqn:E; [|done].
  apply truthy_nonempty in E as (t & -> & Ht).
  destruct (addObject_sound t t participant p Ht Ht Hp)
    as (p1 & Ep1 & Hp1 & X1 & _ & C1).
  by exists p1.
Qed.

(** Both ends of a connection pattern that matched hold a character. *)
Lemma labelled_tokens (a line : string) (m : captures) :
  jsmatch (labelled (Lit a)) line = Some m →
  ∃ t1 t3, group 1 m = str t1 ∧ group 3 m = str t3 ∧ t1 ≠ "" ∧ t3 ≠ "".
Proof.
  intros H. apply jsmatch_binds in H. unfold labelled, token in H.
  cbn [seq binds consuming andb] in H. open_binds;
    eexists _, _; (split; [reflexivity|]); (split; [reflexivity|]); auto.
Qed.

Lemma unlabelled_tokens (a line : string) (m : captures) :
  jsmatch (unlabelled (Lit a)) line = Some m →
  ∃ t1 t3, group 1 m = str t1 ∧ group 3 m = str t3 ∧ t1 ≠ "" ∧ t3 ≠ "".
Proof.
  intros H. apply jsmatch_binds in H. unfold unlabelled, token in H.
  cbn [seq binds consuming andb] in H. open_binds;
    eexists _, _; (split; [reflexivity|]); (split; [reflexivity|]); auto.
Qed.

Lemma addConnection_sound t1 t3 lbl arrow ctype p :
  t1 ≠ "" → t3 ≠ "" → sound p →
  ∃ p', addConnection (str t1) (str t3) lbl arrow ctype p = Normal p'
        ∧ sound p' ∧ extends p p'.
Proof.
  intros H1 H3 Hp. unfold addConnection.
  destruct (addObject_sound t1 t1 participant p H1 H1 Hp)
    as (p1 & -> & Hp1 & X1 & I1 & C1). simpl.
  destruct (addObject_sound t3 t3 participant p1 H3 H3 Hp1)
    as (p2 & -> & Hp2 & X2 & I2 & C2). simpl.
  eexists. split; [done|].
  destruct Hp2 as (Hb & Hj & Hid).
  split.
  - split; [done|]. cbn [objects Parser.connections]. split.
    + intros m [Hm|Hm]%elem_of_app.
      * by apply Hj.
      * apply list_elem_of_singleton in Hm. injection Hm as ->.
        cbn [from Parser.to]. split; [|done].
        by apply (has_extends p1).
    + intros i c Hic. apply lookup_app_Some in Hic as [Hic|[Hlen Hic]].
      * by apply Hid.
      * destruct (i - length (Parser.connections p2)) as [|j] eqn:Ej; [|done].
        injection Hic as <-. simpl.
        assert (i = length (Parser.connections p2)) as -> by lia. done.
  - eapply extends_trans; [done|]. eapply extends_trans; [done|].
    split; [done|]. done.
Qed.

Lemma connectionLoop_sound ps line p r :
  Forall (λ pat, ∃ a, regex pat = labelled (Lit a)
                      ∨ regex pat = unlabelled (Lit a)) ps →
  sound p →
  connectionLoop ps line p = Some r →
  ∃ p', r = Normal p' ∧ sound p' ∧ extends p p'.
Proof.
  intros Hps Hp. induction Hps as [|pat ps (a & Hpat) _ IH]; simpl; [done|].
  destruct (jsmatch (regex pat) line) as [m|] eqn:E; [|done].
  intros [= <-].
  assert (∃ t1 t3, group 1 m = str t1 ∧ group 3 m = str t3 ∧ t1 ≠ "" ∧ t3 ≠ "")
    as (t1 & t3 & -> & -> & H1 & H3).
  { destruct Hpat as [Hp'|Hp']; rewrite Hp' in E;
      eauto using labelled_tokens, unlabelled_tokens. }
  destruct (reverse pat); by apply addConnection_sound.
Qed.

Lemma parseConnection_sound line p :
  sound p →
  ∃ p', parseConnection line p = Normal p' ∧ sound p' ∧ extends p p'.
Proof.
  intros Hp. unfold parseConnection.
  destruct (connectionLoop connectionPatterns line p) as [r|] eqn:E.
  { eapply connectionLoop_sound; [|done|done].
    unfold connectionPatterns. repeat constructor; simpl; eauto. }
  destruct (jsmatch activatePattern line) as [m|].
  2: { exists p. split; [done|]. split; [done|apply extends_refl]. }
  eexists. split; [done|]. destruct Hp as (Hb & Hj & Hid).
  split; [|by split].
  split; [done|]. cbn [objects Parser.connections]. split.
  - intros m' [Hm|Hm]%elem_of_app; [by apply Hj|].
    by apply list_elem_of_singleton in Hm.
  - intros i c Hic. apply lookup_app_Some in Hic as [Hic|[Hlen Hic]].
    + by apply Hid.
    + destruct (i - length (Parser.connections p)) as [|j] eqn:Ej; [|done].
      injection Hic as <-. simpl.
      assert (i = length (Parser.connections p)) as -> by lia. done.
Qed.

Lemma forEach_sound (f : string → Parser → completion Parser) ls p :
  (∀ line q, sound q → ∃ q', f line q = Normal q' ∧ sound q' ∧ extends q q') →
  sound p →
  ∃ p', Parser.forEach f ls p = Normal p' ∧ sound p' ∧ extends p p'.
Proof.
  intros Hf. revert p. induction ls as [|l ls IH]; intros p Hp; simpl.
  - exists p. split; [done|]. split; [done|apply extends_refl].
  - destruct (Hf l p Hp) as (q & -> & Hq & Xq). simpl.
    destruct (IH q Hq) as (p' & -> & Hp' & Xp').
    exists p'. split; [done|]. split; [done|by eapply extends_trans].
Qed.

Lemma parse_sound text p :
  ∃ p', sound p'
        ∧ parse (str text) p
          = Normal {| d_objects := values (objects p');
                      d_connections := Parser.connections p' |}.
Proof.
  unfold parse, reset. fold Parser.new.
  destruct (forEach_sound parseObjectDefinition (lines text) Parser.new)
    as (p1 & -> & Hp1 & _); [|apply sound_new|].
  { intros line q Hq.
    destruct (parseObjectDefinition_sound line q Hq) as (q' & ? & ? & ? & _).
    by exists q'. }
  simpl.
  destruct (forEach_sound parseConnection (lines text) p1
              parseConnection_sound Hp1) as (p2 & -> & Hp2 & _).
  simpl. by exists p2.
Qed.

(** The model of a text, with what [sound] says of it. *)
Lemma parse_model text p :
  ∃ d, parse (str text) p = Normal d
       ∧ Forall boxed (d_objects d)
       ∧ (∀ e, Msg e ∈ d_connections d →
               from e ∈ id <$> d_objects d
               ∧ Parser.to e ∈ id <$> d_objects d)
       ∧ (∀ i c, d_connections d !! i = Some c → conn_id c = idAt i c).
Proof.
  destruct (parse_sound text p) as (p' & (Hb & Hj & Hid) & ->).
  eexists. split; [done|]. cbn [d_objects d_connections].
  split; [|split; [|done]].
  - unfold values. apply Forall_fmap.
    eapply Forall_impl; [exact Hb|]. by intros kv [? _].
  - assert (∀ k, has k (objects p') = true → k ∈ id <$> values (objects p'))
      as Hin.
    { intros k Hk. unfold has in Hk.
      destruct (get k (objects p')) as [o|] eqn:E; [|done].
      apply get_Some_elem in E.
      rewrite Forall_forall in Hb. destruct (Hb _ E) as [_ Hko].
      simpl in Hko. apply list_elem_of_fmap. exists o. split; [done|].
      unfold values. apply list_elem_of_fmap. by exists (k, o). }
    intros m Hm. destruct (Hj m Hm) as [H1 H2]. split; by apply Hin.
Qed.

End Sound.

(** X4. Every object of a parsed model was made by [addObject] of an id
    and a name that hold at least one character: it lies at the origin,
    is 60 high, and is as wide as eight times the length of its name
    plus 40, but 120 at least. *)
Theorem parse_objects_are_boxed (text : string) (p : Parser) :
  ∃ d, parse (str text) p = Normal d
       ∧ Forall Invariant.boxed (d_objects d)
       ∧ Forall (λ o, (120 <= width o)%Q) (d_objects d).
Proof.
  destruct (parse_model text p) as (d & Hparse & Hboxed & _).
  exists d. split; [done|]. split; [done|].
  eapply Forall_impl; [exact Hboxed|].
  intros o (i & n & _ & _ & _ & _ & _ & _ & -> & _). apply Q.le_max_r.
Qed.

(** X5. Every message of a parsed model runs between two objects of the
    model: its [from] and its [to] are ids of objects, and strings, so
    that the canvas finds both ends when it draws the connection. *)
Theorem parse_messages_have_ends (text : string) (p : Parser) :
  ∃ d, parse (str text) p = Normal d
       ∧ ∀ m, Msg m ∈ d_connections d →
              from m ∈ id <$> d_objects d
              ∧ Parser.to m ∈ id <$> d_objects d
              ∧ from m ≠ null ∧ Parser.to m ≠ null.
Proof.
  destruct (parse_model text p) as (d & Hparse & Hboxed & Hends & _).
  exists d. split; [done|]. intros m Hm.
  assert (∀ k, k ∈ id <$> d_objects d → k ≠ null) as Hstr.
  { intros k (o & -> & Ho)%list_elem_of_fmap.
    rewrite Forall_forall in Hboxed.
    destruct (Hboxed o Ho) as (i & _ & Hi & _). congruence. }
  destruct (Hends m Hm) as [H1 H2]. auto.
Qed.

(** ** Connection ids *)

Section Ids.
Import Invariant.

Lemma append_cons a (s t : string) : String a s +:+ t = String a (s +:+ t).
Proof. reflexivity. Qed.

Lemma append_nil (t : string) : "" +:+ t = t.
Proof. reflexivity. Qed.

Lemma append_assoc (s1 s2 s3 : string) :
  (s1 +:+ s2) +:+ s3 = s1 +:+ (s2 +:+ s3).
Proof.
  induction s1 as [|a s1 IH]; [done|]. by rewrite !append_cons, IH.
Qed.

Lemma occurs_app a s1 s2 :
  occurs a (s1 +:+ s2) = occurs a s1 || occurs a s2.
Proof.
  induction s1 as [|b s1 IH]; [done|].
  rewrite append_cons. simpl. by rewrite IH, orb_assoc.
Qed.

(** What follows the last dash of a string is what it is. *)
Lemma last_dash s1 s2 d1 d2 :
  occurs dash d1 = false → occurs dash d2 = false →
  s1 +:+ String dash d1 = s2 +:+ String dash d2 → d1 = d2.
Proof.
  intros H1 H2. revert s2. induction s1 as [|a s1 IH]; intros [|b s2];
    rewrite ?append_cons, ?append_nil.
  - by intros [= ->].
  - intros [= <- ->]. rewrite occurs_app in H1. simpl in H1.
    rewrite orb_true_r in H1. done.
  - intros [= -> <-]. rewrite occurs_app in H2. simpl in H2.
    rewrite orb_true_r in H2. done.
  - intros [= _ H]. by apply (IH s2).
Qed.

Lemma pretty_N_char_digit (y : N) : Ascii.eqb dash (pretty_N_char y) = false.
Proof.
  unfold pretty_N_char. destruct y as [|p]; [done|].
  repeat (destruct p as [p|p|]; try done).
Qed.

Lemma pretty_N_go_digits (x : N) (s : string) :
  occurs dash s = false → occurs dash (pretty_N_go x s) = false.
Proof.
  revert s. induction (N.lt_wf_0 x) as [x _ IH]; intros s Hs.
  assert (x = 0 ∨ 0 < x)%N as [->|Hx] by lia.
  - by rewrite pretty_N_go_0.
  - rewrite pretty_N_go_step by done. apply IH.
    + by apply N.div_lt.
    + cbn [occurs]. by rewrite Hs, orb_false_r, pretty_N_char_digit.
Qed.

Lemma pretty_digits (n : nat) : occurs dash (pretty n) = false.
Proof.
  unfold pretty, pretty_nat, pretty, pretty_N.
  destruct (decide (N.of_nat n = 0)%N); [done|].
  by apply pretty_N_go_digits.
Qed.

Lemma idAt_inj i j c c' : idAt i c = idAt j c' → i = j.
Proof.
  intros H. apply (inj pretty).
  assert (∀ k c, ∃ stem, idAt k c = stem +:+ String dash (pretty k)) as Hstem.
  { intros k [m|?]; unfold idAt.
    - exists (to_string (from m) +:+ "-" +:+ to_string (Parser.to m)).
      by rewrite !append_assoc.
    - exists "command". reflexivity. }
  destruct (Hstem i c) as (s1 & E1), (Hstem j c') as (s2 & E2).
  rewrite E1, E2 in H.
  eapply last_dash; [apply pretty_digits|apply pretty_digits|exact H].
Qed.

Lemma ids_NoDup (cs : list Connection) :
  (∀ i c, cs !! i = Some c → conn_id c = idAt i c) →
  NoDup (conn_id <$> cs).
Proof.
  intros Hid. apply NoDup_alt. intros i j s Hi Hj.
  apply list_lookup_fmap_Some in Hi as (c & -> & Hc).
  apply list_lookup_fmap_Some in Hj as (c' & E & Hc').
  rewrite (Hid i c Hc), (Hid j c' Hc') in E. by apply idAt_inj in E.
Qed.

End Ids.

(** X6. The connections of a parsed model carry the number of their
    place: the message at place [i] has the id [from-to-i], the command
    marker at place [i] the id [command-i]; and no two connections of a
    model have the same id, whatever the names in it. *)
Theorem parse_connection_ids_distinct (text : string) (p : Parser) :
  ∃ d, parse (str text) p = Normal d
       ∧ (∀ i c, d_connections d !! i = Some c →
                 conn_id c = Invariant.idAt i c)
       ∧ NoDup (conn_id <$> d_connections d).
Proof.
  destruct (parse_model text p) as (d & Hparse & _ & _ & Hid).
  exists d. split; [done|]. split; [done|]. by apply ids_NoDup.
Qed.

(** ** From the text to the canvas *)

Section Draw.
Import Invariant.

Lemma imap_ids (f : nat → UmlObject → UmlObject) (objs : list UmlObject) :
  (∀ i o, id (f i o) = id o) → id <$> imap f objs = id <$> objs.
Proof.
  revert f. induction objs as [|o objs IH]; intros f Hf; [done|].
  simpl. rewrite Hf. f_equal. apply IH. intros i o'. apply Hf.
Qed.

Lemma autoLayout_ids (objs : list UmlObject) (w h : Q) :
  id <$> autoLayout objs w h = id <$> objs.
Proof.
  unfold autoLayout. destruct (length objs =? 0); [done|].
  by apply imap_ids.
Qed.

Lemma same_id_same_connection (cs : list Connection) (c c' : Connection) :
  NoDup (conn_id <$> cs) → c ∈ cs → c' ∈ cs → conn_id c = conn_id c' → c = c'.
Proof.
  intros Hnd [i Hi]%list_elem_of_lookup [j Hj]%list_elem_of_lookup E.
  assert (i = j) as ->; [|congruence].
  eapply NoDup_alt; [exact Hnd| |].
  - by apply list_lookup_fmap_Some_2.
  - rewrite E. by apply list_lookup_fmap_Some_2.
Qed.

End Draw.

(** X7. [generateDiagram] leaves the animator as it is when the trimmed
    input is empty or gives no object.  Otherwise the animator holds the
    connections of the parsed model, command markers included, and the
    canvas has an element for every object and for every message of the
    model, no element for a command marker, and no highlight; the
    running flag is not touched, so a run in progress goes on. *)
Theorem generateDiagram_draws_model (input : string) (a : AnimationSystem) :
  ∃ d, parse (str (trim input)) Parser.new = Normal d
       ∧ if bool_decide (trim input = "") || (length (d_objects d) =? 0)
         then generateDiagram input a = Normal a
         else ∃ a', generateDiagram input a = Normal a'
                ∧ Animation.connections a' = d_connections d
                ∧ isAnimating a' = isAnimating a
                ∧ animationSpeed a' = animationSpeed a
                ∧ commands (canvas a') = commands (canvas a)
                ∧ highlighted (canvas a') = ∅
                ∧ active (canvas a') = ∅
                ∧ (∀ o, o ∈ d_objects d →
                        to_string (id o) ∈ objectElements (canvas a'))
                ∧ (∀ c, c ∈ d_connections d →
                        conn_id c ∈ connectionElements (canvas a')
                        ↔ is_command c = false).
Proof.
  destruct (parse_model (trim input) Parser.new)
    as (d & Hparse & Hboxed & Hends & Hid).
  exists d. split; [done|].
  unfold generateDiagram.
  destruct (bool_decide (trim input = "")) eqn:Hempty; [done|].
  rewrite Hparse. simpl.
  destruct (length (d_objects d) =? 0) eqn:Hnone; [done|].
  eexists. split; [reflexivity|].
  cbn [initialize buildFlowGraph Animation.connections isAnimating
       animationSpeed canvas with_canvas render commands highlighted active
       objectElements connectionElements d_objects d_connections].
  repeat (split; [reflexivity|]).
  rewrite autoLayout_ids. split.
  - intros o Ho. apply elem_of_list_to_set.
    apply list_elem_of_fmap_2. by apply list_elem_of_fmap_2.
  - intros c Hc. rewrite elem_of_list_to_set. split.
    + intros (c' & E & Hc')%list_elem_of_fmap.
      apply list_elem_of_In, filter_In in Hc' as [Hc' Hf].
      apply list_elem_of_In in Hc'.
      assert (c = c') as <-.
      { eapply same_id_same_connection; [|done|done|done]. by apply ids_NoDup. }
      apply andb_prop in Hf as [Hf _]. apply bool_decide_eq_true in Hf.
      apply elem_of_list_to_set in Hf.
      destruct c as [m|k]; [done|]. simpl in Hf.
      apply list_elem_of_fmap in Hf as (o & Ho & Hin).
      rewrite Forall_forall in Hboxed.
      destruct (Hboxed o Hin) as (t & _ & Ht & _). congruence.
    + intros Hmsg. destruct c as [m|k]; [|done].
      destruct (Hends m Hc) as (Hfrom & Hto).
      apply list_elem_of_fmap. exists (Msg m). split; [done|].
      apply list_elem_of_In, filter_In. split; [by apply list_elem_of_In|].
      apply andb_true_intro. split; apply bool_decide_eq_true;
        by apply elem_of_list_to_set.
Qed.

(** X8. Laid out on the 800 by 600 canvas, as [generateDiagram] does
    it, every object of a parsed text whose name has at most 82
    characters lies within the canvas, and indeed within its padding of
    50: such an object is at most 700 wide and 60 high. *)
Theorem parsed_objects_fit_canvas (text : string) :
  Forall (λ o, ∀ n, name o = str n → String.length n ≤ 82 →
                    inside 800 600 o
                    ∧ (50 <= x o)%Q ∧ (x o + width o <= 750)%Q
                    ∧ (50 <= y o)%Q ∧ (y o + height o <= 550)%Q)
         (autoLayout (objectsOf text) 800 600).
Proof.
  unfold objectsOf.
  destruct (parse_model text Parser.new) as (d & -> & Hboxed & _).
  rewrite Forall_forall in Hboxed. apply Forall_forall. intros o' Ho'.
  unfold autoLayout in Ho'.
  destruct (length (d_objects d) =? 0) eqn:E.
  { apply Nat.eqb_eq, nil_length_inv in E. rewrite E in Ho'.
    by apply elem_of_nil in Ho'. }
  apply elem_of_lookup_imap in Ho' as (i & o & -> & Hio).
  apply list_elem_of_lookup_2 in Hio.
  destruct (Hboxed o Hio) as (k & n' & _ & _ & Hname & _ & _ & _ & Hw & Hh).
  intros n Hn Hlen. cbn [place name] in Hn. rewrite Hname in Hn.
  injection Hn as ->.
  assert (width o <= 700)%Q as Hw700.
  { rewrite Hw. apply Q.max_lub; [|done].
    unfold ofnat.
    change 700%Q with (inject_Z 700). rewrite <- Zle_Qle. lia. }
  unfold inside, place. cbn [x y width height]. rewrite Hh.
  unfold padding.
  pose proof (clamp_lower 50 (50 + ofnat (i mod ceil_sqrt (length (d_objects d)))
      * ((800 - 50 * 2) / ofnat (ceil_sqrt (length (d_objects d))))
      + (800 - 50 * 2) / ofnat (ceil_sqrt (length (d_objects d))) / 2
      - width o / 2) (800 - width o - 50)) as Hx1.
  pose proof (clamp_upper 50 (50 + ofnat (i mod ceil_sqrt (length (d_objects d)))
      * ((800 - 50 * 2) / ofnat (ceil_sqrt (length (d_objects d))))
      + (800 - 50 * 2) / ofnat (ceil_sqrt (length (d_objects d))) / 2
      - width o / 2) (800 - width o - 50)) as Hx2.
  lapply Hx2; [clear Hx2; intros Hx2|lra].
  set (yc := (50 + ofnat (i / ceil_sqrt (length (d_objects d)))
      * ((600 - 50 * 2) / ofnat (ceil_div (length (d_objects d))
                                   (ceil_sqrt (length (d_objects d)))))
      + (600 - 50 * 2) / ofnat (ceil_div (length (d_objects d))
                                  (ceil_sqrt (length (d_objects d)))) / 2
      - 60 / 2)%Q).
  pose proof (clamp_lower 50 yc (600 - 60 - 50)) as Hy1.
  pose proof (clamp_upper 50 yc (600 - 60 - 50)) as Hy2.
  lapply Hy2; [clear Hy2; intros Hy2|lra].
  repeat split; lra.
Qed.

(** X9. The speed keys of the application never reach the clamp of
    [setSpeed]: [adjustAnimationSpeed] keeps the slider between 0.5 and
    3, and the animator takes exactly the value of the slider. *)
Theorem adjustAnimationSpeed_matches_slider (delta currentSpeed : Q)
    (a : AnimationSystem) :
  let r := App.adjustAnimationSpeed delta currentSpeed a in
  animationSpeed r.2 == r.1
  ∧ (5 # 10 <= r.1)%Q ∧ (r.1 <= 3)%Q
  ∧ (r.1 == currentSpeed + delta
     ↔ (5 # 10 <= currentSpeed + delta)%Q ∧ (currentSpeed + delta <= 3)%Q)
  ∧ flowGraph r.2 = flowGraph a
  ∧ isAnimating r.2 = isAnimating a.
Proof.
  cbv zeta. unfold App.adjustAnimationSpeed, setSpeed.
  cbn [fst snd animationSpeed flowGraph isAnimating].
  set (v := (currentSpeed + delta)%Q).
  assert (5 # 10 <= Qmax (5 # 10) (Qmin 3 v))%Q as Hlo by apply Q.le_max_l.
  assert (Qmax (5 # 10) (Qmin 3 v) <= 3)%Q as Hhi.
  { apply Q.max_lub; [done|apply Q.le_min_l]. }
  split.
  { rewrite (Q.min_r 5) by lra. apply Q.max_r. lra. }
  split; [done|]. split; [done|]. split; [|done].
  split.
  - intros <-. done.
  - intros [H1 H2]. rewrite (Q.min_r 3 v) by done. by apply Q.max_r.
Qed.

(** ** Paths and what can be reached *)

Section Reach.
Variable g : gmap value (list Edge).

Lemma walk_reaches (q : list value) (x y : value) :
  head q = Some x → last q = Some y → walk g q → rtc (arc g) x y.
Proof.
  revert x. induction q as [|u q IH]; intros x; [done|].
  intros [= ->]. destruct q as [|v q].
  - intros [= ->] _. apply rtc_refl.
  - intros Hl [Huv Hw]. eapply rtc_l; [exact Huv|].
    apply IH; [done| |done]. by rewrite last_cons_cons in Hl.
Qed.

Lemma reaches_walk (x y : value) :
  rtc (arc g) x y →
  ∃ q, head q = Some x ∧ last q = Some y ∧ walk g q.
Proof.
  induction 1 as [x|x u y Hxu _ (q & Hh & Hl & Hw)].
  - by exists [x].
  - exists (x :: q). destruct q as [|v q]; [done|].
    injection Hh as ->. split; [done|]. split; [|done].
    by rewrite last_cons_cons.
Qed.

(** What [findPath] returns between two different ids. *)
Lemma findPath_walk (a : AnimationSystem) (x y : value) :
  flowGraph a = g → x ≠ y →
  match findPath a x y with
  | Path p => head p = Some x ∧ last p = Some y ∧ walk g p ∧ 2 ≤ length p
  | NoPath => ¬ rtc (arc g) x y
  | Exhausted => False
  end.
Proof.
  intros Hg Hxy. unfold findPath. rewrite decide_False by done. rewrite Hg.
  pose proof (search_spec g x y Hxy (edgeCount g + 2)
                ∅ [(x, [x])] (λ _, []) [[]] x (length (adj g x))
                (searching_start g x y Hxy) (le_n _)) as Hspec.
  lapply Hspec; [clear Hspec; intros Hspec|].
  2: { rewrite unvisited_empty. simpl. lia. }
  destruct (Animation.search (edgeCount g + 2) g y ∅ [(x, [x])])
    as [p| |]; [| |done].
  - destruct Hspec as (Hl & K & HK & _).
    destruct (follow_walk g x K p HK) as (Hh & Hw & Hlen).
    split; [done|]. split; [done|]. split; [done|].
    destruct K as [|n K]; [|simpl in Hlen; lia].
    injection HK as <-. simpl in Hl. congruence.
  - intros (q & Hh & Hl & Hw)%reaches_walk.
    destruct (walk_follow g q x Hh Hw) as (J & HJ).
    by apply (Hspec J q HJ).
Qed.

(** What [previewPath] lists. *)
Lemma previewPath_reach (a : AnimationSystem) (x : value) :
  flowGraph a = g →
  ∃ path, previewPath a x = Some path ∧ ∀ v, v ∈ path ↔ rtc (arc g) x v.
Proof.
  intros Hg. set (U := {[x]} ∪ nodes g : gset value).
  assert (nodes g ⊆ U) as HU by set_solver.
  assert (x ∈ U) as HxU by set_solver.
  destruct (traverse_grows g U HU (depth g) x (∅, []) HxU (depth_room g x))
    as (st' & Ht & G).
  unfold previewPath. rewrite Hg, Ht. simpl.
  exists st'.2. split; [done|].
  destruct G as (_ & R & C & added & P & N & M & E). simpl in *.
  rewrite P.
  assert (x ∈ st'.1) as Hx by (apply R, list_elem_of_here).
  assert (∀ v, rtc (arc g) x v → v ∈ st'.1) as Hreach.
  { apply (rtc_ind_r (λ v, v ∈ st'.1) x); [done|].
    intros u w _ Huw IH. apply (C u w); [done|set_solver|done]. }
  intros v. rewrite M. split.
  - intros [Hv _]. assert (v ∈ added) as Ha by (apply M; set_solver).
    destruct (E v Ha) as (r & ->%list_elem_of_singleton & Hr). done.
  - intros Hv. split; [by apply Hreach|set_solver].
Qed.

End Reach.

(** X10. [findPath] and [previewPath] agree on what can be reached:
    [findPath(x, y)] returns a path exactly for the ids [y] that
    [previewPath(x)] lists, and [null] for all the others; and the ids
    listed are those to which connections lead from [x]. *)
Theorem findPath_agrees_with_previewPath (a : AnimationSystem) (x : value) :
  ∃ path, previewPath a x = Some path
          ∧ ∀ y, (y ∈ path ↔ ∃ p, findPath a x y = Path p)
                 ∧ (y ∉ path ↔ findPath a x y = NoPath)
                 ∧ (y ∈ path ↔ rtc (arc (flowGraph a)) x y).
Proof.
  destruct (previewPath_reach (flowGraph a) a x eq_refl) as (path & Hp & Hin).
  exists path. split; [done|]. intros y.
  assert ((∃ p, findPath a x y = Path p) ↔ rtc (arc (flowGraph a)) x y) as Hfound.
  { destruct (decide (x = y)) as [->|Hxy].
    - split; [intros _; apply rtc_refl|]. intros _. exists [y].
      unfold findPath. by rewrite decide_True.
    - pose proof (findPath_walk (flowGraph a) a x y eq_refl Hxy) as H.
      destruct (findPath a x y) as [p| |]; [| |done].
      + destruct H as (Hh & Hl & Hw & _). split; [|by exists p].
        intros _. by eapply walk_reaches.
      + split; [by intros (p & ?)|]. intros Hr. by destruct H. }
  assert (findPath a x y = NoPath ↔ ¬ rtc (arc (flowGraph a)) x y) as Hnone.
  { rewrite <- Hfound. split.
    - intros -> (p & ?). done.
    - intros Hno. destruct (decide (x = y)) as [->|Hxy].
      + exfalso. apply Hno. exists [y]. unfold findPath. by rewrite decide_True.
      + pose proof (findPath_walk (flowGraph a) a x y eq_refl Hxy) as H.
        destruct (findPath a x y) as [p| |]; [|done|done].
        exfalso. apply Hno. by exists p. }
  rewrite Hfound, Hnone, Hin. done.
Qed.

(** ** Highlighting a path *)

Section Highlight.
Import Invariant.




End Highlight.


(** ** All flows *)

Section Starts.
Implicit Types (s : list value) (c : Connection) (conns : list Connection).

Lemma elem_of_add x y s : x ∈ add y s ↔ x ∈ s ∨ x = y.
Proof.
  unfold add. destruct (decide (y ∈ s)) as [Hy|Hy].
  - split; [by left|]. by intros [?| ->].
  - rewrite elem_of_app, list_elem_of_singleton. done.
Qed.

Lemma NoDup_add y s : NoDup s → NoDup (add y s).
Proof.
  intros Hs. unfold add. destruct (decide (y ∈ s)) as [Hy|Hy]; [done|].
  apply NoDup_app. split; [done|]. split; [|apply NoDup_singleton].
  intros x Hx ->%list_elem_of_singleton. done.
Qed.

Lemma head_add y s : s ≠ [] → head (add y s) = head s ∧ add y s ≠ [].
Proof.
  intros Hs. unfold add. destruct (decide (y ∈ s)); [done|].
  destruct s; [done|]. done.
Qed.

Lemma elem_of_ids conns s x :
  x ∈ fold_left (λ s c, add (conn_to c) (add (conn_from c) s)) conns s
  ↔ x ∈ s ∨ ∃ c, c ∈ conns ∧ (conn_from c = x ∨ conn_to c = x).
Proof.
  revert s. induction conns as [|c conns IH]; intros s; simpl.
  - split; [by left|]. intros [?|(c & ?%elem_of_nil & _)]; done.
  - rewrite IH, !elem_of_add. split.
    + intros [[[?| ->]| ->]|(c' & Hc' & H)].
      * by left.
      * right. exists c. split; [apply list_elem_of_here|by left].
      * right. exists c. split; [apply list_elem_of_here|by right].
      * right. exists c'. split; [by apply list_elem_of_further|done].
    + intros [?|(c' & [->|Hc']%elem_of_cons & H)].
      * by left; left; left.
      * left. destruct H as [<-|<-]; [by left; right|by right].
      * right. by exists c'.
Qed.

Lemma NoDup_ids conns s :
  NoDup s →
  NoDup (fold_left (λ s c, add (conn_to c) (add (conn_from c) s)) conns s).
Proof.
  revert s. induction conns as [|c conns IH]; intros s Hs; simpl; [done|].
  by apply IH, NoDup_add, NoDup_add.
Qed.

Lemma head_ids conns s :
  s ≠ [] →
  head (fold_left (λ s c, add (conn_to c) (add (conn_from c) s)) conns s)
  = head s.
Proof.
  revert s. induction conns as [|c conns IH]; intros s Hs; simpl; [done|].
  destruct (head_add (conn_from c) s Hs) as [H1 N1].
  destruct (head_add (conn_to c) _ N1) as [H2 N2].
  rewrite IH by done. congruence.
Qed.

Lemma elem_of_incoming conns s x :
  x ∈ fold_left (λ s c, add (conn_to c) s) conns s
  ↔ x ∈ s ∨ ∃ c, c ∈ conns ∧ conn_to c = x.
Proof.
  revert s. induction conns as [|c conns IH]; intros s; simpl.
  - split; [by left|]. intros [?|(c & ?%elem_of_nil & _)]; done.
  - rewrite IH, !elem_of_add. split.
    + intros [[?| ->]|(c' & Hc' & H)].
      * by left.
      * right. exists c. split; [apply list_elem_of_here|done].
      * right. exists c'. split; [by apply list_elem_of_further|done].
    + intros [?|(c' & [->|Hc']%elem_of_cons & H)].
      * by left; left.
      * left. by right.
      * right. by exists c'.
Qed.

Lemma elem_of_allObjectIds conns x :
  x ∈ allObjectIds conns ↔ ∃ c, c ∈ conns ∧ (conn_from c = x ∨ conn_to c = x).
Proof.
  unfold allObjectIds. rewrite elem_of_ids. split; [|by right].
  by intros [?%elem_of_nil|?].
Qed.

Lemma elem_of_objectsWithIncoming conns x :
  x ∈ objectsWithIncoming conns ↔ ∃ c, c ∈ conns ∧ conn_to c = x.
Proof.
  unfold objectsWithIncoming. rewrite elem_of_incoming. split; [|by right].
  by intros [?%elem_of_nil|?].
Qed.

Lemma head_allObjectIds conns :
  head (allObjectIds conns) = head (conn_from <$> conns).
Proof.
  destruct conns as [|c conns]; [done|]. unfold allObjectIds. simpl.
  rewrite head_ids.
  - unfold add at 2. simpl. destruct (decide (conn_from c ∈ [])) as [?%elem_of_nil|_]; [done|].
    simpl. unfold add. by destruct (decide (conn_to c ∈ [conn_from c])).
  - unfold add at 2. destruct (decide (conn_from c ∈ [])) as [?%elem_of_nil|_]; [done|].
    simpl. unfold add. by destruct (decide (conn_to c ∈ [conn_from c])).
Qed.

(** The ids without an incoming connection, in the order in which the
    connections name them. *)
Lemma elem_of_sources conns x :
  x ∈ List.filter (λ id, negb (bool_decide (id ∈ objectsWithIncoming conns)))
        (allObjectIds conns)
  ↔ (∃ c, c ∈ conns ∧ conn_from c = x) ∧ ∀ c, c ∈ conns → conn_to c ≠ x.
Proof.
  rewrite list_elem_of_In, filter_In, <- list_elem_of_In, elem_of_allObjectIds.
  rewrite negb_true_iff, bool_decide_eq_false, elem_of_objectsWithIncoming.
  split.
  - intros [(c & Hc & [H|H]) Hno].
    + split; [by exists c|]. intros c' Hc' E. apply Hno. by exists c'.
    + exfalso. apply Hno. by exists c.
  - intros [(c & Hc & H) Hno]. split; [exists c; auto|].
    intros (c' & Hc' & E). by apply (Hno c').
Qed.

End Starts.

(** X12. The starting points of [animateAllFlows]: every id that has an
    outgoing and no incoming connection is one, and no id is one twice.
    When there is such an id, these are all of them.  When there is
    none, the only starting point is the [from] of the first
    connection, if there is a connection at all.  There is no starting
    point only when there is no connection. *)
Theorem startingPoints_are_sources (conns : list Connection) :
  let source x := (∃ c, c ∈ conns ∧ conn_from c = x)
                  ∧ ∀ c, c ∈ conns → conn_to c ≠ x in
  NoDup (startingPoints conns)
  ∧ (∀ x, source x → x ∈ startingPoints conns)
  ∧ ((∃ x, source x) → ∀ x, x ∈ startingPoints conns → source x)
  ∧ ((∀ x, ¬ source x) →
     startingPoints conns = option_list (head (conn_from <$> conns)))
  ∧ (startingPoints conns = [] ↔ conns = []).
Proof.
  intros source. unfold startingPoints.
  set (points := List.filter _ (allObjectIds conns)).
  assert (∀ x, x ∈ points ↔ source x) as Hpoints.
  { intros x. apply elem_of_sources. }
  assert (NoDup points) as Hnd.
  { apply NoDup_ListNoDup, List.NoDup_filter, NoDup_ListNoDup.
    by apply NoDup_ids, NoDup_nil. }
  pose proof (head_allObjectIds conns) as Hhead.
  clearbody points. destruct points as [|x0 pts].
  - (* no source *)
    simpl. destruct (allObjectIds conns) as [|first ids] eqn:Eids.
    + simpl. destruct conns as [|c conns]; [|done].
      split; [constructor|]. split; [by intros x ?%Hpoints%elem_of_nil|].
      split; [by intros _ x ?%elem_of_nil|]. done.
    + simpl. simpl in Hhead.
      split; [apply NoDup_singleton|].
      split; [by intros x ?%Hpoints%elem_of_nil|].
      split; [by intros (x & ?%Hpoints%elem_of_nil)|].
      split; [intros _; by rewrite <- Hhead|].
      split; [done|]. intros ->. done.
  - (* the sources *)
    replace ((length (x0 :: pts) =? 0) && (0 <? length (allObjectIds conns)))
      with false by done.
    split; [done|]. split; [by intros x ?%Hpoints|].
    split; [by intros _ x ?%Hpoints|].
    split.
    { intros Hno. exfalso. apply (Hno x0), Hpoints, list_elem_of_here. }
    split; [done|]. intros E.
    destruct (proj1 (Hpoints x0) (list_elem_of_here _ _)) as [(c & Hc & _) _].
    rewrite E in Hc. by apply elem_of_nil in Hc.
Qed.

(** ** Stopping a run *)

Section Stop.
Import Invariant.
Implicit Types (a b : AnimationSystem) (k : Cont) (r : AnimationSystem * Task).

Lemma drive_Finished n a : drive n (a, Finished) = (a, Finished).
Proof. by destruct n. Qed.

Lemma drive_OutOfFuel n a : drive n (a, OutOfFuel) = (a, OutOfFuel).
Proof. by destruct n. Qed.

Lemma calm_Finished a : calm (a, Finished).
Proof. intros j a' ms k. by rewrite drive_Finished. Qed.

Lemma calm_OutOfFuel a : calm (a, OutOfFuel).
Proof. intros j a' ms k. by rewrite drive_OutOfFuel. Qed.

Lemma calm_Timer a ms k : quiet k → calm (k a) → calm (a, Timer ms k).
Proof.
  intros Hq Hc [|j] a' ms' k'; simpl.
  - by intros [= _ _ <-].
  - apply Hc.
Qed.

(** A continuation that a stopped engine takes to a quiet one. *)
Lemma quiet_step k k' n :
  (∀ b, isAnimating b = false → goes (k b) n (k' b)) → quiet k' → quiet k.
Proof.
  intros Hstep Hq b Hb. destruct (Hq b Hb) as (m & Hm).
  exists (n + m). eapply goes_trans; [by apply Hstep|done].
Qed.

Lemma steady_final : steady (λ a, (with_isAnimating false a, Finished)).
Proof.
  split.
  - intros b Hb. exists 0. destruct b; simpl in *; subst. apply goes_refl.
  - intros a. apply calm_Finished.
Qed.

Lemma animateConnection_steady cid k :
  steady k → steady (animateConnection cid k).
Proof.
  intros [Hq Hc]. split.
  { apply (quiet_step _ k 0); [|done]. intros b Hb.
    unfold animateConnection. rewrite Hb. apply goes_refl. }
  intros a. unfold animateConnection.
  destruct (isAnimating a); cbn [negb]; [|apply Hc].
  unfold delay. apply calm_Timer.
  { apply (quiet_step _ k 1); [|done]. intros b Hb m.
    simpl. by rewrite Hb. }
  apply calm_Timer; [|apply Hc].
  apply (quiet_step _ k 0); [|done]. intros b Hb. rewrite Hb. apply goes_refl.
Qed.

Lemma branches_steady (flow : value → gset value → Cont → Cont) n V k cs :
  (∀ id V' k' a, steady k' → calm (flow id V' k' a)) →
  steady k → steady (branches flow n V k cs).
Proof.
  intros Hflow [Hq Hc].
  assert (∀ cs, quiet (branches flow n V k cs)) as Hquiet.
  { intros cs'. apply (quiet_step _ k 0); [|done]. intros b Hb.
    destruct cs'; cbn [branches]; [apply goes_refl|].
    rewrite Hb. apply goes_refl. }
  split; [apply Hquiet|].
  induction cs as [|c cs IH]; intros a; cbn [branches]; [apply Hc|].
  destruct (isAnimating a); cbn [negb]; [|apply Hc].
  apply animateConnection_steady. split.
  { apply (quiet_step _ k 0); [|done]. intros b Hb.
    rewrite Hb. apply goes_refl. }
  intros a'. destruct (isAnimating a'); cbn [negb]; [|apply Hc].
  apply Hflow. split.
  - destruct (1 <? n).
    + apply (quiet_step _ (branches flow n V k cs) 1); [|apply Hquiet].
      intros b Hb. apply goes_timer.
    + apply Hquiet.
  - intros a''. destruct (1 <? n); [|apply IH].
    unfold delay. apply calm_Timer; [apply Hquiet|apply IH].
Qed.

Lemma animateFlow_calm fuel :
  ∀ id V k a, steady k → calm (animateFlow fuel id V k a).
Proof.
  induction fuel as [|fuel IH]; intros id V k a [Hq Hc]; cbn [animateFlow].
  { apply calm_OutOfFuel. }
  destruct (negb (isAnimating a) || bool_decide (id ∈ V)); [apply Hc|].
  unfold delay at 1. apply calm_Timer.
  { apply (quiet_step _ k 0); [|done]. intros b Hb.
    rewrite Hb. apply goes_refl. }
  cbn [isAnimating with_canvas flowGraph].
  destruct (isAnimating a); cbn [negb]; [|apply Hc].
  destruct (length (adj (flowGraph a) id) =? 0).
  - unfold delay. apply calm_Timer; [done|apply Hc].
  - by apply branches_steady.
Qed.

(** A task alone on the event loop, with the task it has become. *)
Lemma fire_drive (n : nat) :
  ∀ r (l : Loop), timers l = [] →
    ∃ l', timers l' = [] ∧ Nat.iter n fire (settle r l) = settle (drive n r) l'.
Proof.
  induction n as [|n IH]; intros [a t] l Hl.
  - by exists l.
  - rewrite Nat.iter_succ_r. destruct t as [|ms k|].
    + assert (fire (settle (a, Finished) l) = settle (a, Finished) l) as ->.
      { unfold fire. simpl. by rewrite Hl. }
      destruct (IH (a, Finished) l Hl) as (l' & Hl' & E).
      exists l'. split; [done|]. by rewrite E, !drive_Finished.
    + assert (fire (settle (a, Timer ms k) l)
              = settle (k a) {| system := a;
                                now := Qmax (now l) (now l + ms);
                                timers := [] |}) as ->.
      { unfold fire. simpl. by rewrite Hl. }
      simpl. by apply IH.
    + assert (fire (settle (a, OutOfFuel) l) = settle (a, OutOfFuel) l) as ->.
      { unfold fire. simpl. by rewrite Hl. }
      destruct (IH (a, OutOfFuel) l Hl) as (l' & Hl' & E).
      exists l'. split; [done|]. by rewrite E, !drive_OutOfFuel.
Qed.

End Stop.

(** X13. A run of [startFlowAnimation] that is alone on the event loop
    can be stopped at any time: when [stopAnimation] is called after
    any number of its timers have fired, and no run is started
    afterwards, the timers that are left fire without effect.  After
    finitely many of them none is left, and the engine is exactly as
    [stopAnimation] left it: nothing was highlighted, nothing asked of
    the canvas, and the running flag is down. *)
Theorem stopAnimation_ends_the_run (a : AnimationSystem) (start : value)
    (j : nat) :
  let l := Nat.iter j fire (call (startFlowAnimation start) (idle a)) in
  let stopped := call (λ a, (stopAnimation a, Finished)) l in
  ∃ n, timers (Nat.iter n fire stopped) = []
       ∧ system (Nat.iter n fire stopped) = stopAnimation (system l)
       ∧ isAnimating (system (Nat.iter n fire stopped)) = false.
Proof.
  intros l stopped.
  set (r := startFlowAnimation start a).
  assert (Invariant.calm r) as Hcalm.
  { apply animateFlow_calm, steady_final. }
  destruct (fire_drive j r (idle a) eq_refl) as (l0 & Hl0 & El).
  assert (l = settle (drive j r) l0) as Hl by exact El.
  destruct (drive j r) as [aj t] eqn:Ej.
  assert (∀ b, settle (b, Finished) l0 = {| system := b; now := now l0;
                                            timers := [] |}) as Hfin.
  { intros b. destruct l0; simpl in *. by subst. }
  destruct t as [|ms k|].
  - exists 0. subst stopped. rewrite Hl. simpl. rewrite Hl0. done.
  - destruct (Hcalm j aj ms k Ej (stopAnimation aj) eq_refl) as (n & Hn).
    exists (S n).
    assert (stopped = settle (stopAnimation aj, Timer ms k)
                        {| system := aj; now := now l0; timers := [] |}) as ->.
    { subst stopped. rewrite Hl. destruct l0; simpl in *. by subst. }
    destruct (fire_alone (S n) (stopAnimation aj, Timer ms k)
                {| system := aj; now := now l0; timers := [] |} eq_refl)
      as (Hs & Ht).
    specialize (Hn 0). rewrite Nat.add_0_r in Hn. simpl in Hn.
    simpl in Hs, Ht. rewrite Hn in Hs, Ht. simpl in Hs, Ht.
    rewrite Hl. simpl. split; [done|]. by rewrite Hs.
  - exists 0. subst stopped. rewrite Hl. simpl. rewrite Hl0. done.
Qed.

(** ** Line styles *)

(** X14. Whatever the arrow and the kind of a connection,
    [getArrowStyle] gives a stroke between 1 and 8 wide and one of five
    dash patterns.  The kind decides where it speaks: a dashed, dotted,
    dotted-line or break connection has the dash pattern of its kind
    whatever its arrow is, a double connection is at least 3 wide, a
    break at least 2.5 and a parallel one at least 4.  For the other
    kinds the arrow alone decides. *)
Theorem getArrowStyle_bounds (arrowType : value) (kind : ConnectionType) :
  let s := getArrowStyle arrowType kind in
  (1 <= strokeWidth s)%Q ∧ (strokeWidth s <= 8)%Q
  ∧ strokeDasharray s ∈ ["none"; "5,5"; "2,3"; "1,2"; "10,5"]
  ∧ match kind with
    | dashed => strokeDasharray s = "5,5"
    | dotted => strokeDasharray s = "2,3"
    | dotted_line => strokeDasharray s = "1,2"
    | break => strokeDasharray s = "10,5" ∧ (25 # 10 <= strokeWidth s)%Q
    | double => (3 <= strokeWidth s)%Q
    | parallel => (4 <= strokeWidth s)%Q
    | _ => s = getArrowStyle arrowType solid
    end.
Proof.
  cbv zeta. unfold getArrowStyle. cbv zeta.
  destruct kind;
    repeat (match goal with
            | |- context [bool_decide ?P] => destruct (bool_decide P)
            end; cbn [orb]);
    cbn [strokeWidth strokeDasharray];
    (split; [by vm_compute|]); (split; [by vm_compute|]);
    (split; [set_solver|]); try done; try (by vm_compute);
    (split; [done|by vm_compute]).
Qed.

(** ** What a run highlights *)

Section Tour.
Import Invariant.
Implicit Types (a : AnimationSystem) (cv : CanvasEngine) (q : list value).




Variable g : gmap value (list Edge).

Lemma walk_cons u q : walk g (u :: q) → walk g q.
Proof. destruct q as [|v q]; [done|]. by intros [_ ?]. Qed.

Lemma walk_suffix q1 q2 : walk g (q1 ++ q2) → walk g q2.
Proof.
  induction q1 as [|u q1 IH]; [done|]. intros H. by apply IH, (walk_cons u).
Qed.





Variable U : gset value.
Hypothesis nodes_U : nodes g ⊆ U.



End Tour.


Section AllFlows.
Import Invariant.
Variable g : gmap value (list Edge).


End AllFlows.


(** ** Lines that are read as they are meant *)

Section Greedy.
Import Invariant.
Context {A : Type}.
Implicit Types (s w rest l : string) (k : string → option A) (x : A).

Lemma append_nil_r s : s +:+ "" = s.
Proof. induction s as [|a s IH]; [done|]. by rewrite append_cons, IH. Qed.

Lemma length_append s1 s2 :
  String.length (s1 +:+ s2) = String.length s1 + String.length s2.
Proof.
  induction s1 as [|a s1 IH]; [done|]. rewrite append_cons. simpl. by rewrite IH.
Qed.

Lemma consumed_app w rest : consumed (w +:+ rest) rest = w.
Proof.
  unfold consumed. rewrite length_append.
  replace (String.length w + String.length rest - String.length rest)
    with (String.length w) by lia.
  induction w as [|a w IH]; [by destruct rest|].
  rewrite append_cons. simpl. by rewrite IH.
Qed.

Lemma lit_app l rest k : lit l (l +:+ rest) k = k rest.
Proof.
  induction l as [|a l IH]; [done|].
  rewrite append_cons. simpl. by rewrite Ascii.eqb_refl.
Qed.

(** A greedy run takes all the characters of its class there are. *)
Lemma star_greedy c w rest k x :
  all_of c w = true → stops c rest = true → k rest = Some x →
  star c (w +:+ rest) k = Some x.
Proof.
  intros Hw Hrest Hk. induction w as [|a w IH].
  - rewrite append_nil. destruct rest as [|b rest]; [done|].
    simpl in *. apply negb_true_iff in Hrest. by rewrite Hrest.
  - simpl in Hw. apply andb_prop in Hw as [Ha Hw].
    rewrite append_cons. simpl. by rewrite Ha, (IH Hw).
Qed.

Lemma plus_greedy c w rest k x :
  w ≠ "" → all_of c w = true → stops c rest = true → k rest = Some x →
  plus c (w +:+ rest) k = Some x.
Proof.
  intros Hne Hw Hrest Hk. destruct w as [|a w]; [done|].
  simpl in Hw. apply andb_prop in Hw as [Ha Hw].
  rewrite append_cons. simpl. rewrite Ha. by apply star_greedy.
Qed.

(** Where a match can be taken apart. *)
Lemma lit_split l s k x :
  lit l s k = Some x → ∃ s', s = l +:+ s' ∧ k s' = Some x.
Proof.
  revert s. induction l as [|a l IH]; intros s H; simpl in H.
  - exists s. by destruct s.
  - destruct s as [|b s]; [done|].
    destruct (Ascii.eqb a b) eqn:E; [|done].
    apply Ascii.eqb_eq in E as ->.
    destruct (IH s H) as (s' & -> & Hk). by exists s'.
Qed.

Lemma star_split c s k x :
  star c s k = Some x → ∃ w s', s = w +:+ s' ∧ k s' = Some x.
Proof.
  induction s as [|a s IH]; simpl.
  - intros H. by exists "", "".
  - destruct (cls_match c a).
    + destruct (star c s k) as [r|] eqn:E.
      * intros [= <-]. destruct (IH eq_refl) as (w & s' & -> & Hk).
        by exists (String a w), s'.
      * intros H. by exists "", (String a s).
    + intros H. by exists "", (String a s).
Qed.

Lemma plus_split c s k x :
  plus c s k = Some x → ∃ w s', s = w +:+ s' ∧ k s' = Some x.
Proof.
  destruct s as [|a s]; simpl; [done|].
  destruct (cls_match c a); [|done].
  intros (w & s' & -> & Hk)%star_split. by exists (String a w), s'.
Qed.

Lemma opt_split c s k x :
  opt c s k = Some x → ∃ w s', s = w +:+ s' ∧ k s' = Some x.
Proof.
  destruct s as [|a s]; simpl.
  - intros H. by exists "", "".
  - destruct (cls_match c a).
    + destruct (k s) as [r|] eqn:E.
      * intros [= <-]. by exists (String a ""), s.
      * intros H. by exists "", (String a s).
    + intros H. by exists "", (String a s).
Qed.

End Greedy.

Section Needs.
Import Invariant.
Context {A : Type}.

(** A match takes a piece of the line, and in it the characters its
    pattern needs. *)
Lemma run_needs (c : ascii) (total : nat) (r : re) :
  ∀ (s : string) (cs : captures) (k : string → captures → option A) (x : A),
    run total r s cs k = Some x →
    ∃ w s' cs', s = w +:+ s' ∧ k s' cs' = Some x
                ∧ (needs c r = true → occurs c w = true).
Proof.
  induction r as [l|cl|cl|cl|r1 IH1 r2 IH2|r1 IH1 r2 IH2|n r1 IH1| |];
    intros s cs k x; simpl.
  - intros (s' & -> & Hk)%lit_split. by exists l, s', cs.
  - intros (w & s' & -> & Hk)%star_split. by exists w, s', cs.
  - intros (w & s' & -> & Hk)%plus_split. by exists w, s', cs.
  - intros (w & s' & -> & Hk)%opt_split. by exists w, s', cs.
  - intros H. apply IH1 in H as (w1 & s1 & cs1 & -> & H & N1).
    apply IH2 in H as (w2 & s2 & cs2 & -> & H & N2).
    exists (w1 +:+ w2), s2, cs2. split; [by rewrite append_assoc|].
    split; [done|]. rewrite occurs_app.
    intros [?|?]%orb_prop; apply orb_true_intro; auto.
  - destruct (run total r1 s cs k) as [y|] eqn:E.
    + intros [= <-]. apply IH1 in E as (w & s' & cs' & -> & H & N).
      exists w, s', cs'. split; [done|]. split; [done|].
      intros [? _]%andb_prop. auto.
    + intros H. apply IH2 in H as (w & s' & cs' & -> & H & N).
      exists w, s', cs'. split; [done|]. split; [done|].
      intros [_ ?]%andb_prop. auto.
  - intros H. apply IH1 in H as (w & s' & cs' & -> & H & N).
    by exists w, s', ((n, consumed (w +:+ s') s') :: cs').
  - destruct (String.length s =? total); [|done].
    intros H. by exists "", s, cs.
  - destruct s; [|done]. intros H. by exists "", "", cs.
Qed.

End Needs.

Section Lines.
Import Invariant.
Implicit Types (s w rest line : string) (cs m : captures).

(** A pattern matches no line that lacks a character it needs. *)
Lemma jsmatch_needs (c : ascii) (r : re) line :
  needs c r = true → occurs c line = false → jsmatch r line = None.
Proof.
  intros Hr. unfold jsmatch. generalize (String.length line) as total.
  induction line as [|a line IH]; intros total Hline; simpl.
  - destruct (run total r "" [] (λ _ cs, Some cs)) as [m|] eqn:E; [|done].
    apply (run_needs c) in E as (w & s' & cs' & Hs & _ & N).
    destruct w; [|done]. by specialize (N Hr).
  - simpl in Hline. apply orb_false_elim in Hline as [Ha Hline].
    destruct (run total r (String a line) [] (λ _ cs, Some cs)) as [m|] eqn:E.
    + apply (run_needs c) in E as (w & s' & cs' & Hs & _ & N).
      specialize (N Hr).
      assert (occurs c (String a line) = true) as Ho.
      { rewrite Hs, occurs_app, N. done. }
      simpl in Ho. by rewrite Ha, Hline in Ho.
    + by apply IH.
Qed.

Lemma search_here total (r : re) line m :
  run total r line [] (λ _ cs, Some cs) = Some m →
  Regex.search total r line = Some m.
Proof. intros H. destruct line; simpl; by rewrite H. Qed.

Lemma all_of_occurs (c : cls) (a : ascii) w :
  all_of c w = true → cls_match c a = false → occurs a w = false.
Proof.
  intros Hw Ha. induction w as [|b w IH]; [done|].
  simpl in *. apply andb_prop in Hw as [Hb Hw]. rewrite (IH Hw), orb_false_r.
  destruct (Ascii.eqb a b) eqn:E; [|done].
  apply Ascii.eqb_eq in E as ->. congruence.
Qed.

Lemma stops_app (c c' : cls) w rest :
  all_of c' w = true →
  (∀ a, cls_match c' a = true → cls_match c a = false) →
  stops c rest = true → stops c (w +:+ rest) = true.
Proof.
  intros Hw Hcc Hrest. destruct w as [|a w]; [done|].
  simpl in Hw. apply andb_prop in Hw as [Ha _].
  rewrite append_cons. simpl. by rewrite (Hcc a Ha).
Qed.

Lemma space_not_word a : is_space a = true → is_word a = false.
Proof. destruct a as [[] [] [] [] [] [] [] []]; by vm_compute. Qed.

Lemma word_not_space a : is_word a = true → is_space a = false.
Proof. destruct a as [[] [] [] [] [] [] [] []]; by vm_compute. Qed.

Lemma trimStart_split s :
  ∃ w, s = w +:+ trimStart s ∧ all_of CSpace w = true
       ∧ stops CSpace (trimStart s) = true.
Proof.
  induction s as [|a s (w & Hs & Hw & Hstop)]; [by exists ""|].
  simpl. destruct (is_space a) eqn:E.
  - exists (String a w). rewrite append_cons, <- Hs. simpl. by rewrite E.
  - exists "". simpl. by rewrite E.
Qed.

Lemma all_of_app (c : cls) w1 w2 :
  all_of c (w1 +:+ w2) = all_of c w1 && all_of c w2.
Proof.
  induction w1 as [|a w1 IH]; [done|].
  rewrite append_cons. simpl. by rewrite IH, andb_assoc.
Qed.

Lemma trimStart_idem s : trimStart (trimStart s) = trimStart s.
Proof.
  induction s as [|a s IH]; [done|]. simpl.
  destruct (is_space a) eqn:E; [done|]. simpl. by rewrite E.
Qed.

Lemma star_all {A : Type} (c : cls) w (k : string → option A) x :
  all_of c w = true → k "" = Some x → star c w k = Some x.
Proof.
  intros Hw Hk. induction w as [|a w IH]; [done|].
  simpl in Hw. apply andb_prop in Hw as [Ha Hw].
  simpl. by rewrite Ha, (IH Hw).
Qed.

Lemma consumed_all w : consumed w "" = w.
Proof.
  unfold consumed. simpl. rewrite Nat.sub_0_r.
  induction w as [|a w IH]; [done|]. simpl. by rewrite IH.
Qed.

Lemma run_Seq {A : Type} total (r1 r2 : re) s cs
    (k : string → captures → option A) :
  run total (Seq r1 r2) s cs k
  = run total r1 s cs (λ s1 cs1, run total r2 s1 cs1 k).
Proof. reflexivity. Qed.

(** A name made of word characters, taken whole by a token. *)
Lemma run_token {A : Type} total n w rest cs
    (k : string → captures → option A) x :
  w ≠ "" → all_of CWord w = true → stops CWord rest = true →
  k rest ((n, w) :: cs) = Some x →
  run total (token n) (w +:+ rest) cs k = Some x.
Proof.
  intros Hne Hw Hrest Hk. unfold token. simpl.
  rewrite (plus_greedy CWord w rest _ x); [done|done|done|done|].
  by rewrite consumed_app.
Qed.

Lemma run_spaces {A : Type} total w rest cs
    (k : string → captures → option A) x :
  all_of CSpace w = true → stops CSpace rest = true →
  k rest cs = Some x →
  run total (Star CSpace) (w +:+ rest) cs k = Some x.
Proof. intros. simpl. by apply star_greedy. Qed.

Lemma run_arrow {A : Type} total n a rest cs
    (k : string → captures → option A) :
  run total (Group n (Lit a)) (a +:+ rest) cs k = k rest ((n, a) :: cs).
Proof. simpl. by rewrite lit_app, consumed_app. Qed.

Lemma run_Lit {A : Type} total l rest cs (k : string → captures → option A) :
  run total (Lit l) (l +:+ rest) cs k = k rest cs.
Proof. simpl. by rewrite lit_app. Qed.

Lemma run_rest {A : Type} total n (c : cls) w cs
    (k : string → captures → option A) x :
  all_of c w = true → k "" ((n, w) :: cs) = Some x →
  run total (Group n (Star c)) w cs k = Some x.
Proof.
  intros Hw Hk. simpl. apply star_all; [done|]. by rewrite consumed_all.
Qed.

Lemma run_Alt {A : Type} total (r1 r2 : re) s cs
    (k : string → captures → option A) :
  run total (Alt r1 r2) s cs k
  = match run total r1 s cs k with
    | Some x => Some x
    | None => run total r2 s cs k
    end.
Proof. reflexivity. Qed.

Lemma run_Group {A : Type} total n (r : re) s cs
    (k : string → captures → option A) :
  run total (Group n r) s cs k
  = run total r s cs (λ s1 cs1, k s1 ((n, consumed s s1) :: cs1)).
Proof. reflexivity. Qed.

(** An arrow that is the first of its alternatives. *)
Lemma run_first_arrow {A : Type} total (a : string) (r : re) rest cs
    (k : string → captures → option A) x :
  k rest ((2, a) :: cs) = Some x →
  run total (Group 2 (Alt (Lit a) r)) (a +:+ rest) cs k = Some x.
Proof.
  intros Hk. rewrite run_Group, run_Alt, run_Lit, consumed_app. cbv beta.
  by rewrite Hk.
Qed.

(** The line of a labelled message, as a labelled pattern takes it
    whose arrow [ar] takes [a] where it can. *)
Lemma labelled_match_any (ar : re) (a0 : ascii)
    (a' A B ws1 ws2 ws3 L : string) :
  let a := String a0 a' in
  (∀ total rest cs (k : string → captures → option captures) x,
     k rest ((2, a) :: cs) = Some x →
     run total (Group 2 ar) (a +:+ rest) cs k = Some x) →
  is_word a0 = false → is_space a0 = false →
  A ≠ "" → B ≠ "" → all_of CWord A = true → all_of CWord B = true →
  all_of CSpace ws1 = true → all_of CSpace ws2 = true →
  all_of CSpace ws3 = true → all_of CDot L = true →
  jsmatch (labelled ar)
    (A +:+ ws1 +:+ a +:+ ws2 +:+ B +:+ ws3 +:+ ":" +:+ L)
  = Some [(4, trimStart L); (3, B); (2, a); (1, A)].
Proof.
  intros a Har Hw0 Hs0 HA HB HwA HwB H1 H2 H3 HL.
  destruct (trimStart_split L) as (w4 & EL & H4 & Hstop4).
  assert (all_of CDot (trimStart L) = true) as HL'.
  { rewrite EL, all_of_app in HL. by apply andb_prop in HL as [_ ?]. }
  unfold jsmatch. generalize (String.length
    (A +:+ ws1 +:+ a +:+ ws2 +:+ B +:+ ws3 +:+ ":" +:+ L)) as total.
  intros total.
  apply search_here. unfold labelled. cbn [seq]. rewrite run_Seq.
  apply run_token; [done|done| |].
  { apply (stops_app CWord CSpace); [done|apply space_not_word|].
    simpl. by rewrite Hw0. }
  rewrite run_Seq. apply run_spaces; [done| |].
  { simpl. by rewrite Hs0. }
  rewrite run_Seq. apply Har. rewrite run_Seq.
  apply run_spaces; [done| |].
  { destruct B as [|b B]; [done|]. simpl in HwB.
    apply andb_prop in HwB as [Hb _]. rewrite append_cons. simpl.
    by rewrite (word_not_space b Hb). }
  rewrite run_Seq. apply run_token; [done|done| |].
  { by apply (stops_app CWord CSpace); [|apply space_not_word|]. }
  rewrite run_Seq. apply run_spaces; [done|done|].
  rewrite run_Seq, run_Lit, run_Seq.
  replace L with (w4 +:+ trimStart L) at 1 by (by rewrite <- EL).
  apply run_spaces; [done|done|].
  by apply run_rest.
Qed.

Lemma labelled_match (a0 : ascii) (a' A B ws1 ws2 ws3 L : string) :
  let a := String a0 a' in
  is_word a0 = false → is_space a0 = false →
  A ≠ "" → B ≠ "" → all_of CWord A = true → all_of CWord B = true →
  all_of CSpace ws1 = true → all_of CSpace ws2 = true →
  all_of CSpace ws3 = true → all_of CDot L = true →
  jsmatch (labelled (Lit a))
    (A +:+ ws1 +:+ a +:+ ws2 +:+ B +:+ ws3 +:+ ":" +:+ L)
  = Some [(4, trimStart L); (3, B); (2, a); (1, A)].
Proof.
  intros a. apply labelled_match_any.
  intros total rest cs k x Hk. by rewrite run_arrow.
Qed.

(** The line of a message without a label, as an unlabelled pattern
    takes it. *)
Lemma unlabelled_match_any (ar : re) (a0 : ascii) (a' A B ws1 ws2 : string) :
  let a := String a0 a' in
  (∀ total rest cs (k : string → captures → option captures) x,
     k rest ((2, a) :: cs) = Some x →
     run total (Group 2 ar) (a +:+ rest) cs k = Some x) →
  is_word a0 = false → is_space a0 = false →
  A ≠ "" → B ≠ "" → all_of CWord A = true → all_of CWord B = true →
  all_of CSpace ws1 = true → all_of CSpace ws2 = true →
  jsmatch (unlabelled ar) (A +:+ ws1 +:+ a +:+ ws2 +:+ B)
  = Some [(3, B); (2, a); (1, A)].
Proof.
  intros a Har Hw0 Hs0 HA HB HwA HwB H1 H2.
  unfold jsmatch.
  generalize (String.length (A +:+ ws1 +:+ a +:+ ws2 +:+ B)) as total.
  intros total.
  apply search_here. unfold unlabelled. cbn [seq]. rewrite run_Seq.
  apply run_token; [done|done| |].
  { apply (stops_app CWord CSpace); [done|apply space_not_word|].
    simpl. by rewrite Hw0. }
  rewrite run_Seq. apply run_spaces; [done| |].
  { simpl. by rewrite Hs0. }
  rewrite run_Seq. apply Har. rewrite run_Seq.
  apply run_spaces; [done| |].
  { destruct B as [|b B]; [done|]. simpl in HwB.
    apply andb_prop in HwB as [Hb _]. simpl.
    by rewrite (word_not_space b Hb). }
  rewrite run_Seq. rewrite <- (append_nil_r B) at 1.
  apply run_token; [done|done|done|]. done.
Qed.

Lemma unlabelled_match (a0 : ascii) (a' A B ws1 ws2 : string) :
  let a := String a0 a' in
  is_word a0 = false → is_space a0 = false →
  A ≠ "" → B ≠ "" → all_of CWord A = true → all_of CWord B = true →
  all_of CSpace ws1 = true → all_of CSpace ws2 = true →
  jsmatch (unlabelled (Lit a)) (A +:+ ws1 +:+ a +:+ ws2 +:+ B)
  = Some [(3, B); (2, a); (1, A)].
Proof.
  intros a. apply unlabelled_match_any.
  intros total rest cs k x Hk. by rewrite run_arrow.
Qed.

End Lines.

Section Arrows.
Import Invariant.
Implicit Types (A B ws L line : string) (p : Parser).

Lemma labelled_needs_colon (a : string) line :
  occurs colon line = false → jsmatch (labelled (Lit a)) line = None.
Proof.
  apply jsmatch_needs. unfold labelled. cbn [seq needs token].
  destruct (occurs colon a); reflexivity.
Qed.

Lemma label_of_group t : or_empty (Js.or (str t) undefined) = t.
Proof. by destruct t. Qed.

Lemma trim_trimStart L : trim (trimStart L) = trim L.
Proof. unfold trim. by rewrite trimStart_idem. Qed.

Lemma word_line_no (c : ascii) A B ws1 ws2 (a : string) :
  is_word c = false → is_space c = false → occurs c a = false →
  all_of CWord A = true → all_of CWord B = true →
  all_of CSpace ws1 = true → all_of CSpace ws2 = true →
  occurs c (A +:+ ws1 +:+ a +:+ ws2 +:+ B) = false.
Proof.
  intros Hw Hs Ha HA HB H1 H2. rewrite !occurs_app, Ha.
  rewrite (all_of_occurs CWord c A), (all_of_occurs CWord c B),
    (all_of_occurs CSpace c ws1), (all_of_occurs CSpace c ws2); done.
Qed.

End Arrows.

Section Solid.
Import Invariant.
Implicit Types (A B ws L : string) (p : Parser).

Lemma solid_labelled_line A B ws1 ws2 ws3 L p :
  A ≠ "" → B ≠ "" → all_of CWord A = true → all_of CWord B = true →
  all_of CSpace ws1 = true → all_of CSpace ws2 = true →
  all_of CSpace ws3 = true → all_of CDot L = true →
  parseConnection (A +:+ ws1 +:+ "->" +:+ ws2 +:+ B +:+ ws3 +:+ ":" +:+ L) p
  = addConnection (str A) (str B) (trim L) (str "->") solid p.
Proof.
  intros HA HB HwA HwB H1 H2 H3 HL.
  unfold parseConnection, connectionPatterns.
  cbn [connectionLoop regex withLabel].
  rewrite (labelled_match "-" ">" A B ws1 ws2 ws3 L) by done.
  cbn [group cap Nat.eqb reverse p_type p_label].
  by rewrite label_of_group, trim_trimStart.
Qed.

Lemma solid_unlabelled_line A B ws1 ws2 p :
  A ≠ "" → B ≠ "" → all_of CWord A = true → all_of CWord B = true →
  all_of CSpace ws1 = true → all_of CSpace ws2 = true →
  parseConnection (A +:+ ws1 +:+ "->" +:+ ws2 +:+ B) p
  = addConnection (str A) (str B) "" (str "->") solid p.
Proof.
  intros HA HB HwA HwB H1 H2.
  assert (occurs colon (A +:+ ws1 +:+ "->" +:+ ws2 +:+ B) = false) as Hno
    by (by apply word_line_no).
  unfold parseConnection, connectionPatterns.
  cbn [connectionLoop regex withLabel withoutLabel].
  rewrite !(labelled_needs_colon _ _ Hno).
  rewrite (unlabelled_match "-" ">" A B ws1 ws2) by done.
  reflexivity.
Qed.

End Solid.

(** X17. A line [A -> B: label], with names made of word characters
    and any white space around the arrow, before the colon and around
    the label, is read by [parseConnection] as it is meant: it adds the
    solid message from [A] to [B] with the arrow [->] and the trimmed
    label.  The same line without colon and label adds that message
    with the empty label. *)
Theorem parseConnection_reads_solid_arrow
    (A B ws1 ws2 ws3 L : string) (p : Parser) :
  A ≠ "" → B ≠ "" →
  Invariant.all_of CWord A = true → Invariant.all_of CWord B = true →
  Invariant.all_of CSpace ws1 = true → Invariant.all_of CSpace ws2 = true →
  Invariant.all_of CSpace ws3 = true → Invariant.all_of CDot L = true →
  parseConnection (A +:+ ws1 +:+ "->" +:+ ws2 +:+ B +:+ ws3 +:+ ":" +:+ L) p
  = addConnection (str A) (str B) (trim L) (str "->") solid p
  ∧ parseConnection (A +:+ ws1 +:+ "->" +:+ ws2 +:+ B) p
    = addConnection (str A) (str B) "" (str "->") solid p.
Proof.
  intros HA HB HwA HwB H1 H2 H3 HL. split.
  - by apply solid_labelled_line.
  - by apply solid_unlabelled_line.
Qed.

Lemma parseConnection_reads_solid_arrow_witness :
  parseConnection "Alice -> Bob:  hello there " Parser.new
  = addConnection (str "Alice") (str "Bob") "hello there" (str "->") solid
      Parser.new
  ∧ parseConnection "Alice -> Bob" Parser.new
    = addConnection (str "Alice") (str "Bob") "" (str "->") solid Parser.new.
Proof.
  apply (parseConnection_reads_solid_arrow "Alice" "Bob" " " " " ""
           "  hello there " Parser.new); by vm_compute.
Defined.

(** X18. A line [A <- B: label] whose label has no [>] is read as the
    message from [B] to [A], of the kind [reverse_solid], with the
    arrow [<-] and the trimmed label; without colon and label, as that
    message with the empty label. *)
Theorem parseConnection_reads_reverse_arrow
    (A B ws1 ws2 ws3 L : string) (p : Parser) :
  A ≠ "" → B ≠ "" →
  Invariant.all_of CWord A = true → Invariant.all_of CWord B = true →
  Invariant.all_of CSpace ws1 = true → Invariant.all_of CSpace ws2 = true →
  Invariant.all_of CSpace ws3 = true → Invariant.all_of CDot L = true →
  Invariant.occurs Invariant.greater L = false →
  parseConnection (A +:+ ws1 +:+ "<-" +:+ ws2 +:+ B +:+ ws3 +:+ ":" +:+ L) p
  = addConnection (str B) (str A) (trim L) (str "<-") reverse_solid p
  ∧ parseConnection (A +:+ ws1 +:+ "<-" +:+ ws2 +:+ B) p
    = addConnection (str B) (str A) "" (str "<-") reverse_solid p.
Proof.
  intros HA HB HwA HwB H1 H2 H3 HL Hgt.
  assert (Invariant.occurs Invariant.greater
            (A +:+ ws1 +:+ "<-" +:+ ws2 +:+ B) = false) as Hno1
    by (by apply word_line_no).
  split.
  - assert (Invariant.occurs Invariant.greater
              (A +:+ ws1 +:+ "<-" +:+ ws2 +:+ B +:+ ws3 +:+ ":" +:+ L)
            = false) as Hno.
    { rewrite !occurs_app, Hgt.
      by rewrite (all_of_occurs CWord Invariant.greater A),
        (all_of_occurs CWord Invariant.greater B),
        (all_of_occurs CSpace Invariant.greater ws1),
        (all_of_occurs CSpace Invariant.greater ws2),
        (all_of_occurs CSpace Invariant.greater ws3). }
    unfold parseConnection, connectionPatterns.
    cbn [connectionLoop regex withLabel].
    rewrite (jsmatch_needs Invariant.greater (labelled (Lit "->")) _
               eq_refl Hno),
      (jsmatch_needs Invariant.greater (labelled (Lit "-->")) _ eq_refl Hno).
    rewrite (labelled_match "<" "-" A B ws1 ws2 ws3 L) by done.
    cbn [group cap Nat.eqb reverse p_type p_label].
    by rewrite label_of_group, trim_trimStart.
  - assert (Invariant.occurs Invariant.colon (A +:+ ws1 +:+ "<-" +:+ ws2 +:+ B)
            = false) as Hno by (by apply word_line_no).
    unfold parseConnection, connectionPatterns.
    cbn [connectionLoop regex withLabel withoutLabel].
    rewrite !(labelled_needs_colon _ _ Hno).
    rewrite (jsmatch_needs Invariant.greater (unlabelled (Lit "->")) _
               eq_refl Hno1),
      (jsmatch_needs Invariant.greater (unlabelled (Lit "-->")) _
         eq_refl Hno1).
    rewrite (unlabelled_match "<" "-" A B ws1 ws2) by done.
    reflexivity.
Qed.

Lemma parseConnection_reads_reverse_arrow_witness :
  parseConnection "Alice <- Bob : ok" Parser.new
  = addConnection (str "Bob") (str "Alice") "ok" (str "<-") reverse_solid
      Parser.new
  ∧ parseConnection "Alice <- Bob" Parser.new
    = addConnection (str "Bob") (str "Alice") "" (str "<-") reverse_solid
        Parser.new.
Proof.
  apply (parseConnection_reads_reverse_arrow "Alice" "Bob" " " " " " "
           " ok" Parser.new); by vm_compute.
Defined.

(** ** The lines of a text *)

Section KeptLines.
Import Invariant.
Implicit Types (s l : string) (ls : list string).

Lemma code_lf a : (code a =? 10) = Ascii.eqb lf a.
Proof. destruct a as [[] [] [] [] [] [] [] []]; by vm_compute. Qed.

Lemma splitLines_no_lf s : Forall (λ l, occurs lf l = false) (splitLines s).
Proof.
  induction s as [|a s IH]; cbn [splitLines].
  - by repeat constructor.
  - destruct (code a =? 10) eqn:E; [by constructor|].
    rewrite code_lf in E.
    destruct (splitLines s) as [|l ls].
    + repeat constructor. cbn [occurs]. by rewrite E.
    + apply Forall_cons in IH as [Hl Hls]. constructor; [|done].
      cbn [occurs]. by rewrite E, Hl.
Qed.

Lemma splitLines_whole l : occurs lf l = false → splitLines l = [l].
Proof.
  induction l as [|a l IH]; [done|]. cbn [occurs splitLines].
  intros [Ha Hl]%orb_false_elim. rewrite code_lf, Ha. by rewrite (IH Hl).
Qed.

Lemma splitLines_app l rest :
  occurs lf l = false →
  splitLines (l +:+ String lf rest) = l :: splitLines rest.
Proof.
  induction l as [|a l IH]; [done|]. rewrite append_cons.
  cbn [occurs splitLines].
  intros [Ha Hl]%orb_false_elim. rewrite code_lf, Ha. by rewrite (IH Hl).
Qed.

(** Splitting what was joined gives the lines back. *)
Lemma splitLines_text ls :
  ls ≠ [] → Forall (λ l, occurs lf l = false) ls →
  splitLines (text ls) = ls.
Proof.
  induction ls as [|l ls IH]; [done|]. intros _ [Hl Hls]%Forall_cons.
  destruct ls as [|l2 ls].
  - simpl. by apply splitLines_whole.
  - change (text (l :: l2 :: ls)) with (l +:+ String lf (text (l2 :: ls))).
    rewrite splitLines_app by done. by rewrite IH.
Qed.

Lemma trimStart_occurs c s :
  occurs c (trimStart s) = true → occurs c s = true.
Proof.
  induction s as [|a s IH]; [done|]. simpl.
  destruct (is_space a); [|done]. intros H. by rewrite (IH H), orb_true_r.
Qed.

Lemma trimEnd_occurs c s :
  occurs c (trimEnd s) = true → occurs c s = true.
Proof.
  induction s as [|a s IH]; [done|]. simpl.
  destruct (trimEnd s) as [|b t].
  - destruct (is_space a); [done|]. simpl. rewrite orb_false_r.
    intros ->. done.
  - simpl in *. intros [->|H]%orb_prop; [done|].
    by rewrite (IH H), orb_true_r.
Qed.

Lemma trimEnd_idem s : trimEnd (trimEnd s) = trimEnd s.
Proof.
  induction s as [|a s IH]; [done|]. simpl.
  destruct (trimEnd s) as [|b t] eqn:E.
  - destruct (is_space a) eqn:Ea; [done|]. simpl. by rewrite Ea.
  - simpl in *. by rewrite IH.
Qed.

Lemma trimEnd_head a s :
  is_space a = false → ∃ t, trimEnd (String a s) = String a t.
Proof.
  intros Ha. simpl. destruct (trimEnd s); [|by eexists].
  rewrite Ha. by eexists.
Qed.

Lemma trimStart_head s :
  trimStart s = "" ∨ ∃ a t, trimStart s = String a t ∧ is_space a = false.
Proof.
  induction s as [|a s IH]; [by left|]. simpl.
  destruct (is_space a) eqn:E; [done|]. right. by exists a, s.
Qed.

Lemma trim_idem s : trim (trim s) = trim s.
Proof.
  unfold trim. destruct (trimStart_head s) as [->|(a & t & -> & Ha)]; [done|].
  destruct (trimEnd_head a t Ha) as (t' & E). rewrite E at 1.
  simpl trimStart. rewrite Ha, <- E. apply trimEnd_idem.
Qed.

Lemma filter_all {X : Type} (f : X → bool) (xs : list X) :
  Forall (λ x, f x = true) xs → List.filter f xs = xs.
Proof.
  induction 1 as [|x xs Hx _ IH]; [done|]. simpl. by rewrite Hx, IH.
Qed.

(** What [parse] keeps of a text. *)
Lemma lines_kept (input : string) :
  Forall (λ l, keep l = true ∧ trim l = l ∧ occurs lf l = false) (lines input).
Proof.
  unfold lines. apply Forall_forall. intros l Hl.
  apply list_elem_of_In, filter_In in Hl as [Hl Hkeep].
  apply list_elem_of_In, list_elem_of_fmap in Hl as (l0 & -> & Hl0).
  split; [done|]. split; [apply trim_idem|].
  pose proof (splitLines_no_lf input) as Hno. rewrite Forall_forall in Hno.
  specialize (Hno l0 Hl0).
  destruct (occurs lf (trim l0)) eqn:E; [|done].
  apply trimEnd_occurs, trimStart_occurs in E. congruence.
Qed.

Lemma lines_text_lines (input : string) :
  lines (text (lines input)) = lines input.
Proof.
  pose proof (lines_kept input) as Hk.
  destruct (lines input) as [|l ls] eqn:E; [done|]. rewrite <- E in *.
  unfold lines at 1. rewrite splitLines_text.
  - assert (trim <$> lines input = lines input) as ->.
    { clear E. induction Hk as [|x xs (_ & Hx & _) _ IH]; [done|].
      rewrite fmap_cons. by rewrite Hx, IH. }
    apply filter_all. eapply Forall_impl; [exact Hk|]. by intros x (? & _).
  - by rewrite E.
  - eapply Forall_impl; [exact Hk|]. by intros x (_ & _ & ?).
Qed.

End KeptLines.

(** X19. [parse] reads a text as the list of its kept lines: each is
    trimmed, is not empty, holds no line feed and starts with neither
    [@] nor an apostrophe.  Blank lines, comment lines, directive lines
    and the white space around a line are of no account, and neither
    is the state the parser was in: parsing the kept lines, joined by
    line feeds, with a new parser gives the same model. *)
Theorem parse_reads_kept_lines (input : string) (p : Parser) :
  Forall (λ l, l ≠ "" ∧ trim l = l ∧ Invariant.occurs Invariant.lf l = false
               ∧ startsWith l "@" = false ∧ startsWith l "'" = false)
         (lines input)
  ∧ lines (text (lines input)) = lines input
  ∧ parse (str (text (lines input))) Parser.new = parse (str input) p.
Proof.
  split; [|split; [apply lines_text_lines|]].
  - eapply Forall_impl; [apply lines_kept|].
    intros l (Hkeep & Htrim & Hlf). unfold keep in Hkeep.
    apply andb_prop in Hkeep as [[H1 H2]%andb_prop H3].
    apply negb_true_iff in H1, H2, H3. apply bool_decide_eq_false in H1.
    done.
  - unfold parse. by rewrite lines_text_lines.
Qed.

(** ** Declarations *)

Section Declarations.
Import Invariant.
Implicit Types (s w rest line : string) (cs m : captures).

Lemma star_class {A : Type} (c : cls) s (k : string → option A) x :
  star c s k = Some x →
  ∃ w s', s = w +:+ s' ∧ all_of c w = true ∧ k s' = Some x.
Proof.
  induction s as [|a s IH]; simpl.
  - intros H. by exists "", "".
  - destruct (cls_match c a) eqn:Ea.
    + destruct (star c s k) as [r|] eqn:E.
      * intros [= <-]. destruct (IH eq_refl) as (w & s' & -> & Hw & Hk).
        exists (String a w), s'. split; [done|]. split; [|done].
        simpl. by rewrite Ea.
      * intros H. by exists "", (String a s).
    + intros H. by exists "", (String a s).
Qed.

Lemma plus_class {A : Type} (c : cls) s (k : string → option A) x :
  plus c s k = Some x →
  ∃ a w s', s = String a w +:+ s' ∧ cls_match c a = true
            ∧ all_of c w = true ∧ k s' = Some x.
Proof.
  destruct s as [|a s]; simpl; [done|].
  destruct (cls_match c a) eqn:Ea; [|done].
  intros (w & s' & -> & Hw & Hk)%star_class. by exists a, w, s'.
Qed.

(** In spaces followed by a word, what follows a character that is
    not a space is part of the word. *)
Lemma split_words ws N X a R :
  all_of CSpace ws = true → is_space a = false →
  X +:+ String a R = ws +:+ N → ∃ N1, N = N1 +:+ String a R.
Proof.
  intros Hws Ha. revert X. induction ws as [|b ws IH]; intros X.
  - rewrite append_nil. intros <-. by exists X.
  - simpl in Hws. apply andb_prop in Hws as [Hb Hws].
    rewrite append_cons. destruct X as [|x X].
    + rewrite append_nil. intros [= -> _]. simpl in Hb. congruence.
    + rewrite append_cons. intros [= _ H]. by apply (IH Hws X).
Qed.

Lemma all_of_suffix (c : cls) w1 w2 :
  all_of c (w1 +:+ w2) = true → all_of c w2 = true.
Proof. rewrite all_of_app. by intros [_ ?]%andb_prop. Qed.

(** A pattern anchored at the start is tried at the start alone. *)
Lemma declaration_run_later {A : Type} (kw : string) total s cs
    (k : string → captures → option A) :
  String.length s ≠ total → run total (declaration kw) s cs k = None.
Proof.
  intros Hlen. unfold declaration. cbn [seq run].
  by rewrite (proj2 (Nat.eqb_neq _ _) Hlen).
Qed.

Lemma declaration_later (kw : string) total s :
  String.length s < total → Regex.search total (declaration kw) s = None.
Proof.
  induction s as [|a s IH]; intros Hlen; cbn [Regex.search].
  - rewrite declaration_run_later; [done|]. simpl in *. lia.
  - rewrite declaration_run_later by lia. apply IH. simpl in Hlen. lia.
Qed.

Lemma jsmatch_declaration (kw : string) line :
  jsmatch (declaration kw) line
  = run (String.length line) (declaration kw) line [] (λ _ cs, Some cs).
Proof.
  unfold jsmatch. destruct line as [|a line]; cbn [Regex.search].
  - by destruct (run _ _ _ _ _).
  - destruct (run _ _ _ _ _) as [m|]; [done|].
    apply declaration_later. simpl. lia.
Qed.

(** The pattern of another keyword does not take the line. *)
Lemma declaration_skip (kw : string) line :
  (∀ k : string → option captures, lit kw line k = None) →
  jsmatch (declaration kw) line = None.
Proof.
  intros Hlit. rewrite jsmatch_declaration. unfold declaration.
  cbn [seq run]. rewrite Nat.eqb_refl. by rewrite !Hlit.
Qed.

Lemma run_Plus {A : Type} total (c : cls) w rest cs
    (k : string → captures → option A) x :
  w ≠ "" → all_of c w = true → stops c rest = true →
  k rest cs = Some x →
  run total (Plus c) (w +:+ rest) cs k = Some x.
Proof. intros. simpl. by apply plus_greedy. Qed.

Lemma run_Group_Plus {A : Type} total n (c : cls) w rest cs
    (k : string → captures → option A) x :
  w ≠ "" → all_of c w = true → stops c rest = true →
  k rest ((n, w) :: cs) = Some x →
  run total (Group n (Plus c)) (w +:+ rest) cs k = Some x.
Proof.
  intros Hne Hw Hrest Hk. simpl.
  rewrite (plus_greedy c w rest _ x); [done|done|done|done|].
  by rewrite consumed_app.
Qed.

Lemma run_Group_Plus_end {A : Type} total n (c : cls) w cs
    (k : string → captures → option A) x :
  w ≠ "" → all_of c w = true → k "" ((n, w) :: cs) = Some x →
  run total (Group n (Plus c)) w cs k = Some x.
Proof.
  intros Hne Hw Hk.
  pose proof (run_Group_Plus total n c w "" cs k x Hne Hw eq_refl Hk) as H.
  by rewrite append_nil_r in H.
Qed.

Lemma run_Opt_take {A : Type} total (c : cls) a s cs
    (k : string → captures → option A) x :
  cls_match c a = true → k s cs = Some x →
  run total (Opt c) (String a s) cs k = Some x.
Proof. intros Ha Hk. simpl. by rewrite Ha, Hk. Qed.

Lemma run_Bol {A : Type} s cs (k : string → captures → option A) :
  run (String.length s) Bol s cs k = k s cs.
Proof. simpl. by rewrite Nat.eqb_refl. Qed.

(** The alias form needs white space after its [as]; a keyword, white
    space and a word have none. *)
Lemma alias_fails {A : Type} (kw ws N : string) total cs
    (k : string → captures → option A) :
  all_of CSpace ws = true → all_of CWord N = true →
  run total
    (seq [Bol; Lit kw; Plus CSpace; Opt (CChar quote);
          Group 1 (Plus (CNot quote)); Opt (CChar quote);
          Plus CSpace; Lit "as"; Plus CSpace; Group 2 (Plus CWord)])
    (kw +:+ ws +:+ N) cs k = None.
Proof.
  intros Hws HN.
  destruct (run total _ (kw +:+ ws +:+ N) cs k) as [x|] eqn:E; [|done].
  exfalso. cbn [seq run] in E.
  destruct (String.length (kw +:+ ws +:+ N) =? total); [|done].
  apply lit_split in E as (s1 & E1 & E).
  apply (inj (String.app kw)) in E1.
  apply plus_split in E as (w1 & s2 & -> & E).
  apply opt_split in E as (o1 & s3 & -> & E).
  apply plus_split in E as (w3 & s4 & -> & E).
  apply opt_split in E as (o2 & s5 & -> & E).
  apply plus_split in E as (w5 & s6 & -> & E).
  apply lit_split in E as (s7 & -> & E).
  apply plus_class in E as (sp & w7 & s8 & -> & Hsp & _ & _).
  rewrite !append_cons, append_nil, <- !append_assoc in E1.
  symmetry in E1. apply split_words in E1 as (N1 & ->); [|done|done].
  apply all_of_suffix in HN. cbn [all_of] in HN.
  apply andb_prop in HN as [_ [_ [Hw _]%andb_prop]%andb_prop].
  cbn [cls_match] in Hsp, Hw. by rewrite (space_not_word sp Hsp) in Hw.
Qed.

(** [kw N]: the declaration of an object under its name. *)
Lemma declaration_simple (kw ws N : string) :
  ws ≠ "" → all_of CSpace ws = true → N ≠ "" → all_of CWord N = true →
  jsmatch (declaration kw) (kw +:+ ws +:+ N) = Some [(3, N)].
Proof.
  intros Hne Hws HN HwN. rewrite jsmatch_declaration. unfold declaration.
  rewrite run_Alt, alias_fails by done.
  cbn [seq]. rewrite run_Seq, run_Bol, run_Seq, run_Lit, run_Seq.
  apply run_Plus; [done|done| |].
  { destruct N as [|b N]; [done|]. simpl in HwN.
    apply andb_prop in HwN as [Hb _]. simpl.
    by rewrite (word_not_space b Hb). }
  by apply run_Group_Plus_end.
Qed.

(** [kw Q name Q as id], where [Q] is the double quote: the declaration
    of an object under an alias. *)
Lemma declaration_alias (kw ws1 name ws2 ws3 ID : string) :
  ws1 ≠ "" → all_of CSpace ws1 = true →
  name ≠ "" → all_of (CNot quote) name = true →
  ws2 ≠ "" → all_of CSpace ws2 = true →
  ws3 ≠ "" → all_of CSpace ws3 = true →
  ID ≠ "" → all_of CWord ID = true →
  jsmatch (declaration kw)
    (kw +:+ ws1 +:+ String quote (name +:+ String quote
                                    (ws2 +:+ "as" +:+ ws3 +:+ ID)))
  = Some [(2, ID); (1, name)].
Proof.
  intros N1 H1 Nn Hn N2 H2 N3 H3 Ni Hi.
  rewrite jsmatch_declaration. unfold declaration. rewrite run_Alt.
  set (line := kw +:+ ws1 +:+ _).
  assert (run (String.length line)
            (seq [Bol; Lit kw; Plus CSpace; Opt (CChar quote);
                  Group 1 (Plus (CNot quote)); Opt (CChar quote);
                  Plus CSpace; Lit "as"; Plus CSpace; Group 2 (Plus CWord)])
            line [] (λ _ cs, Some cs) = Some [(2, ID); (1, name)]) as ->; [|done].
  cbn [seq]. rewrite run_Seq, run_Bol. subst line.
  rewrite run_Seq, run_Lit, run_Seq.
  apply run_Plus; [done|done|done|].
  rewrite run_Seq. apply run_Opt_take; [by vm_compute|].
  rewrite run_Seq. apply run_Group_Plus; [done|done|by vm_compute|].
  rewrite run_Seq. apply run_Opt_take; [by vm_compute|].
  rewrite run_Seq. apply run_Plus; [done|done|done|].
  rewrite run_Seq, run_Lit, run_Seq.
  apply run_Plus; [done|done| |].
  { destruct ID as [|b ID]; [done|]. simpl in Hi.
    apply andb_prop in Hi as [Hb _]. simpl.
    by rewrite (word_not_space b Hb). }
  by apply run_Group_Plus_end.
Qed.

End Declarations.

(** X20. A declaration is read as it is meant.  For each of the eight
    object types, the line made of its keyword, white space and a name
    of word characters declares the object of that type whose id and
    name are the name; and the line made of the keyword, a name in
    double quotes, [as] and an id of word characters, with white space
    between them, declares the object of that type with that id and
    that name. *)
Theorem parseObjectDefinition_reads_declaration (t : ObjectType)
    (ws1 ws2 ws3 N name ID : string) (p : Parser) :
  ws1 ≠ "" → Invariant.all_of CSpace ws1 = true →
  ws2 ≠ "" → Invariant.all_of CSpace ws2 = true →
  ws3 ≠ "" → Invariant.all_of CSpace ws3 = true →
  N ≠ "" → Invariant.all_of CWord N = true →
  name ≠ "" → Invariant.all_of (CNot quote) name = true →
  ID ≠ "" → Invariant.all_of CWord ID = true →
  parseObjectDefinition (Invariant.keyword t +:+ ws1 +:+ N) p
  = addObject (str N) (str N) t p
  ∧ parseObjectDefinition
      (Invariant.keyword t +:+ ws1 +:+ String quote (name +:+ String quote
         (ws2 +:+ "as" +:+ ws3 +:+ ID))) p
    = addObject (str ID) (str name) t p.
Proof.
  intros N1 H1 N2 H2 N3 H3 NN HN Nn Hn Ni Hi.
  split.
  - unfold parseObjectDefinition, declarationPatterns.
    destruct t; cbn [Invariant.keyword declarationLoop];
      rewrite ?declaration_skip by (intros k; reflexivity);
      rewrite declaration_simple by done;
      cbn [group cap Nat.eqb]; unfold Js.or; cbn [truthy];
      reflexivity.
  - unfold parseObjectDefinition, declarationPatterns.
    destruct t; cbn [Invariant.keyword declarationLoop];
      rewrite ?declaration_skip by (intros k; reflexivity);
      rewrite declaration_alias by done;
      cbn [group cap Nat.eqb]; unfold Js.or; cbn [truthy];
      destruct name; try done; destruct ID; done.
Qed.

Lemma parseObjectDefinition_reads_declaration_witness :
  parseObjectDefinition "database Orders" Parser.new
  = addObject (str "Orders") (str "Orders") database Parser.new
  ∧ parseObjectDefinition
      ("database " +:+ String quote ("Order store" +:+ String quote " as DB"))
      Parser.new
    = addObject (str "DB") (str "Order store") database Parser.new.
Proof.
  apply (parseObjectDefinition_reads_declaration database " " " " " "
           "Orders" "Order store" "DB" Parser.new); by vm_compute.
Defined.

(** ** Activation lines *)

Section Activation.
Import Invariant.
Implicit Types (s w rest line : string) (cs m : captures).

(** A pattern anchored at the start is tried at the start alone. *)
Lemma anchored_later (r : re) total s :
  String.length s < total → Regex.search total (Seq Bol r) s = None.
Proof.
  induction s as [|a s IH]; intros Hlen; cbn [Regex.search run].
  - rewrite (proj2 (Nat.eqb_neq _ _)); [done|]. simpl in *. lia.
  - rewrite (proj2 (Nat.eqb_neq _ _)) by lia. apply IH. simpl in Hlen. lia.
Qed.

Lemma jsmatch_anchored (r : re) line :
  jsmatch (Seq Bol r) line
  = run (String.length line) r line [] (λ _ cs, Some cs).
Proof.
  unfold jsmatch. destruct line as [|a line]; cbn [Regex.search].
  - rewrite run_Seq, run_Bol. by destruct (run _ _ _ _ _).
  - rewrite run_Seq, run_Bol. destruct (run _ _ _ _ _) as [m|]; [done|].
    apply anchored_later. simpl. lia.
Qed.

(** [^activate\s+(\w+)] and its like on a command line. *)
Lemma command_reference (cmd ws A : string) :
  ws ≠ "" → all_of CSpace ws = true → A ≠ "" → all_of CWord A = true →
  jsmatch (seq [Bol; Lit cmd; Plus CSpace; Group 1 (Plus CWord)])
    (cmd +:+ ws +:+ A)
  = Some [(1, A)].
Proof.
  intros Hne Hws HA HwA. cbn [seq]. rewrite jsmatch_anchored.
  rewrite run_Seq, run_Lit, run_Seq.
  apply run_Plus; [done|done| |].
  { destruct A as [|b A]; [done|]. simpl in HwA.
    apply andb_prop in HwA as [Hb _]. simpl.
    by rewrite (word_not_space b Hb). }
  by apply run_Group_Plus_end.
Qed.

Lemma command_skip (l : string) (r : re) line :
  (∀ k : string → option captures, lit l line k = None) →
  jsmatch (Seq Bol (Seq (Lit l) r)) line = None.
Proof.
  intros Hlit. rewrite jsmatch_anchored, run_Seq. cbn [run]. apply Hlit.
Qed.

Lemma command_line_no (c : ascii) (cmd ws A : string) :
  occurs c cmd = false → is_word c = false → is_space c = false →
  all_of CSpace ws = true → all_of CWord A = true →
  occurs c (cmd +:+ ws +:+ A) = false.
Proof.
  intros Hc Hw Hs Hws HA. rewrite !occurs_app, Hc.
  by rewrite (all_of_occurs CSpace c ws), (all_of_occurs CWord c A).
Qed.

Lemma labelled_any_needs_colon (a : re) line :
  occurs colon line = false → jsmatch (labelled a) line = None.
Proof.
  apply jsmatch_needs. unfold labelled. cbn [seq needs token].
  destruct (needs colon a); reflexivity.
Qed.

Lemma run_Lit_None {A : Type} total l s cs
    (k : string → captures → option A) :
  (∀ k' : string → option A, lit l s k' = None) →
  run total (Lit l) s cs k = None.
Proof. intros H. simpl. apply H. Qed.

Lemma activate_match (active : bool) (ws A : string) :
  let cmd := if active then "activate" else "deactivate" in
  ws ≠ "" → all_of CSpace ws = true → A ≠ "" → all_of CWord A = true →
  jsmatch activatePattern (cmd +:+ ws +:+ A) = Some [(2, A); (1, cmd)].
Proof.
  intros cmd Hne Hws HA HwA. unfold activatePattern. cbn [seq].
  rewrite jsmatch_anchored, run_Seq.
  assert (stops CSpace A = true) as Hstop.
  { destruct A as [|b A]; [done|]. simpl in HwA.
    apply andb_prop in HwA as [Hb _]. simpl.
    by rewrite (word_not_space b Hb). }
  assert (∀ total,
            run total (Seq (Plus CSpace) (Group 2 (Plus CWord))) (ws +:+ A)
              [(1, cmd)] (λ _ cs, Some cs) = Some [(2, A); (1, cmd)]) as Hrest.
  { intros total. rewrite run_Seq. apply run_Plus; [done|done|done|].
    by apply run_Group_Plus_end. }
  rewrite run_Group, run_Alt. subst cmd. destruct active.
  - rewrite (run_Lit _ "activate"), consumed_app. cbv beta.
    by rewrite Hrest.
  - rewrite (run_Lit_None _ "activate") by (intros k'; reflexivity).
    rewrite (run_Lit _ "deactivate"), consumed_app. cbv beta.
    by rewrite Hrest.
Qed.

End Activation.

(** X21. A line [activate A] or [deactivate A], with a name of word
    characters, is read in both passes: the first makes [A] a
    participant, and the second stores a command marker for it, whose
    id is [command-] with its place among the connections, whose label
    is the line's command and name, and which has no ends: its [from]
    and [to] are [null]. *)
Theorem activation_line_is_read (active : bool) (ws A : string) (p : Parser) :
  let cmd := if active then "activate" else "deactivate" in
  ws ≠ "" → Invariant.all_of CSpace ws = true →
  A ≠ "" → Invariant.all_of CWord A = true →
  parseObjectDefinition (cmd +:+ ws +:+ A) p
  = addObject (str A) (str A) participant p
  ∧ ∃ marker,
      parseConnection (cmd +:+ ws +:+ A) p
      = Normal {| objects := objects p;
                  Parser.connections := Parser.connections p ++ [Cmd marker] |}
      ∧ c_id marker
        = "command-" +:+ pretty (length (Parser.connections p))
      ∧ command marker = str cmd ∧ target marker = str A
      ∧ c_label marker = cmd +:+ " " +:+ A
      ∧ conn_from (Cmd marker) = null ∧ conn_to (Cmd marker) = null.
Proof.
  intros cmd Hne Hws HA HwA.
  assert (Invariant.occurs Invariant.colon (cmd +:+ ws +:+ A) = false) as Hcolon.
  { apply command_line_no; try done. subst cmd. by destruct active. }
  assert (Invariant.occurs Invariant.dash (cmd +:+ ws +:+ A) = false) as Hdash.
  { apply command_line_no; try done. subst cmd. by destruct active. }
  split.
  - unfold parseObjectDefinition, declarationPatterns.
    cbn [declarationLoop].
    rewrite !declaration_skip
      by (intros k; subst cmd; destruct active; reflexivity).
    unfold referencePatterns. cbn [referenceLoop].
    rewrite (labelled_any_needs_colon _ _ Hcolon).
    rewrite (jsmatch_needs Invariant.dash
               (unlabelled (alt (Lit "->")
                              [Lit "-->"; Lit "<-"; Lit "<--"; Lit "->>";
                               Lit "<<-"])) _ eq_refl Hdash).
    subst cmd. destruct active.
    + rewrite (command_reference "activate") by done.
      cbn [group cap Nat.eqb truthy andb negb]. by destruct A.
    + pose proof (command_reference "deactivate" ws A Hne Hws HA HwA) as Hm.
      cbn [seq] in Hm |- *.
      rewrite (command_skip "activate") by (intros k; reflexivity).
      rewrite Hm.
      cbn [group cap Nat.eqb truthy andb negb]. by destruct A.
  - subst cmd. unfold parseConnection, connectionPatterns.
    cbn [connectionLoop regex withLabel withoutLabel].
    rewrite !(labelled_needs_colon _ _ Hcolon).
    rewrite (jsmatch_needs Invariant.dash (unlabelled (Lit "->")) _
               eq_refl Hdash),
      (jsmatch_needs Invariant.dash (unlabelled (Lit "-->")) _ eq_refl Hdash),
      (jsmatch_needs Invariant.dash (unlabelled (Lit "<-")) _ eq_refl Hdash),
      (jsmatch_needs Invariant.dash (unlabelled (Lit "<--")) _ eq_refl Hdash).
    rewrite (activate_match active ws A Hne Hws HA HwA).
    eexists. split; [reflexivity|]. cbn [c_id command target c_label group cap
      Nat.eqb to_string conn_from conn_to].
    done.
Qed.

Lemma activation_line_is_read_witness :
  parseObjectDefinition "activate Server" Parser.new
  = addObject (str "Server") (str "Server") participant Parser.new
  ∧ ∃ marker,
      parseConnection "activate Server" Parser.new
      = Normal {| objects := objects Parser.new;
                  Parser.connections :=
                    Parser.connections Parser.new ++ [Cmd marker] |}
      ∧ c_id marker
        = "command-" +:+ pretty (length (Parser.connections Parser.new))
      ∧ command marker = str "activate" ∧ target marker = str "Server"
      ∧ c_label marker = "activate" +:+ " " +:+ "Server"
      ∧ conn_from (Cmd marker) = null ∧ conn_to (Cmd marker) = null.
Proof.
  apply (activation_line_is_read true " " "Server" Parser.new); by vm_compute.
Defined.

(** ** Shortest paths pass no id twice *)

Section Simple.
Variable g : gmap value (list Edge).
Implicit Types (q : list value) (x y : value).

(** A walk passes no id twice, or a shorter one joins the same ends. *)
Lemma walk_simple_or_shorter q :
  ∀ x y, head q = Some x → last q = Some y → walk g q →
         NoDup q
         ∨ ∃ q', head q' = Some x ∧ last q' = Some y ∧ walk g q'
                 ∧ length q' < length q.
Proof.
  induction q as [|u q IH]; intros x y; [done|]. intros [= ->].
  destruct q as [|w q].
  { intros _ _. left. apply NoDup_singleton. }
  rewrite last_cons_cons. intros Hl [Hxw Hw].
  destruct (IH w y eq_refl Hl Hw) as [Hnd|(q' & Hh & Hl' & Hw' & Hlen)].
  - destruct (decide (x ∈ w :: q)) as [Hin|Hin].
    + right. apply list_elem_of_split in Hin as (q1 & q2 & E).
      exists (x :: q2). split; [done|]. split.
      { by rewrite <- Hl, E, last_app_cons. }
      split.
      { apply (walk_suffix g q1). by rewrite <- E. }
      rewrite E. simpl. rewrite length_app. simpl. lia.
    + left. by apply NoDup_cons.
  - right. exists (x :: q'). destruct q' as [|w' q']; [done|].
    injection Hh as ->. split; [done|]. split; [by rewrite last_cons_cons|].
    split; [done|]. simpl in *. lia.
Qed.

End Simple.

(** X22. A path that [findPath] returns passes no id twice, so
    [highlightPath] highlights each object of its path once.  [null]
    is returned only for two different ids. *)
Theorem findPath_path_is_simple (a : AnimationSystem) (x y : value) :
  match findPath a x y with
  | Path p => NoDup p ∧ head p = Some x ∧ last p = Some y
              ∧ walk (flowGraph a) p
  | NoPath => x ≠ y
  | Exhausted => False
  end.
Proof.
  destruct (decide (x = y)) as [->|Hxy].
  { unfold findPath. rewrite decide_True by done.
    split; [apply NoDup_singleton|done]. }
  set (g := flowGraph a).
  unfold findPath. rewrite decide_False by done. fold g.
  pose proof (search_spec g x y Hxy (edgeCount g + 2) ∅ [(x, [x])] (λ _, []) [[]]
                x (length (adj g x)) (searching_start g x y Hxy) (le_n _)) as Hspec.
  lapply Hspec; [clear Hspec; intros Hspec|].
  2: { rewrite unvisited_empty. simpl. lia. }
  destruct (Animation.search (edgeCount g + 2) g y ∅ [(x, [x])])
    as [p| |]; [|done|done].
  destruct Hspec as (Hl & K & HK & Hleast).
  destruct (follow_walk g x K p HK) as (Hh & Hw & Hlen).
  split; [|done].
  destruct (walk_simple_or_shorter g p x y Hh Hl Hw)
    as [Hnd|(q & Hqh & Hql & Hqw & Hshort)]; [done|].
  exfalso.
  destruct (walk_follow g q x Hqh Hqw) as (J & HJ).
  destruct (follow_walk g x J q HJ) as (_ & _ & HlenJ).
  pose proof (sle_length _ _ (Hleast J q HJ Hql)). lia.
Qed.

(** ** A message line, from the text to the model *)

Section MessageLine.
Import Invariant.
Implicit Types (A B ws L kw rest line : string) (p : Parser).

(** A keyword followed by white space is the whole of a word that a
    line begins with. *)
Lemma word_prefix kw A sp R rest :
  all_of CWord kw = true → all_of CWord A = true →
  stops CWord rest = true → is_space sp = true →
  kw +:+ String sp R = A +:+ rest → A = kw.
Proof.
  intros Hkw HA Hrest Hsp. revert A HA.
  induction kw as [|c kw IH]; intros A HA.
  - rewrite append_nil. destruct A as [|a A]; [done|].
    rewrite append_cons. intros [= -> _]. simpl in HA.
    apply andb_prop in HA as [Ha _]. by rewrite (space_not_word a Hsp) in Ha.
  - simpl in Hkw. apply andb_prop in Hkw as [Hc Hkw].
    rewrite append_cons. destruct A as [|a A].
    + rewrite append_nil. intros <-. simpl in Hrest.
      by rewrite Hc in Hrest.
    + rewrite append_cons. intros [= -> H]. simpl in HA.
      apply andb_prop in HA as [_ HA]. by rewrite (IH Hkw A HA H).
Qed.

(** No declaration pattern takes a line that begins with a word other
    than its keyword. *)
Lemma declaration_not_keyword kw A rest :
  all_of CWord kw = true → all_of CWord A = true →
  stops CWord rest = true → A ≠ kw →
  jsmatch (declaration kw) (A +:+ rest) = None.
Proof.
  intros Hkw HA Hrest Hne. rewrite jsmatch_declaration.
  assert (∀ (r : re) cs (k : string → captures → option captures),
            run (String.length (A +:+ rest))
              (Seq Bol (Seq (Lit kw) (Seq (Plus CSpace) r)))
              (A +:+ rest) cs k = None) as Hfail.
  { intros r cs k.
    destruct (run _ _ (A +:+ rest) cs k) as [x|] eqn:E; [|done].
    exfalso. rewrite run_Seq, run_Bol, run_Seq in E. cbn [run] in E.
    apply lit_split in E as (s1 & E1 & E).
    apply plus_class in E as (sp & w & s2 & -> & Hsp & _ & _).
    rewrite append_cons in E1. symmetry in E1.
    by apply word_prefix in E1. }
  unfold declaration. cbn [seq]. by rewrite run_Alt, !Hfail.
Qed.

(** The first pass on the line of a message: both ends become
    participants. *)
Lemma message_ends_declared ar A B p m :
  A ≠ "" → B ≠ "" → cap 1 m = Some A → cap 3 m = Some B →
  (if truthy (group 1 m) && truthy (group 3 m)
   then Some (p ← addObject (group 1 m) (group 1 m) participant p;
              addObject (group 3 m) (group 3 m) participant p)
   else ar)
  = Some (p ← addObject (str A) (str A) participant p;
          addObject (str B) (str B) participant p).
Proof.
  intros HA HB H1 H3. unfold group. rewrite H1, H3.
  destruct A; [done|]. destruct B; done.
Qed.

Lemma first_pass_skips_declarations A rest p :
  all_of CWord A = true → stops CWord rest = true →
  (∀ t, A ≠ keyword t) →
  declarationLoop declarationPatterns (A +:+ rest) p = None.
Proof.
  intros HA Hrest Hkw. unfold declarationPatterns. cbn [declarationLoop].
  rewrite (declaration_not_keyword "actor"),
    (declaration_not_keyword "participant"),
    (declaration_not_keyword "entity"),
    (declaration_not_keyword "database"),
    (declaration_not_keyword "boundary"),
    (declaration_not_keyword "control"),
    (declaration_not_keyword "collections"),
    (declaration_not_keyword "queue"); try done.
  - apply (Hkw queue).
  - apply (Hkw collections).
  - apply (Hkw control).
  - apply (Hkw boundary).
  - apply (Hkw database).
  - apply (Hkw entity).
  - apply (Hkw participant).
  - apply (Hkw actor).
Qed.

Lemma first_pass_labelled A B ws1 ws2 ws3 L p :
  A ≠ "" → B ≠ "" → all_of CWord A = true → all_of CWord B = true →
  all_of CSpace ws1 = true → all_of CSpace ws2 = true →
  all_of CSpace ws3 = true → all_of CDot L = true →
  (∀ t, A ≠ keyword t) →
  parseObjectDefinition
    (A +:+ ws1 +:+ "->" +:+ ws2 +:+ B +:+ ws3 +:+ ":" +:+ L) p
  = (p ← addObject (str A) (str A) participant p;
     addObject (str B) (str B) participant p).
Proof.
  intros HA HB HwA HwB H1 H2 H3 HL Hkw. unfold parseObjectDefinition.
  rewrite first_pass_skips_declarations; [|done| |done].
  2: { by apply (stops_app CWord CSpace); [|apply space_not_word|]. }
  unfold referencePatterns. cbn [referenceLoop].
  match goal with
  | |- context [jsmatch (labelled ?ar) _] =>
      rewrite (labelled_match_any ar "-" ">" A B ws1 ws2 ws3 L); try done
  end.
  - rewrite (message_ends_declared _ A B); done.
  - intros total rest cs k x Hk. cbn [alt]. by apply run_first_arrow.
Qed.

Lemma first_pass_unlabelled A B ws1 ws2 p :
  A ≠ "" → B ≠ "" → all_of CWord A = true → all_of CWord B = true →
  all_of CSpace ws1 = true → all_of CSpace ws2 = true →
  (∀ t, A ≠ keyword t) →
  parseObjectDefinition (A +:+ ws1 +:+ "->" +:+ ws2 +:+ B) p
  = (p ← addObject (str A) (str A) participant p;
     addObject (str B) (str B) participant p).
Proof.
  intros HA HB HwA HwB H1 H2 Hkw. unfold parseObjectDefinition.
  rewrite first_pass_skips_declarations; [|done| |done].
  2: { by apply (stops_app CWord CSpace); [|apply space_not_word|]. }
  assert (occurs colon (A +:+ ws1 +:+ "->" +:+ ws2 +:+ B) = false) as Hno
    by (by apply word_line_no).
  unfold referencePatterns. cbn [referenceLoop].
  rewrite (labelled_any_needs_colon _ _ Hno).
  match goal with
  | |- context [jsmatch (unlabelled ?ar) _] =>
      rewrite (unlabelled_match_any ar "-" ">" A B ws1 ws2); try done
  end.
  - rewrite (message_ends_declared _ A B); done.
  - intros total rest cs k x Hk. cbn [alt]. by apply run_first_arrow.
Qed.

End MessageLine.

(** X23. The first pass reads the line of a solid message, with or
    without a label, whose first name is not one of the eight keywords:
    [parseObjectDefinition] makes both of its ends participants, the
    one on the left first. *)
Theorem parseObjectDefinition_reads_message_ends
    (A B ws1 ws2 ws3 L : string) (p : Parser) :
  A ≠ "" → B ≠ "" →
  Invariant.all_of CWord A = true → Invariant.all_of CWord B = true →
  Invariant.all_of CSpace ws1 = true → Invariant.all_of CSpace ws2 = true →
  Invariant.all_of CSpace ws3 = true → Invariant.all_of CDot L = true →
  (∀ t, A ≠ Invariant.keyword t) →
  parseObjectDefinition
    (A +:+ ws1 +:+ "->" +:+ ws2 +:+ B +:+ ws3 +:+ ":" +:+ L) p
  = (p ← addObject (str A) (str A) participant p;
     addObject (str B) (str B) participant p)
  ∧ parseObjectDefinition (A +:+ ws1 +:+ "->" +:+ ws2 +:+ B) p
    = (p ← addObject (str A) (str A) participant p;
       addObject (str B) (str B) participant p).
Proof.
  intros HA HB HwA HwB H1 H2 H3 HL Hkw. split.
  - by apply first_pass_labelled.
  - by apply first_pass_unlabelled.
Qed.

Lemma parseObjectDefinition_reads_message_ends_witness :
  parseObjectDefinition "Alice -> Bob: hello" Parser.new
  = (p ← addObject (str "Alice") (str "Alice") participant Parser.new;
     addObject (str "Bob") (str "Bob") participant p)
  ∧ parseObjectDefinition "Alice -> Bob" Parser.new
    = (p ← addObject (str "Alice") (str "Alice") participant Parser.new;
       addObject (str "Bob") (str "Bob") participant p).
Proof.
  apply (parseObjectDefinition_reads_message_ends "Alice" "Bob" " " " " ""
           " hello" Parser.new); try (by vm_compute).
  intros t. by destruct t.
Defined.

Section OneMessage.
Import Invariant.
Implicit Types (A B ws L line : string) (p : Parser).

Lemma or_same (v : value) : Js.or v v = v.
Proof. unfold Js.or. by destruct (truthy v). Qed.

(** [addObject] of a new participant, and of one that is there. *)
Lemma addObject_participant n p :
  addObject (str n) (str n) participant p
  = Normal (if has (str n) (objects p) then p
            else {| objects := Parser.set (str n) (participantOf n) (objects p);
                    Parser.connections := Parser.connections p |}).
Proof.
  unfold addObject. destruct (has (str n) (objects p)); [done|].
  simpl. by rewrite or_same.
Qed.

Lemma keep_word_line A rest :
  A ≠ "" → all_of CWord A = true → keep (A +:+ rest) = true.
Proof.
  intros HA HwA. destruct A as [|a A]; [done|]. simpl in HwA.
  apply andb_prop in HwA as [Ha _]. rewrite append_cons. unfold keep.
  rewrite bool_decide_eq_false_2 by done. unfold startsWith.
  cbn [String.prefix].
  destruct (ascii_dec "@" a) as [<-|_]; [by vm_compute in Ha|].
  destruct (ascii_dec "'" a) as [<-|_]; [by vm_compute in Ha|done].
Qed.

Lemma two_participants A B :
  (p ← addObject (str A) (str A) participant Parser.new;
   addObject (str B) (str B) participant p)
  = Normal {| objects :=
                if decide (A = B) then [(str A, participantOf A)]
                else [(str A, participantOf A); (str B, participantOf B)];
              Parser.connections := [] |}.
Proof.
  rewrite addObject_participant.
  change (has (str A) (objects Parser.new)) with false. cbv iota.
  change (mbind ?f (Normal ?x)) with (f x). cbv beta.
  rewrite addObject_participant. unfold has. cbn [objects Parser.set get
    Parser.connections Parser.new].
  destruct (decide (A = B)) as [->|Hne].
  - by rewrite decide_True.
  - rewrite decide_False by congruence. cbn [Parser.set].
    by rewrite decide_False by congruence.
Qed.

(** [addConnection] between two objects that are there. *)
Lemma addConnection_between A B lbl kind p :
  has (str A) (objects p) = true → has (str B) (objects p) = true →
  addConnection (str A) (str B) lbl (str "->") kind p
  = Normal {| objects := objects p;
              Parser.connections :=
                Parser.connections p ++
                [Msg {| m_id := A +:+ "-" +:+ B +:+ "-"
                                +:+ pretty (length (Parser.connections p));
                        from := str A;
                        Parser.to := str B;
                        Parser.label := lbl;
                        arrowType := str "->";
                        connectionType := kind;
                        style := getArrowStyle (str "->") kind |}] |}.
Proof.
  intros HA HB. unfold addConnection.
  rewrite addObject_participant, HA.
  change (mbind ?f (Normal ?x)) with (f x). cbv beta.
  rewrite addObject_participant, HB.
  change (mbind ?f (Normal ?x)) with (f x). cbv beta.
  reflexivity.
Qed.

End OneMessage.

(** X24. A text that is the one line [A -> B: label], trimmed, with
    names of word characters of which the first is no keyword, gives
    the model one expects: the participants [A] and [B], in this order
    and at their default size, or [A] alone when the two are the same,
    and the one solid message from [A] to [B] with the trimmed label,
    the id [A-B-0] and the plain stroke. *)
Theorem parse_one_message (A B ws1 ws2 ws3 L : string) (p : Parser) :
  let line := A +:+ ws1 +:+ "->" +:+ ws2 +:+ B +:+ ws3 +:+ ":" +:+ L in
  A ≠ "" → B ≠ "" →
  Invariant.all_of CWord A = true → Invariant.all_of CWord B = true →
  Invariant.all_of CSpace ws1 = true → Invariant.all_of CSpace ws2 = true →
  Invariant.all_of CSpace ws3 = true → Invariant.all_of CDot L = true →
  (∀ t, A ≠ Invariant.keyword t) →
  trim line = line → Invariant.occurs Invariant.lf line = false →
  parse (str line) p
  = Normal
      {| d_objects :=
           if decide (A = B) then [Invariant.participantOf A]
           else [Invariant.participantOf A; Invariant.participantOf B];
         d_connections :=
           [Msg {| m_id := A +:+ "-" +:+ B +:+ "-0";
                   from := str A;
                   Parser.to := str B;
                   Parser.label := trim L;
                   arrowType := str "->";
                   connectionType := solid;
                   style := {| strokeWidth := 2;
                               strokeDasharray := "none" |} |}] |}.
Proof.
  intros line HA HB HwA HwB H1 H2 H3 HL Hkw Htrim Hlf.
  assert (lines line = [line]) as Hlines.
  { unfold lines. rewrite (splitLines_whole line Hlf). simpl. rewrite Htrim.
    subst line. by rewrite keep_word_line. }
  unfold parse. rewrite Hlines. cbn [Parser.forEach]. subst line.
  change (reset p) with Parser.new.
  rewrite first_pass_labelled, two_participants by done.
  change (mbind ?f (Normal ?x)) with (f x). cbv beta.
  change (mbind ?f (Normal ?x)) with (f x). cbv beta.
  rewrite solid_labelled_line by done.
  rewrite addConnection_between.
  - change (mbind ?f (Normal ?x)) with (f x). cbv beta.
    change (mbind ?f (Normal ?x)) with (f x). cbv beta.
    cbn [objects Parser.connections]. by destruct (decide (A = B)).
  - cbn [objects]. unfold has.
    destruct (decide (A = B)); cbn [get]; by rewrite decide_True.
  - cbn [objects]. unfold has.
    destruct (decide (A = B)) as [->|Hne]; cbn [get].
    + by rewrite decide_True.
    + rewrite decide_False by congruence. by rewrite decide_True.
Qed.

Lemma parse_one_message_witness :
  parse (str "Alice -> Bob: hello") Parser.new
  = Normal
      {| d_objects := [Invariant.participantOf "Alice";
                       Invariant.participantOf "Bob"];
         d_connections :=
           [Msg {| m_id := "Alice-Bob-0";
                   from := str "Alice";
                   Parser.to := str "Bob";
                   Parser.label := "hello";
                   arrowType := str "->";
                   connectionType := solid;
                   style := {| strokeWidth := 2;
                               strokeDasharray := "none" |} |}] |}.
Proof.
  apply (parse_one_message "Alice" "Bob" " " " " "" " hello" Parser.new);
    try (by vm_compute).
  intros t. by destruct t.
Defined.
